(** * XQuery-to-MongoDB CRUD converter: a shallow embedding of [conversion.py]

    The development follows the Python source bottom-up.

    Definitions:
    - [PyStr]: the [str] methods the converter calls ([strip], [startswith],
      [replace], [isdigit], [lower], slicing);
    - [Re]: a backtracking matcher for the fragment of Python's [re] syntax
      that the patterns of the converter use, with [search], [match], [sub],
      [findall] and [split], and the relation [Matches] that it decides;
    - [PyVal], [Json]: Python values, dictionaries in insertion order, and
      [json.loads];
    - [Patterns]: the patterns of [conversion.py], one definition for each,
      with the line of the source it comes from;
    - [Conv]: the class [XQueryToMongoCRUDConverter], method by method;
    - [Xdmp]: the function [convert_xquery_to_mongo] of [xquery_to_mongo.py];
    - [Spec]: the sentences of the specification that the code is compared
      with, as definitions of their own;
    - [Notions]: the notions that the further properties are stated with
      (identifiers, tokens, what a pattern accepts and needs).
    [Conv] ends with [main], the loop over the lines of the input.

    Theorems: facts about strings, decimal notation, dictionaries and the
    matcher; the six scenarios of the specification; the claims C1 to
    C10, each in a part of its own; then further properties of the code,
    X1 to X25, read off the source.  The part of C9 is in two: the facts
    about the Value Resolver after C8, the claim itself at the end, with
    the string form of floats and the facts about patterns it relies on.

    Conventions of the embedding:
    - Characters are 8-bit.  The character classes ([\s], [\w], [isdigit],
      [lower]) are Python's on the ASCII range; characters from 128 upwards
      are classified as neither space, digit, letter nor cased.  The
      embedding is therefore that of the converter on ASCII statements.
    - A method that may raise returns a sum, [inl] for the exception.  The
      one attribute of a converter, [var_mappings], is passed in and out of
      the methods that touch it.
    - A [float] is kept as the text of its literal; the binary64 number
      that the text stands for, and the string form of that number, are
      defined in [Spec].
    - [lxml.etree.fromstring] and the builtin [eval] are parameters.
    - [_parse_where_clause], which [conversion.py] calls and does not
      define, is modelled from section 4.3 of the specification.
    - Where a comment quotes a pattern of the source, a space separates a
      star from a closing parenthesis that follows it, and QUOTE stands for
      the set of the double and the single quote. *)

From Stdlib Require Import String Ascii List ZArith Bool Arith Lia.
From Stdlib Require Import DecimalString DecimalPos.
Import ListNotations.
Open Scope list_scope.
Open Scope string_scope.

Set Implicit Arguments.
Set Warnings "-register-all".

(* ================================================================== *)
(** * Python strings *)
(* ================================================================== *)

Module PyStr.

(** The double quote and the single quote, which the patterns of the
    converter mention all the time. *)
Definition dq : ascii := "034"%char.
Definition sq : ascii := "039"%char.

Definition code (c : ascii) : nat := nat_of_ascii c.

Definition between (lo hi : nat) (c : ascii) : bool :=
  ((lo <=? code c) && (code c <=? hi))%nat.

(** [str.isspace] on ASCII: TAB, LF, VT, FF, CR, the four separators
    FS, GS, RS, US, and the space. *)
Definition is_space (c : ascii) : bool :=
  between 9 13 c || between 28 32 c.

Definition is_digit (c : ascii) : bool := between 48 57 c.
Definition is_upper (c : ascii) : bool := between 65 90 c.
Definition is_lower (c : ascii) : bool := between 97 122 c.

(** The class [\w]: letters, digits and the underscore. *)
Definition is_word (c : ascii) : bool :=
  is_digit c || is_upper c || is_lower c || (code c =? 95)%nat.

Definition lower_char (c : ascii) : ascii :=
  if is_upper c then ascii_of_nat (code c + 32) else c.

Definition upper_char (c : ascii) : ascii :=
  if is_lower c then ascii_of_nat (code c - 32) else c.

(** [s.lower()] *)
Fixpoint lower (s : string) : string :=
  match s with
  | EmptyString => EmptyString
  | String c s' => String (lower_char c) (lower s')
  end.

Definition is_empty (s : string) : bool :=
  match s with EmptyString => true | _ => false end.

(** [s.lstrip(...)], [s.rstrip(...)] and [s.strip(...)] for a set of
    characters given as a predicate. *)
Fixpoint lstrip_by (p : ascii -> bool) (s : string) : string :=
  match s with
  | EmptyString => EmptyString
  | String c s' => if p c then lstrip_by p s' else s
  end.

Fixpoint rstrip_by (p : ascii -> bool) (s : string) : string :=
  match s with
  | EmptyString => EmptyString
  | String c s' =>
      let r := rstrip_by p s' in
      if is_empty r && p c then EmptyString else String c r
  end.

Definition strip_by (p : ascii -> bool) (s : string) : string :=
  rstrip_by p (lstrip_by p s).

(** [s.strip()] *)
Definition strip (s : string) : string := strip_by is_space s.

Fixpoint mem_char (c : ascii) (set : string) : bool :=
  match set with
  | EmptyString => false
  | String d set' => Ascii.eqb c d || mem_char c set'
  end.

(** [s.strip(chars)] *)
Definition strip_chars (chars : string) (s : string) : string :=
  strip_by (fun c => mem_char c chars) s.

(** [s.startswith(p)] *)
Fixpoint startswith (s p : string) : bool :=
  match p, s with
  | EmptyString, _ => true
  | String a p', String b s' => Ascii.eqb a b && startswith s' p'
  | String _ _, EmptyString => false
  end.

Fixpoint rev_acc (s acc : string) : string :=
  match s with
  | EmptyString => acc
  | String c s' => rev_acc s' (String c acc)
  end.

Definition rev (s : string) : string := rev_acc s EmptyString.

(** [s.endswith(p)] *)
Definition endswith (s p : string) : bool := startswith (rev s) (rev p).

(** [s[n:]] *)
Fixpoint drop (n : nat) (s : string) : string :=
  match n, s with
  | O, _ => s
  | S n', String _ s' => drop n' s'
  | S _, EmptyString => EmptyString
  end.

(** [s[:n]] *)
Fixpoint take (n : nat) (s : string) : string :=
  match n, s with
  | S n', String c s' => String c (take n' s')
  | _, _ => EmptyString
  end.

(** [s[:-1]] *)
Fixpoint drop_last (s : string) : string :=
  match s with
  | EmptyString => EmptyString
  | String c EmptyString => EmptyString
  | String c s' => String c (drop_last s')
  end.

(** [s[1:-1]] *)
Definition slice_1_m1 (s : string) : string := drop_last (drop 1 s).

(** [s.replace(a, b)] for one-character [a] and [b]. *)
Fixpoint replace_char (a b : ascii) (s : string) : string :=
  match s with
  | EmptyString => EmptyString
  | String c s' =>
      String (if Ascii.eqb c a then b else c) (replace_char a b s')
  end.

Fixpoint all_chars (p : ascii -> bool) (s : string) : bool :=
  match s with
  | EmptyString => true
  | String c s' => p c && all_chars p s'
  end.

(** [s.isdigit()]: non-empty and all digits. *)
Definition isdigit (s : string) : bool :=
  negb (is_empty s) && all_chars is_digit s.

(** [c in s] for a character [c]. *)
Definition contains_char (c : ascii) (s : string) : bool := mem_char c s.

(** [int(s)] for a string of decimal digits. *)
Definition digit_val (c : ascii) : Z := Z.of_nat (code c - 48).

Fixpoint int_acc (acc : Z) (s : string) : Z :=
  match s with
  | EmptyString => acc
  | String c s' => int_acc (10 * acc + digit_val c)%Z s'
  end.

Definition int_of_digits (s : string) : Z := int_acc 0%Z s.

(** A way to write the double quote inside the statements used as
    examples: the backquote stands for it. *)
Definition q (s : string) : string := replace_char "`"%char dq s.

End PyStr.

Export PyStr.

(* ================================================================== *)
(** * Regular expressions: the fragment of Python's [re] in use *)
(* ================================================================== *)

Module Re.

(** An item of a bracketed set. *)
Inductive item : Type :=
| IChar (c : ascii)          (* a literal character *)
| IRange (lo hi : ascii)     (* [lo-hi] *)
| ISpace                     (* [\s] *)
| IWord                      (* [\w] *).

(** Patterns.  [Group n r] is the [n]-th capturing group; the
    non-capturing [(?:r)] is [r] itself. *)
Inductive regex : Type :=
| Eps                              (* the empty pattern *)
| Chr (c : ascii)                  (* a literal character *)
| Any                              (* [.] *)
| OneOf (items : list item)        (* [[...]] *)
| NoneOf (items : list item)       (* [[^...]] *)
| Seq (r1 r2 : regex)              (* [r1 r2] *)
| Alt (r1 r2 : regex)              (* [r1|r2] *)
| Star (r : regex)                 (* [r*], greedy *)
| StarLazy (r : regex)             (* [r*?] *)
| Group (n : nat) (r : regex)      (* [(r)] *)
| Bol                              (* [^] *)
| Eol                              (* [$] *)
| EndZ                             (* [\Z] *).

(** [r+], [r+?], [r?] *)
Definition Plus (r : regex) : regex := Seq r (Star r).
Definition PlusLazy (r : regex) : regex := Seq r (StarLazy r).
Definition Opt (r : regex) : regex := Alt r Eps.

(** A literal string. *)
Fixpoint lit (s : string) : regex :=
  match s with
  | EmptyString => Eps
  | String c EmptyString => Chr c
  | String c s' => Seq (Chr c) (lit s')
  end.

(** The concatenation of a list of patterns. *)
Fixpoint cat (rs : list regex) : regex :=
  match rs with
  | [] => Eps
  | [r] => r
  | r :: rs' => Seq r (cat rs')
  end.

(** [\s] and [\w] outside a set. *)
Definition space : regex := OneOf [ISpace].
Definition word : regex := OneOf [IWord].

(** The flags [re.IGNORECASE] and [re.DOTALL]. *)
Record flags : Type := Flags { ignorecase : bool; dotall : bool }.

Definition no_flags : flags := Flags false false.
Definition IGNORECASE : flags := Flags true false.
Definition IGNORECASE_DOTALL : flags := Flags true true.

Definition newline : ascii := "010"%char.

Definition item_matches (i : item) (c : ascii) : bool :=
  match i with
  | IChar d => Ascii.eqb c d
  | IRange lo hi => between (code lo) (code hi) c
  | ISpace => is_space c
  | IWord => is_word c
  end.

Definition in_items (items : list item) (c : ascii) : bool :=
  existsb (fun i => item_matches i c) items.

(** Membership in a set; under [IGNORECASE] the other case of the
    character counts too. *)
Definition set_matches (fl : flags) (items : list item) (c : ascii) : bool :=
  in_items items c
  || (ignorecase fl
      && (in_items items (lower_char c) || in_items items (upper_char c))).

Definition chr_matches (fl : flags) (d c : ascii) : bool :=
  Ascii.eqb c d
  || (ignorecase fl && Ascii.eqb (lower_char c) (lower_char d)).

Definition any_matches (fl : flags) (c : ascii) : bool :=
  dotall fl || negb (Ascii.eqb c newline).

(** The state of a match in progress: the position reached, the text
    that remains from there, and the groups captured so far (the latest
    binding of a group first). *)
Record mstate : Type :=
  MState { ms_pos : nat; ms_rest : string; ms_caps : list (nat * string) }.

Definition step (st : mstate) (rest : string) : mstate :=
  MState (S (ms_pos st)) rest (ms_caps st).

Definition capture (n : nat) (st0 st : mstate) : mstate :=
  MState (ms_pos st) (ms_rest st)
         ((n, take (ms_pos st - ms_pos st0) (ms_rest st0)) :: ms_caps st).

Section Matcher.

Variable fl : flags.
Variable R : Type.

Definition one (p : ascii -> bool) (st : mstate)
           (k : mstate -> option R) : option R :=
  match ms_rest st with
  | String c rest => if p c then k (step st rest) else None
  | EmptyString => None
  end.

(** The two repetitions, over the matcher [body] of the repeated pattern
    and the continuation [k] of the repetition.  An iteration counts only
    if it consumes characters, so that [n] iterations at most are tried
    when [n] characters remain. *)
Fixpoint greedy (body : mstate -> (mstate -> option R) -> option R)
         (k : mstate -> option R) (n : nat) (st : mstate) : option R :=
  match n with
  | O => k st
  | S n' =>
      match
        body st
             (fun st' =>
                if (ms_pos st <? ms_pos st')%nat
                then greedy body k n' st' else None)
      with
      | Some x => Some x
      | None => k st
      end
  end.

Fixpoint lazy (body : mstate -> (mstate -> option R) -> option R)
         (k : mstate -> option R) (n : nat) (st : mstate) : option R :=
  match n with
  | O => k st
  | S n' =>
      match k st with
      | Some x => Some x
      | None =>
          body st
               (fun st' =>
                  if (ms_pos st <? ms_pos st')%nat
                  then lazy body k n' st' else None)
      end
  end.

(** The backtracking matcher, in continuation-passing style: [run r st k]
    tries the ways [r] matches at [st] in the order of priority of [re]
    (the first alternative first, a greedy repetition the longest first, a
    lazy one the shortest first), passes each end state to [k], and stops at
    the first for which [k] succeeds.  Every repeated pattern of the
    converter consumes at least one character at each iteration. *)
Fixpoint run (r : regex) (st : mstate) (k : mstate -> option R)
  {struct r} : option R :=
  match r with
  | Eps => k st
  | Chr d => one (chr_matches fl d) st k
  | Any => one (any_matches fl) st k
  | OneOf items => one (set_matches fl items) st k
  | NoneOf items => one (fun c => negb (set_matches fl items c)) st k
  | Seq r1 r2 => run r1 st (fun st' => run r2 st' k)
  | Alt r1 r2 =>
      match run r1 st k with
      | Some x => Some x
      | None => run r2 st k
      end
  | Star r1 => greedy (run r1) k (String.length (ms_rest st)) st
  | StarLazy r1 => lazy (run r1) k (String.length (ms_rest st)) st
  | Group n r1 => run r1 st (fun st' => k (capture n st st'))
  | Bol => if (ms_pos st =? 0)%nat then k st else None
  | Eol =>
      match ms_rest st with
      | EmptyString => k st
      | String c EmptyString => if Ascii.eqb c newline then k st else None
      | _ => None
      end
  | EndZ => if is_empty (ms_rest st) then k st else None
  end.

End Matcher.

(** What the matcher searches: [Matches fl r st st'] when the pattern [r]
    can take the state [st] to the state [st']. *)
Inductive Matches (fl : flags) : regex -> mstate -> mstate -> Prop :=
| MEps st : Matches fl Eps st st
| MChr d c rest st :
    ms_rest st = String c rest -> chr_matches fl d c = true ->
    Matches fl (Chr d) st (step st rest)
| MAny c rest st :
    ms_rest st = String c rest -> any_matches fl c = true ->
    Matches fl Any st (step st rest)
| MOneOf items c rest st :
    ms_rest st = String c rest -> set_matches fl items c = true ->
    Matches fl (OneOf items) st (step st rest)
| MNoneOf items c rest st :
    ms_rest st = String c rest -> set_matches fl items c = false ->
    Matches fl (NoneOf items) st (step st rest)
| MSeq r1 r2 st st1 st2 :
    Matches fl r1 st st1 -> Matches fl r2 st1 st2 ->
    Matches fl (Seq r1 r2) st st2
| MAltL r1 r2 st st' : Matches fl r1 st st' -> Matches fl (Alt r1 r2) st st'
| MAltR r1 r2 st st' : Matches fl r2 st st' -> Matches fl (Alt r1 r2) st st'
| MStarDone r st : Matches fl (Star r) st st
| MStarMore r st st1 st2 :
    Matches fl r st st1 -> (ms_pos st < ms_pos st1)%nat ->
    Matches fl (Star r) st1 st2 -> Matches fl (Star r) st st2
| MLazyDone r st : Matches fl (StarLazy r) st st
| MLazyMore r st st1 st2 :
    Matches fl r st st1 -> (ms_pos st < ms_pos st1)%nat ->
    Matches fl (StarLazy r) st1 st2 -> Matches fl (StarLazy r) st st2
| MGroup n r st st' :
    Matches fl r st st' -> Matches fl (Group n r) st (capture n st st')
| MBol st : ms_pos st = 0 -> Matches fl Bol st st
| MEolEnd st : ms_rest st = EmptyString -> Matches fl Eol st st
| MEolNewline st :
    ms_rest st = String newline EmptyString -> Matches fl Eol st st
| MEndZ st : ms_rest st = EmptyString -> Matches fl EndZ st st.

(** The matcher [body] finds only matches of [r]. *)
Definition sound_body (fl : flags) (R : Type) (r : regex)
           (body : mstate -> (mstate -> option R) -> option R) : Prop :=
  forall st k x, body st k = Some x ->
                 exists st', Matches fl r st st' /\ k st' = Some x.

(** A match object: where the match starts and ends, and its groups. *)
Record rmatch : Type :=
  RMatch { m_start : nat; m_end : nat; m_caps : list (nat * string) }.

Fixpoint lookup_cap (n : nat) (caps : list (nat * string)) : option string :=
  match caps with
  | [] => None
  | (m, s) :: caps' => if (n =? m)%nat then Some s else lookup_cap n caps'
  end.

(** [m.group(n)], [None] when the group took no part in the match. *)
Definition group_opt (m : rmatch) (n : nat) : option string :=
  lookup_cap n (m_caps m).

(** [m.group(n)] for a group that is part of every match. *)
Definition group (m : rmatch) (n : nat) : string :=
  match group_opt m n with
  | Some s => s
  | None => EmptyString
  end.

(** The match of [r] that starts at position [pos], where [s] is the text
    from [pos] on. *)
Definition match_at (fl : flags) (r : regex) (pos : nat) (s : string)
  : option rmatch :=
  run fl r (MState pos s [])
      (fun st => Some (RMatch pos (ms_pos st) (ms_caps st))).

Fixpoint search_from (fl : flags) (r : regex) (pos : nat) (s : string)
  : option rmatch :=
  match match_at fl r pos s with
  | Some m => Some m
  | None =>
      match s with
      | EmptyString => None
      | String _ s' => search_from fl r (S pos) s'
      end
  end.

(** [re.search(r, s, flags)]: the leftmost match. *)
Definition search (fl : flags) (r : regex) (s : string) : option rmatch :=
  search_from fl r 0 s.

(** [re.match(r, s, flags)]: a match at the start of [s]. *)
Definition rematch (fl : flags) (r : regex) (s : string) : option rmatch :=
  match_at fl r 0 s.

(** Scanning for successive matches, as [sub], [findall] and [split] do.
    [skip] counts the characters still covered by the last match.  An empty
    match is passed over: none of the patterns the converter hands to these
    three functions matches the empty string. *)
Fixpoint sub_go (fl : flags) (r : regex) (repl : string)
         (skip pos : nat) (s : string) : string :=
  match skip with
  | S k =>
      match s with
      | String _ s' => sub_go fl r repl k (S pos) s'
      | EmptyString => EmptyString
      end
  | O =>
      match s with
      | EmptyString => EmptyString
      | String c s' =>
          match match_at fl r pos s with
          | Some m =>
              if (m_start m <? m_end m)%nat
              then repl ++ sub_go fl r repl (m_end m - m_start m - 1) (S pos) s'
              else String c (sub_go fl r repl 0 (S pos) s')
          | None => String c (sub_go fl r repl 0 (S pos) s')
          end
      end
  end.

(** [re.sub(r, repl, s, flags)] for a replacement text with no group
    reference. *)
Definition sub (fl : flags) (r : regex) (repl : string) (s : string)
  : string :=
  sub_go fl r repl 0 0 s.

Fixpoint findall_go (fl : flags) (r : regex)
         (skip pos : nat) (s : string) : list string :=
  match skip with
  | S k =>
      match s with
      | String _ s' => findall_go fl r k (S pos) s'
      | EmptyString => []
      end
  | O =>
      match s with
      | EmptyString => []
      | String c s' =>
          match match_at fl r pos s with
          | Some m =>
              if (m_start m <? m_end m)%nat
              then group m 1
                   :: findall_go fl r (m_end m - m_start m - 1) (S pos) s'
              else findall_go fl r 0 (S pos) s'
          | None => findall_go fl r 0 (S pos) s'
          end
      end
  end.

(** [re.findall(r, s)] for a pattern with exactly one group: the list of
    what group 1 captured in each match. *)
Definition findall (fl : flags) (r : regex) (s : string) : list string :=
  findall_go fl r 0 0 s.

Fixpoint split_go (fl : flags) (r : regex) (skip pos : nat)
         (piece : string) (s : string) : list string :=
  match skip with
  | S k =>
      match s with
      | String _ s' => split_go fl r k (S pos) piece s'
      | EmptyString => [rev piece]
      end
  | O =>
      match s with
      | EmptyString => [rev piece]
      | String c s' =>
          match match_at fl r pos s with
          | Some m =>
              if (m_start m <? m_end m)%nat
              then rev piece
                   :: split_go fl r (m_end m - m_start m - 1) (S pos)
                        EmptyString s'
              else split_go fl r 0 (S pos) (String c piece) s'
          | None => split_go fl r 0 (S pos) (String c piece) s'
          end
      end
  end.

(** [re.split(r, s, flags=...)] for a pattern without groups; [piece] is
    the current piece, reversed. *)
Definition split (fl : flags) (r : regex) (s : string) : list string :=
  split_go fl r 0 0 EmptyString s.

End Re.

Export Re.

(* ================================================================== *)
(** * Python values and dictionaries *)
(* ================================================================== *)

Module PyVal.

(** A [dict] with [str] keys: the association list of its items in
    insertion order, without repeated keys. *)
Definition dict (V : Type) : Type := list (string * V).

Section Dict.

Variable V : Type.

(** [d.get(k)] *)
Fixpoint dict_get (k : string) (d : dict V) : option V :=
  match d with
  | [] => None
  | (k', v) :: d' => if String.eqb k k' then Some v else dict_get k d'
  end.

(** [k in d] *)
Definition dict_mem (k : string) (d : dict V) : bool :=
  match dict_get k d with Some _ => true | None => false end.

(** [d[k] = v]: the value of an existing key is replaced where the key
    stands, a new key goes to the end. *)
Fixpoint dict_set (k : string) (v : V) (d : dict V) : dict V :=
  match d with
  | [] => [(k, v)]
  | (k', v') :: d' =>
      if String.eqb k k' then (k', v) :: d' else (k', v') :: dict_set k v d'
  end.

(** [d.update(e)] *)
Definition dict_update (d e : dict V) : dict V :=
  fold_left (fun acc kv => dict_set (fst kv) (snd kv) acc) e d.

(** [dict(pairs)] *)
Definition dict_of_pairs (pairs : list (string * V)) : dict V :=
  dict_update [] pairs.

Definition dict_keys (d : dict V) : list string := map fst d.

End Dict.

(** The values the converter handles: what [json.loads] returns and what
    the converter builds.  A [float] is kept as the text of the literal it
    was read from: the converter does no arithmetic on it.  The binary64
    number that the text stands for is defined in [Spec], with the string
    form of a float. *)
Inductive pyval : Type :=
| PNone
| PBool (b : bool)
| PInt (z : Z)
| PFloat (literal : string)
| PStr (s : string)
| PList (items : list pyval)
| PDict (items : dict pyval).

(** [isinstance(v, str)] *)
Definition is_str (v : pyval) : bool :=
  match v with PStr _ => true | _ => false end.

(** [isinstance(v, list)] *)
Definition is_list (v : pyval) : bool :=
  match v with PList _ => true | _ => false end.

End PyVal.

Export PyVal.

(* ================================================================== *)
(** * [json.loads] *)
(* ================================================================== *)

Module Json.

(** [json.decoder.WHITESPACE]: the pattern [[ \t\n\r]*]. *)
Definition is_json_ws (c : ascii) : bool :=
  match code c with
  | 32 | 9 | 10 | 13 => true
  | _ => false
  end.

Definition skip_ws (s : string) : string := lstrip_by is_json_ws s.

Definition digit : regex := OneOf [IRange "0" "9"].

(** [json.scanner.NUMBER_RE]:
    [(-?(?:0|[1-9]\d* ))(\.\d+)?([eE][-+]?\d+)?] *)
Definition NUMBER_RE : regex :=
  cat [ Group 1 (Seq (Opt (Chr "-"))
                     (Alt (Chr "0")
                          (Seq (OneOf [IRange "1" "9"]) (Star digit))));
        Opt (Group 2 (Seq (Chr ".") (Plus digit)));
        Opt (Group 3 (cat [OneOf [IChar "e"; IChar "E"];
                           Opt (OneOf [IChar "-"; IChar "+"]);
                           Plus digit])) ].

(** [int(s)] for an optional minus sign followed by digits. *)
Definition int_of_literal (s : string) : Z :=
  match s with
  | String "-" s' => (- int_of_digits s')%Z
  | _ => int_of_digits s
  end.

Definition hex_val (c : ascii) : option nat :=
  if is_digit c then Some (code c - 48)
  else if between 97 102 c then Some (code c - 87)
  else if between 65 70 c then Some (code c - 55)
  else None.

(** The four hexadecimal digits of a [\uXXXX] escape.  A code point from
    256 upwards has no character in the embedding, whose characters are
    8-bit: the literal is then refused, where [json.loads] accepts it.
    On a literal with such an escape the embedding departs from the
    source. *)
Definition decode_uXXXX (s : string) : option (ascii * string) :=
  match s with
  | String a (String b (String c (String d rest))) =>
      match hex_val a, hex_val b, hex_val c, hex_val d with
      | Some x, Some y, Some z, Some w =>
          let n := ((x * 16 + y) * 16 + z) * 16 + w in
          if (n <? 256)%nat then Some (ascii_of_nat n, rest) else None
      | _, _, _, _ => None
      end
  | _ => None
  end.

(** The escapes of [json.decoder.BACKSLASH]. *)
Definition backslash (c : ascii) : option ascii :=
  match code c with
  | 34 => Some dq                    (* the double quote *)
  | 92 => Some "092"%char            (* the backslash *)
  | 47 => Some "/"%char              (* the slash *)
  | 98 => Some "008"%char            (* b: backspace *)
  | 102 => Some "012"%char           (* f: form feed *)
  | 110 => Some "010"%char           (* n: line feed *)
  | 114 => Some "013"%char           (* r: carriage return *)
  | 116 => Some "009"%char           (* t: tab *)
  | _ => None
  end.

(** [scanstring(s, end, strict=True)]: the text after the opening quote,
    up to the closing one.  Returns the string and what follows the closing
    quote. *)
Fixpoint scanstring_go (fuel : nat) (s : string) (acc : string)
  : option (string * string) :=
  match fuel with
  | O => None
  | S f =>
      match s with
      | EmptyString => None
      | String c rest =>
          if Ascii.eqb c dq then Some (rev acc, rest)
          else if Ascii.eqb c "092" then
            match rest with
            | EmptyString => None
            | String e rest' =>
                if Ascii.eqb e "u" then
                  match decode_uXXXX rest' with
                  | Some (u, rest'') => scanstring_go f rest'' (String u acc)
                  | None => None
                  end
                else
                  match backslash e with
                  | Some x => scanstring_go f rest' (String x acc)
                  | None => None
                  end
            end
          else if (code c <? 32)%nat then None
          else scanstring_go f rest (String c acc)
      end
  end.

Definition scanstring (s : string) : option (string * string) :=
  scanstring_go (S (String.length s)) s EmptyString.

(** [match_number] and the conversion of its groups: an [int] when there
    is neither fraction nor exponent, a [float] otherwise. *)
Definition scan_number (s : string) : option (pyval * string) :=
  match match_at no_flags NUMBER_RE 0 s with
  | Some m =>
      let rest := drop (m_end m) s in
      match group_opt m 2, group_opt m 3 with
      | None, None => Some (PInt (int_of_literal (group m 1)), rest)
      | frac, exp =>
          Some (PFloat (group m 1
                        ++ match frac with Some f => f | None => EmptyString end
                        ++ match exp with
                           | Some e => e
                           | None => EmptyString
                           end),
                rest)
      end
  | None => None
  end.

(** The constants the scanner accepts besides numbers. *)
Definition scan_constant (s : string) : option (pyval * string) :=
  if startswith s "NaN" then Some (PFloat "NaN", drop 3 s)
  else if startswith s "Infinity" then Some (PFloat "Infinity", drop 8 s)
  else if startswith s "-Infinity" then Some (PFloat "-Infinity", drop 9 s)
  else None.

(** [scan_once], [JSONObject] and [JSONArray], by recursion on a fuel.
    Of two calls that follow each other, one at least consumes a character
    ([JSONArray] hands its text to [scan_once] as it is), so that twice the
    length of the text is fuel enough. *)
Fixpoint scan_once (fuel : nat) (s : string) : option (pyval * string) :=
  match fuel with
  | O => None
  | S f =>
      match s with
      | EmptyString => None
      | String c rest =>
          if Ascii.eqb c dq then
            match scanstring rest with
            | Some (str, rest') => Some (PStr str, rest')
            | None => None
            end
          else if Ascii.eqb c "{" then
            match skip_ws rest with
            | String "}" rest' => Some (PDict [], rest')
            | String c' rest' =>
                if Ascii.eqb c' dq then JSONObject f rest' [] else None
            | EmptyString => None
            end
          else if Ascii.eqb c "[" then
            match skip_ws rest with
            | String "]" rest' => Some (PList [], rest')
            | rest' => JSONArray f rest' []
            end
          else if startswith s "null" then Some (PNone, drop 4 s)
          else if startswith s "true" then Some (PBool true, drop 4 s)
          else if startswith s "false" then Some (PBool false, drop 5 s)
          else
            match scan_number s with
            | Some r => Some r
            | None => scan_constant s
            end
      end
  end

with JSONObject (fuel : nat) (s : string) (pairs : list (string * pyval))
  : option (pyval * string) :=
  match fuel with
  | O => None
  | S f =>
      match scanstring s with
      | Some (key, s1) =>
          match skip_ws s1 with
          | String ":" s2 =>
              match scan_once f (skip_ws s2) with
              | Some (value, s3) =>
                  let pairs' := (key, value) :: pairs in
                  match skip_ws s3 with
                  | String "}" s4 =>
                      Some (PDict (dict_of_pairs (List.rev pairs')), s4)
                  | String "," s4 =>
                      match skip_ws s4 with
                      | String c s5 =>
                          if Ascii.eqb c dq then JSONObject f s5 pairs'
                          else None
                      | EmptyString => None
                      end
                  | _ => None
                  end
              | None => None
              end
          | _ => None
          end
      | None => None
      end
  end

with JSONArray (fuel : nat) (s : string) (values : list pyval)
  : option (pyval * string) :=
  match fuel with
  | O => None
  | S f =>
      match scan_once f s with
      | Some (value, s1) =>
          let values' := value :: values in
          match skip_ws s1 with
          | String "]" s2 => Some (PList (List.rev values'), s2)
          | String "," s2 => JSONArray f (skip_ws s2) values'
          | _ => None
          end
      | None => None
      end
  end.

(** [json.loads(s)]: one value, with white space allowed around it and
    nothing else after it.  [None] stands for [JSONDecodeError]. *)
Definition loads (s : string) : option pyval :=
  match scan_once (2 * String.length s + 2) (skip_ws s) with
  | Some (v, rest) => if is_empty (skip_ws rest) then Some v else None
  | None => None
  end.

End Json.

(* ================================================================== *)
(** * The patterns of [conversion.py] *)
(* ================================================================== *)

Module Patterns.

Definition quote : regex := OneOf [IChar dq; IChar sq].
Definition not_quote : regex := NoneOf [IChar dq; IChar sq].

(** The shorthand prefix, with the collection name as group 1:
    [db\.collection\(QUOTE([^QUOTE]+)QUOTE\)], where QUOTE is the set of
    the double and the single quote. *)
Definition db_collection : regex :=
  cat [lit "db.collection("; quote; Group 1 (Plus not_quote); quote; Chr ")"].

(** The same without the group, as the router writes it. *)
Definition db_collection_cue : regex :=
  cat [lit "db.collection("; quote; Plus not_quote; quote; Chr ")"].

(** [collection\(QUOTE([^QUOTE]+)QUOTE\)] with the name as group [n]. *)
Definition collection_ref (n : nat) : regex :=
  cat [lit "collection("; quote; Group n (Plus not_quote); quote; Chr ")"].

(** ** [parse_xquery] (lines 18 to 30) *)

(** [insert\s+node] *)
Definition cue_insert_node : regex :=
  cat [lit "insert"; Plus space; lit "node"].
(** [db\.collection\(...\)\.insert] *)
Definition cue_insert_db : regex := Seq db_collection_cue (lit ".insert").
(** [replace\s+node|update\s+value] *)
Definition cue_update_node : regex :=
  Alt (cat [lit "replace"; Plus space; lit "node"])
      (cat [lit "update"; Plus space; lit "value"]).
(** [db\.collection\(...\)\.update] *)
Definition cue_update_db : regex := Seq db_collection_cue (lit ".update").
(** [delete\s+node] *)
Definition cue_delete_node : regex :=
  cat [lit "delete"; Plus space; lit "node"].
(** [db\.collection\(...\)\.remove] *)
Definition cue_delete_db : regex := Seq db_collection_cue (lit ".remove").
(** [for\s+\$\w+\s+in\s+collection|db\.collection\(...\)\.find] *)
Definition cue_read : regex :=
  Alt (cat [lit "for"; Plus space; Chr "$"; Plus word; Plus space; lit "in";
            Plus space; lit "collection"])
      (Seq db_collection_cue (lit ".find")).

(** ** The clean-up of structured literals *)

(** [,\s*}] *)
Definition comma_brace : regex := cat [Chr ","; Star space; Chr "}"].
(** [,\s*]] *)
Definition comma_bracket : regex := cat [Chr ","; Star space; Chr "]"].

(** ** [_parse_insert] *)

(** Line 40: [db\.collection\(...\)\.insert\((.* )\)] *)
Definition mongo_insert : regex :=
  cat [db_collection; lit ".insert("; Group 2 (Star Any); Chr ")"].

(** Line 63:
    [insert\s+node\s+(.*?)\s+into\s+collection\(QUOTE([^QUOTE]+)QUOTE\)] *)
Definition xquery_insert : regex :=
  cat [lit "insert"; Plus space; lit "node"; Plus space;
       Group 1 (StarLazy Any); Plus space; lit "into"; Plus space;
       collection_ref 2].

(** Line 79: [<\?xml[^>]+\?>] *)
Definition xml_declaration : regex :=
  cat [lit "<?xml"; Plus (NoneOf [IChar ">"]); lit "?>"].

(** ** [_parse_update] *)

(** Line 133: [db\.collection\(...\)\.update\((.*?),\s*(.* )\)] *)
Definition mongo_update : regex :=
  cat [db_collection; lit ".update("; Group 2 (StarLazy Any); Chr ",";
       Star space; Group 3 (Star Any); Chr ")"].

(** A name between double quotes. *)
Definition quoted (name : string) : string :=
  String dq (name ++ String dq EmptyString).

(** Line 147: the alternation of the quoted [$set], [$inc] and [$push]. *)
Definition modifier_key : regex :=
  Alt (lit (quoted "$set")) (Alt (lit (quoted "$inc")) (lit (quoted "$push"))).

(** [(?:where|in\s+collection)] *)
Definition where_or_in_collection : regex :=
  Alt (lit "where") (cat [lit "in"; Plus space; lit "collection"]).

(** Line 163:
    [replace\s+node\s+(.*?)\s+with\s+(.*?)(?:where|in\s+collection)] *)
Definition replace_node : regex :=
  cat [lit "replace"; Plus space; lit "node"; Plus space;
       Group 1 (StarLazy Any); Plus space; lit "with"; Plus space;
       Group 2 (StarLazy Any); where_or_in_collection].

(** Line 217:
    [update\s+value\s+(.*?)\s+with\s+(.*?)(?:where|in\s+collection)] *)
Definition update_value : regex :=
  cat [lit "update"; Plus space; lit "value"; Plus space;
       Group 1 (StarLazy Any); Plus space; lit "with"; Plus space;
       Group 2 (StarLazy Any); where_or_in_collection].

(** Lines 169, 223 and 294:
    [in\s+collection\(QUOTE([^QUOTE]+)QUOTE\)] *)
Definition in_collection : regex :=
  cat [lit "in"; Plus space; collection_ref 1].

(** Lines 176, 230 and 301: [where\s+(.*?)(?:in\s+collection|\Z)] *)
Definition where_until_collection : regex :=
  cat [lit "where"; Plus space; Group 1 (StarLazy Any);
       Alt (cat [lit "in"; Plus space; lit "collection"]) EndZ].

(** Lines 180, 234 and 305: [\$(\w+)(?:/([^/]+))?] *)
Definition target_path : regex :=
  cat [Chr "$"; Group 1 (Plus word);
       Opt (Seq (Chr "/") (Group 2 (Plus (NoneOf [IChar "/"]))))].

(** Lines 251 and 558: [^[0-9]+\.[0-9]+$] *)
Definition float_literal : regex :=
  cat [Bol; Plus Json.digit; Chr "."; Plus Json.digit; Eol].

(** ** [_parse_delete] *)

(** Line 270: [db\.collection\(...\)\.remove\((.* )\)] *)
Definition mongo_remove : regex :=
  cat [db_collection; lit ".remove("; Group 2 (Star Any); Chr ")"].

(** Line 289: [delete\s+node\s+(.*?)(?:where|in\s+collection)] *)
Definition delete_node : regex :=
  cat [lit "delete"; Plus space; lit "node"; Plus space;
       Group 1 (StarLazy Any); where_or_in_collection].

(** ** [_parse_read] *)

(** Line 328: [db\.collection\(...\)\.find\((.*?)\)] *)
Definition mongo_find : regex :=
  cat [db_collection; lit ".find("; Group 2 (StarLazy Any); Chr ")"].

(** Line 357:
    [for\s+\$(\w+)\s+in\s+collection\(QUOTE([^QUOTE]+)QUOTE\)(.* )] *)
Definition for_in_collection : regex :=
  cat [lit "for"; Plus space; Chr "$"; Group 1 (Plus word); Plus space;
       lit "in"; Plus space; collection_ref 2; Group 3 (Star Any)].

(** Line 367: [where\s+(.*?)(?:order\s+by|\Z)] *)
Definition where_until_order : regex :=
  cat [lit "where"; Plus space; Group 1 (StarLazy Any);
       Alt (cat [lit "order"; Plus space; lit "by"]) EndZ].

(** Line 376: [order\s+by\s+(.*?)(?:return|\Z)] *)
Definition order_by : regex :=
  cat [lit "order"; Plus space; lit "by"; Plus space;
       Group 1 (StarLazy Any); Alt (lit "return") EndZ].

(** Line 384: [return\s+(.* )] *)
Definition return_clause_re : regex :=
  cat [lit "return"; Plus space; Group 1 (Star Any)].

(** ** [_parse_single_condition] *)

(** The path of a comparison, group 1: [(\$\w+(?:/[^/\s]+)* )] *)
Definition cond_path : regex :=
  Group 1 (cat [Chr "$"; Plus word;
                Star (Seq (Chr "/") (Plus (NoneOf [IChar "/"; ISpace])))]).

(** The path of a function call, group 1: [(\$\w+(?:/[^/\s,]+)* )] *)
Definition call_path : regex :=
  Group 1 (cat [Chr "$"; Plus word;
                Star (Seq (Chr "/")
                          (Plus (NoneOf [IChar "/"; ISpace; IChar ","])))]).

(** [PATH\s*OP\s*(.+)] for a symbolic operator [OP]. *)
Definition cond_symbolic (op : string) : regex :=
  cat [cond_path; Star space; lit op; Star space; Group 2 (Plus Any)].

(** [PATH\s+OP\s+(.+)] for a keyword operator [OP]. *)
Definition cond_keyword (op : string) : regex :=
  cat [cond_path; Plus space; lit op; Plus space; Group 2 (Plus Any)].

(** [NAME\s*\(\s*PATH\s*,\s*(.+?)\s*\)] for the functions [contains],
    [starts-with] and [ends-with]. *)
Definition cond_call (name : string) : regex :=
  cat [lit name; Star space; Chr "("; Star space; call_path; Star space;
       Chr ","; Star space; Group 2 (PlusLazy Any); Star space; Chr ")"].

(** Line 514: [exists\s*\(\s*PATH\s*\)] *)
Definition cond_exists : regex :=
  cat [lit "exists"; Star space; Chr "("; Star space; cond_path; Star space;
       Chr ")"].

(** Line 522: [not\s*\(\s*exists\s*\(\s*PATH\s*\)\s*\)] *)
Definition cond_not_exists : regex :=
  cat [lit "not"; Star space; Chr "("; Star space; lit "exists"; Star space;
       Chr "("; Star space; cond_path; Star space; Chr ")"; Star space;
       Chr ")"].

(** ** [_parse_order_by] *)

(** Line 585: [,\s*] *)
Definition comma_spaces : regex := Seq (Chr ",") (Star space).
(** Line 589: [descending$] *)
Definition descending_end : regex := Seq (lit "descending") Eol.
(** Line 591: [\s+descending$] *)
Definition spaces_descending_end : regex :=
  cat [Plus space; lit "descending"; Eol].
(** Line 595: [\s+ascending$] *)
Definition spaces_ascending_end : regex :=
  cat [Plus space; lit "ascending"; Eol].

(** ** [_parse_return_clause] *)

(** Line 610: [\$] followed by the context variable and [/([^/\s,]+)].
    The context variable is what [\w+] captured in the iteration clause,
    so it stands for itself in the pattern. *)
Definition field_pattern (context_var : string) : regex :=
  cat [Chr "$"; lit context_var; Chr "/";
       Group 1 (Plus (NoneOf [IChar "/"; ISpace; IChar ","]))].

End Patterns.

(* ================================================================== *)
(** * The converter: class [XQueryToMongoCRUDConverter] *)
(* ================================================================== *)

Module Conv.

Import Patterns.

(** ** Results and errors *)

(** Every failure of the converter is a [ValueError] with a message.  Where
    the source appends the text of a library exception to the message, the
    embedding keeps the part of the message before it. *)
Inductive error : Type :=
| ValueError (msg : string).

(** The outcome of a method that may raise: [inl] for an exception. *)
Definition result (A : Type) : Type := (error + A)%type.

Definition ok {A : Type} (x : A) : result A := inr x.
Definition raise {A : Type} (msg : string) : result A := inl (ValueError msg).

Definition bind {A B : Type} (c : result A) (k : A -> result B) : result B :=
  match c with
  | inl e => inl e
  | inr x => k x
  end.

Notation "'let*' x ':=' c 'in' k" := (bind c (fun x => k))
  (at level 10, x name, c at level 100, k at level 200).

(** The dictionaries the converter returns, one constructor for each value
    of their [operation] entry ([insertOne], [updateMany], [deleteMany],
    [find]); the [sort] and [projection] entries of a [find] are optional. *)
Inductive operation : Type :=
| InsertOne (collection : string) (document : pyval)
| UpdateMany (collection : string) (filter : pyval) (update : pyval)
| DeleteMany (collection : string) (filter : pyval)
| Find (collection : string) (filter : pyval)
       (sort : option pyval) (projection : option pyval).

Definition op_collection (o : operation) : string :=
  match o with
  | InsertOne c _ | UpdateMany c _ _ | DeleteMany c _ | Find c _ _ _ => c
  end.

(** The [filter] entry; an insert has none. *)
Definition op_filter (o : operation) : option pyval :=
  match o with
  | InsertOne _ _ => None
  | UpdateMany _ f _ | DeleteMany _ f | Find _ f _ _ => Some f
  end.

Definition op_projection (o : operation) : option pyval :=
  match o with
  | Find _ _ _ p => p
  | _ => None
  end.

(** [re.search(a, s) or re.search(b, s)] *)
Definition search_or (fl : flags) (a b : regex) (s : string)
  : option rmatch :=
  match search fl a s with
  | Some m => Some m
  | None => search fl b s
  end.

Definition found (m : option rmatch) : bool :=
  match m with Some _ => true | None => false end.

(** ** [_parse_path] (lines 531 to 541) *)

Definition _parse_path (path context_var : string) : string :=
  let var_slash := String "$" (context_var ++ "/") in
  if startswith path var_slash then
    replace_char "/" "." (drop (String.length var_slash) path)
  else if String.eqb path (String "$" context_var) then
    "_id"
  else
    replace_char "/" "." path.

(** ** [_parse_value] (lines 543 to 579) *)

Definition quoted_with (c : ascii) (s : string) : bool :=
  startswith s (String c EmptyString) && endswith s (String c EmptyString).

Definition _parse_value (value_str : string) : pyval :=
  let value_str := strip value_str in
  if quoted_with dq value_str || quoted_with sq value_str then
    PStr (slice_1_m1 value_str)
  else if isdigit value_str then
    PInt (int_of_digits value_str)
  else if found (rematch no_flags float_literal value_str) then
    PFloat value_str
  else if String.eqb (lower value_str) "true" then
    PBool true
  else if String.eqb (lower value_str) "false" then
    PBool false
  else if String.eqb (lower value_str) "null"
          || String.eqb (lower value_str) "none" then
    PNone
  else if contains_char "(" value_str then
    PStr value_str
  else
    PStr value_str.

(** ** [_parse_single_condition] (lines 405 to 529) *)

(** [re.escape] *)
Definition special_chars : string :=
  "()[]{}?*+-|^$\.&~# " ++
  String "009" (String "010" (String "013" (String "011"
   (String "012" EmptyString)))).

Fixpoint re_escape (s : string) : string :=
  match s with
  | EmptyString => EmptyString
  | String c s' =>
      if mem_char c special_chars
      then String "092" (String c (re_escape s'))
      else String c (re_escape s')
  end.

(** The body shared by the six comparisons: path in group 1, value in
    group 2. *)
Definition comparison (m : rmatch) (context_var : string)
           (wrap : pyval -> pyval) : dict pyval :=
  let path := strip (group m 1) in
  let value := strip (group m 2) in
  let field := _parse_path path context_var in
  let parsed_value := _parse_value value in
  [(field, wrap parsed_value)].

Definition operator (name : string) (v : pyval) : pyval :=
  PDict [(name, v)].

(** The body shared by [contains], [starts-with] and [ends-with]. *)
Definition string_call (m : rmatch) (context_var : string)
           (pattern_of : string -> string) (name : string)
  : result (dict pyval) :=
  let path := strip (group m 1) in
  let text := strip (group m 2) in
  let field := _parse_path path context_var in
  match _parse_value text with
  | PStr s =>
      ok [(field, PDict [("$regex", PStr (pattern_of s));
                         ("$options", PStr "i")])]
  | _ =>
      raise (name ++ "() operator can only be used with strings, got: "
             ++ text)
  end.

Definition existence (m : rmatch) (context_var : string) (b : bool)
  : dict pyval :=
  let path := strip (group m 1) in
  let field := _parse_path path context_var in
  [(field, PDict [("$exists", PBool b)])].

Definition _parse_single_condition (condition context_var : string)
  : result (dict pyval) :=
  let condition := strip_chars "()" condition in
  match search_or no_flags (cond_symbolic "=") (cond_keyword "eq")
                  condition with
  | Some m => ok (comparison m context_var (fun v => v))
  | None =>
  match search_or no_flags (cond_symbolic "!=") (cond_keyword "ne")
                  condition with
  | Some m => ok (comparison m context_var (operator "$ne"))
  | None =>
  match search_or no_flags (cond_symbolic ">") (cond_keyword "gt")
                  condition with
  | Some m => ok (comparison m context_var (operator "$gt"))
  | None =>
  match search_or no_flags (cond_symbolic ">=") (cond_keyword "ge")
                  condition with
  | Some m => ok (comparison m context_var (operator "$gte"))
  | None =>
  match search_or no_flags (cond_symbolic "<") (cond_keyword "lt")
                  condition with
  | Some m => ok (comparison m context_var (operator "$lt"))
  | None =>
  match search_or no_flags (cond_symbolic "<=") (cond_keyword "le")
                  condition with
  | Some m => ok (comparison m context_var (operator "$lte"))
  | None =>
  match search no_flags (cond_call "contains") condition with
  | Some m => string_call m context_var (fun s => s) "contains"
  | None =>
  match search no_flags (cond_call "starts-with") condition with
  | Some m =>
      string_call m context_var (fun s => String "^" (re_escape s))
                  "starts-with"
  | None =>
  match search no_flags (cond_call "ends-with") condition with
  | Some m =>
      string_call m context_var (fun s => re_escape s ++ "$") "ends-with"
  | None =>
  match search no_flags cond_exists condition with
  | Some m => ok (existence m context_var true)
  | None =>
  match search no_flags cond_not_exists condition with
  | Some m => ok (existence m context_var false)
  | None => raise ("Unsupported condition: " ++ condition)
  end end end end end end end end end end end.

(** ** [_parse_where_clause] *)

(** [\s+and\s+] *)
Definition conjunction : regex := cat [Plus space; lit "and"; Plus space].

(** Modelled from the spec: [_parse_where_clause], which the parsers call
    (lines 190, 244, 314 and 373) and [conversion.py] does not define.
    Section 4.3 of the specification: the clause is split on the explicit
    conjunction markers into condition fragments, each fragment is parsed
    by [_parse_single_condition], and the entries are merged into one
    filter, a later fragment overwriting an earlier one on the same field
    path; the first failure of a fragment is the failure of the clause. *)
Fixpoint merge_conditions (fragments : list string) (context_var : string)
         (query : dict pyval) : result (dict pyval) :=
  match fragments with
  | [] => ok query
  | fragment :: rest =>
      let* entry := _parse_single_condition fragment context_var in
      merge_conditions rest context_var (dict_update query entry)
  end.

Definition _parse_where_clause (where_clause context_var : string)
  : result pyval :=
  let* query :=
    merge_conditions (split IGNORECASE conjunction where_clause)
                     context_var [] in
  ok (PDict query).

(** ** [_parse_order_by] (lines 581 to 601) *)

Definition order_part (context_var : string) (part : string)
  : string * pyval :=
  if found (search IGNORECASE descending_end part) then
    let part := sub IGNORECASE spaces_descending_end EmptyString part in
    (_parse_path (strip part) context_var, PInt (-1))
  else
    let part := sub IGNORECASE spaces_ascending_end EmptyString part in
    (_parse_path (strip part) context_var, PInt 1).

Definition _parse_order_by (order_by_clause context_var : string)
  : dict pyval :=
  let parts := split no_flags comma_spaces order_by_clause in
  fold_left
    (fun sort_spec part =>
       let fd := order_part context_var part in
       dict_set (fst fd) (snd fd) sort_spec)
    parts [].

(** ** [_parse_return_clause] (lines 603 to 620) *)

Definition is_nil {A : Type} (l : list A) : bool :=
  match l with [] => true | _ => false end.

(** The loop of lines 613 and 614. *)
Definition project_fields (fields : list string) : dict pyval :=
  fold_left (fun projection field => dict_set field (PInt 1) projection)
            fields [].

Definition _parse_return_clause (return_clause context_var : string)
  : dict pyval :=
  let fields := findall no_flags (field_pattern context_var) return_clause in
  let projection := project_fields fields in
  if negb (is_nil fields) && negb (dict_mem "_id" projection)
  then dict_set "_id" (PInt 0) projection
  else projection.

(** ** [_xml_to_json] (lines 98 to 127) *)

(** An element of [lxml.etree]: its tag, attributes, text and child
    elements. *)
Inductive element : Type :=
| Element (tag : string) (attrib : list (string * string))
          (text : option string) (children : list element).

Definition tag_of (e : element) : string :=
  match e with Element tag _ _ _ => tag end.

(** Lines 111 to 118: one more child under [tag]. *)
Definition add_child (result : dict pyval) (tag : string)
           (child_dict : pyval) : dict pyval :=
  match dict_get tag result with
  | Some (PList l) => dict_set tag (PList (l ++ [child_dict])%list) result
  | Some v => dict_set tag (PList [v; child_dict]) result
  | None => dict_set tag child_dict result
  end.

Fixpoint _xml_to_json (e : element) : pyval :=
  match e with
  | Element _ attrib text children =>
      let result :=
        fold_left (fun r kv => dict_set (String "@" (fst kv)) (PStr (snd kv)) r)
                  attrib [] in
      let result :=
        fold_left (fun r child => add_child r (fst child) (snd child))
                  (map (fun c => (tag_of c, _xml_to_json c)) children)
                  result in
      match text with
      | Some t =>
          if negb (is_empty t) && negb (is_empty (strip t)) then
            if negb (is_nil result)
            then PDict (dict_set "#text" (PStr (strip t)) result)
            else PStr (strip t)
          else PDict result
      | None => PDict result
      end
  end.

(** ** The clauses shared by the hierarchical forms *)

(** [re.sub(r',\s*}', '}', s)] *)
Definition clean_braces (s : string) : string :=
  sub no_flags comma_brace "}" s.

(** [re.sub(r',\s*]', ']', s)] *)
Definition clean_brackets (s : string) : string :=
  sub no_flags comma_bracket "]" s.

(** [m.group(1).strip() if m else None] for the match [m] of the condition
    pattern [where_re] in [text] (lines 176 and 177, 230 and 231, 301 and
    302, 367 and 368). *)
Definition where_clause_of (where_re : regex) (text : string)
  : option string :=
  match search IGNORECASE_DOTALL where_re text with
  | Some where_match => Some (strip (group where_match 1))
  | None => None
  end.

(** [query = {}], then [if where_clause: query =
    self._parse_where_clause(where_clause, var_name)]. *)
Definition query_of (where_clause : option string) (var_name : string)
  : result pyval :=
  match where_clause with
  | Some w =>
      if negb (is_empty w) then _parse_where_clause w var_name
      else ok (PDict [])
  | None => ok (PDict [])
  end.

(** [path_parts.group(2).replace('/', '.') if path_parts.group(2) else
    None] *)
Definition field_path_of (path_parts : rmatch) : option string :=
  match group_opt path_parts 2 with
  | Some g => if negb (is_empty g) then Some (replace_char "/" "." g) else None
  | None => None
  end.

(** [{"$set": {field_path: v}} if field_path else {"$set": v}] *)
Definition set_update (field_path : option string) (v : pyval) : pyval :=
  match field_path with
  | Some f => PDict [("$set", PDict [(f, v)])]
  | None => PDict [("$set", v)]
  end.

(** The part of the three hierarchical forms that follows the match of
    their first pattern: the collection name, the condition clause, the
    target path and the filter, in the order of the source.  [what] names
    the statement in the message of a missing collection. *)
Definition collection_path_query (what : string)
           (xquery_string target_path_text : string)
  : result (string * option string * pyval) :=
  match search no_flags in_collection xquery_string with
  | None => raise ("Collection name not found in " ++ what ++ " statement")
  | Some collection_match =>
      let collection_name := group collection_match 1 in
      let where_clause := where_clause_of where_until_collection
                                          xquery_string in
      match search no_flags target_path target_path_text with
      | None => raise ("Could not parse target path: " ++ target_path_text)
      | Some path_parts =>
          let var_name := group path_parts 1 in
          let field_path := field_path_of path_parts in
          let* query := query_of where_clause var_name in
          ok (collection_name, field_path, query)
      end
  end.

(** ** [_parse_update] (lines 129 to 264) *)

(** Lines 193 to 200: the replacement of a [replace node] statement. *)
Definition replacement_value (replacement : string) : pyval :=
  if startswith replacement "{" && endswith replacement "}" then
    match Json.loads replacement with
    | Some v => v
    | None => PStr replacement
    end
  else PStr replacement.

(** Lines 247 to 252: the new value of an [update value] statement. *)
Definition new_value_of (new_value : string) : pyval :=
  if quoted_with dq new_value then PStr (slice_1_m1 new_value)
  else if isdigit new_value then PInt (int_of_digits new_value)
  else if found (rematch no_flags float_literal new_value)
  then PFloat new_value
  else PStr new_value.

(** Lines 146 to 151: the second argument of the shorthand form. *)
Definition uses_operators (update_json : string) : bool :=
  startswith (strip update_json) "{"
  && found (search no_flags modifier_key update_json).

Definition shorthand_update (update_json : string) : option pyval :=
  if uses_operators update_json then
    Json.loads update_json
  else
    match Json.loads update_json with
    | Some v => Some (PDict [("$set", v)])
    | None => None
    end.

Definition _parse_update (xquery_string : string) : result operation :=
  match search IGNORECASE_DOTALL mongo_update xquery_string with
  | Some mongo_style_match =>
      let collection_name := group mongo_style_match 1 in
      let query_json := strip (group mongo_style_match 2) in
      let update_json := strip (group mongo_style_match 3) in
      let query_json := clean_braces query_json in
      let update_json := clean_braces update_json in
      match Json.loads query_json with
      | None => raise "Could not parse update JSON"
      | Some query =>
          match shorthand_update update_json with
          | None => raise "Could not parse update JSON"
          | Some update => ok (UpdateMany collection_name query update)
          end
      end
  | None =>
  match search IGNORECASE_DOTALL replace_node xquery_string with
  | Some replace_node_match =>
      let target_path := strip (group replace_node_match 1) in
      let replacement := strip (group replace_node_match 2) in
      let* cpq := collection_path_query "replace" xquery_string target_path in
      let '(collection_name, field_path, query) := cpq in
      let update_value := replacement_value replacement in
      ok (UpdateMany collection_name query (set_update field_path update_value))
  | None =>
  match search IGNORECASE_DOTALL update_value xquery_string with
  | Some update_value_match =>
      let target_path := strip (group update_value_match 1) in
      let new_value := strip (group update_value_match 2) in
      let* cpq := collection_path_query "update" xquery_string target_path in
      let '(collection_name, field_path, query) := cpq in
      ok (UpdateMany collection_name query
                     (set_update field_path (new_value_of new_value)))
  | None => raise ("Unsupported update syntax: " ++ xquery_string)
  end end end.

(** ** [_parse_delete] (lines 266 to 322) *)

Definition _parse_delete (xquery_string : string) : result operation :=
  match search IGNORECASE_DOTALL mongo_remove xquery_string with
  | Some mongo_style_match =>
      let collection_name := group mongo_style_match 1 in
      let query_json := strip (group mongo_style_match 2) in
      let query_json := clean_braces query_json in
      match Json.loads query_json with
      | Some query => ok (DeleteMany collection_name query)
      | None => raise "Could not parse delete query JSON"
      end
  | None =>
  match search IGNORECASE_DOTALL delete_node xquery_string with
  | Some delete_node_match =>
      let target_path := strip (group delete_node_match 1) in
      let* cpq := collection_path_query "delete" xquery_string target_path in
      let '(collection_name, _, query) := cpq in
      ok (DeleteMany collection_name query)
  | None => raise ("Unsupported delete syntax: " ++ xquery_string)
  end end.

(** ** The state of a converter *)

(** [self.var_mappings]: the collection bound to each iteration variable. *)
Definition var_mappings : Type := dict string.

(** A method that may write [self.var_mappings] and may raise; what it
    wrote before raising stays written. *)
Definition M (A : Type) : Type := var_mappings -> result A * var_mappings.

(** A method that leaves the state alone. *)
Definition pure {A : Type} (c : result A) : M A := fun vm => (c, vm).

(** The outcome of a method does not depend on the state it starts in. *)
Definition oblivious {A : Type} (c : M A) : Prop :=
  forall vm1 vm2 : var_mappings, fst (c vm1) = fst (c vm2).

(** ** [_parse_read] (lines 324 to 403) *)

(** Lines 375 to 380. *)
Definition sort_of (rest_of_query var_name : string) : option (dict pyval) :=
  match search IGNORECASE_DOTALL order_by rest_of_query with
  | Some order_by_match =>
      let sort_clause := strip (group order_by_match 1) in
      Some (_parse_order_by sort_clause var_name)
  | None => None
  end.

(** Lines 383 to 387. *)
Definition projection_of (rest_of_query var_name : string)
  : option (dict pyval) :=
  match search IGNORECASE_DOTALL return_clause_re rest_of_query with
  | Some return_match =>
      let return_clause := strip (group return_match 1) in
      Some (_parse_return_clause return_clause var_name)
  | None => None
  end.

(** [if d: result[key] = d]: an entry only for a dictionary that is
    there and not empty. *)
Definition entry_of (d : option (dict pyval)) : option pyval :=
  match d with
  | Some items => if negb (is_nil items) then Some (PDict items) else None
  | None => None
  end.

(** On line 335 the source file breaks the assignment
    [query_json = re.sub(...)] over several lines; it is read as the one
    assignment, as in [_parse_update] and [_parse_delete]. *)
Definition _parse_read (xquery_string : string) : M operation :=
  fun vm =>
  match search IGNORECASE_DOTALL mongo_find xquery_string with
  | Some mongo_style_match =>
      let collection_name := group mongo_style_match 1 in
      let query_json := strip (group mongo_style_match 2) in
      let query_json := clean_braces query_json in
      if is_empty query_json then
        (ok (Find collection_name (PDict []) None None), vm)
      else
        match Json.loads query_json with
        | Some query => (ok (Find collection_name query None None), vm)
        | None => (raise "Could not parse query JSON", vm)
        end
  | None =>
  match search IGNORECASE_DOTALL for_in_collection xquery_string with
  | Some xquery_style_match =>
      let var_name := group xquery_style_match 1 in
      let collection_name := group xquery_style_match 2 in
      let rest_of_query := strip (group xquery_style_match 3) in
      let vm := dict_set var_name collection_name vm in
      let where_clause := where_clause_of where_until_order rest_of_query in
      (let* query := query_of where_clause var_name in
       let sort := sort_of rest_of_query var_name in
       let projection := projection_of rest_of_query var_name in
       ok (Find collection_name query (entry_of sort) (entry_of projection)),
       vm)
  | None => (raise ("Unsupported read syntax: " ++ xquery_string), vm)
  end end.

(** ** [_parse_insert] and [parse_xquery] *)

Section Converter.

(** [lxml.etree.fromstring]; [None] when it raises. *)
Variable etree_fromstring : string -> option element.

(** [_parse_insert] (lines 36 to 96) *)
Definition _parse_insert (xquery_string : string) : result operation :=
  match search IGNORECASE_DOTALL mongo_insert xquery_string with
  | Some mongo_style_match =>
      let collection_name := group mongo_style_match 1 in
      let doc_json := strip (group mongo_style_match 2) in
      let doc_json := clean_braces doc_json in
      let doc_json := clean_brackets doc_json in
      match Json.loads doc_json with
      | Some doc => ok (InsertOne collection_name doc)
      | None => raise "Could not parse insert document JSON"
      end
  | None =>
  match search IGNORECASE_DOTALL xquery_insert xquery_string with
  | Some xquery_style_match =>
      let xml_content := strip (group xquery_style_match 1) in
      let collection_name := group xquery_style_match 2 in
      if startswith xml_content "{" && endswith xml_content "}" then
        match Json.loads xml_content with
        | Some doc => ok (InsertOne collection_name doc)
        | None =>
            raise ("Could not process insert operation: "
                   ++ "Could not parse insert JSON content")
        end
      else
        let xml_content := sub no_flags xml_declaration EmptyString
                               xml_content in
        match etree_fromstring xml_content with
        | Some xml_tree =>
            ok (InsertOne collection_name (_xml_to_json xml_tree))
        | None =>
            raise ("Could not process insert operation: "
                   ++ "Could not parse XML")
        end
  | None => raise ("Unsupported insert syntax: " ++ xquery_string)
  end end.

(** The cues of the router, one for each branch of [parse_xquery]. *)
Definition insert_cue (s : string) : bool :=
  found (search IGNORECASE cue_insert_node s)
  || found (search IGNORECASE cue_insert_db s).

Definition update_cue (s : string) : bool :=
  found (search IGNORECASE cue_update_node s)
  || found (search IGNORECASE cue_update_db s).

Definition delete_cue (s : string) : bool :=
  found (search IGNORECASE cue_delete_node s)
  || found (search IGNORECASE cue_delete_db s).

Definition read_cue (s : string) : bool :=
  found (search IGNORECASE cue_read s).

(** [parse_xquery] (lines 11 to 34) *)
Definition parse_xquery (xquery_string : string) : M operation :=
  let xquery_string := strip xquery_string in
  if insert_cue xquery_string then
    pure (_parse_insert xquery_string)
  else if update_cue xquery_string then
    pure (_parse_update xquery_string)
  else if delete_cue xquery_string then
    pure (_parse_delete xquery_string)
  else if read_cue xquery_string then
    _parse_read xquery_string
  else
    pure (raise ("Unsupported XQuery CRUD syntax: " ++ xquery_string)).

(** A converter that translates the statements of a list one after the
    other, as [main] does with the lines of its input: the state it is
    left in. *)
Definition translate_all (statements : list string) (vm : var_mappings)
  : var_mappings :=
  fold_left (fun vm s => snd (parse_xquery s vm)) statements vm.

End Converter.

(** ** [main] (lines 623 to 645) *)

Section Main.

Variable etree_fromstring : string -> option element.

(** [json.dumps(result, indent=2)] *)
Variable json_dumps : operation -> string.

(** What [main] does for a line of its input: it writes a text to the
    output file (line 641), or prints the line and the error to the
    standard error stream (lines 643 and 644). *)
Inductive event : Type :=
| Written (text : string)
| Reported (line : string) (e : error).

(** Line 636: [if not line or line.startswith('#')] *)
Definition skipped (line : string) : bool :=
  is_empty line || startswith line "#".

(** The loop of lines 634 to 644, over the lines of the input file, with
    the one converter of line 632. *)
Fixpoint main_loop (lines : list string) (vm : var_mappings)
  : list event :=
  match lines with
  | [] => []
  | line :: rest =>
      let line := strip line in
      if skipped line then main_loop rest vm
      else
        match parse_xquery etree_fromstring line vm with
        | (inr result, vm') =>
            Written (json_dumps result ++ String newline EmptyString)
            :: main_loop rest vm'
        | (inl e, vm') => Reported line e :: main_loop rest vm'
        end
  end.

(** [main], from the lines of the input file to what it writes and
    reports; the reading of the arguments and of the files is left out. *)
Definition main (lines : list string) : list event := main_loop lines [].

End Main.

End Conv.

Export Conv.

(* ================================================================== *)
(** * [convert_xquery_to_mongo] of [xquery_to_mongo.py] *)
(* ================================================================== *)

Module Xdmp.

(** Line 14: [xdmp:document-insert\(QUOTE(.+?)QUOTE, (.+)\)], where QUOTE
    is the double quote. *)
Definition document_insert : regex :=
  cat [lit "xdmp:document-insert("; Chr dq; Group 1 (PlusLazy Any); Chr dq;
       lit ", "; Group 2 (Plus Any); Chr ")"].

(** Line 23: [xdmp:document-get\(QUOTE(.+?)QUOTE\)] *)
Definition document_get : regex :=
  cat [lit "xdmp:document-get("; Chr dq; Group 1 (PlusLazy Any); Chr dq;
       Chr ")"].

(** Line 30: [xdmp:node-replace\(doc\(QUOTE(.+?)QUOTE\)//(.+?), (.+)\)] *)
Definition node_replace : regex :=
  cat [lit "xdmp:node-replace(doc("; Chr dq; Group 1 (PlusLazy Any); Chr dq;
       lit ")//"; Group 2 (PlusLazy Any); lit ", "; Group 3 (Plus Any);
       Chr ")"].

(** Line 39: [xdmp:document-delete\(QUOTE(.+?)QUOTE\)] *)
Definition document_delete : regex :=
  cat [lit "xdmp:document-delete("; Chr dq; Group 1 (PlusLazy Any); Chr dq;
       Chr ")"].

(** [needle in s] *)
Definition contains (needle s : string) : bool :=
  found (search no_flags (lit needle) s).

(** The dictionaries the function returns, by their [operation] entry, and
    the dictionary with the single entry [error]. *)
Inductive outcome : Type :=
| Insert (data : pyval)
| FindOne (query : pyval)
| UpdateOne (query : pyval) (update : pyval)
| DeleteOne (query : pyval)
| Unsupported.

Definition by_id (doc_id : string) : pyval := PDict [("_id", PStr doc_id)].

Section Eval.

(** The builtin [eval], on the text of the statement; [None] when it
    raises. *)
Variable eval : string -> option pyval.

(** [convert_xquery_to_mongo] (lines 10 to 44); [None] stands for an
    exception that leaves the function: one raised by [eval], or by the
    assignment of line 18 to a value that is not a dictionary. *)
Definition convert_xquery_to_mongo (xquery : string) : option outcome :=
  if contains "xdmp:document-insert" xquery then
    match search no_flags document_insert xquery with
    | Some m =>
        let doc_id := group m 1 in
        match eval (group m 2) with
        | Some (PDict document) =>
            Some (Insert (PDict (dict_set "_id" (PStr doc_id) document)))
        | _ => None
        end
    | None => Some Unsupported
    end
  else if contains "xdmp:document-get" xquery then
    match search no_flags document_get xquery with
    | Some m => Some (FindOne (by_id (group m 1)))
    | None => Some Unsupported
    end
  else if contains "xdmp:node-replace" xquery then
    match search no_flags node_replace xquery with
    | Some m =>
        let doc_id := group m 1 in
        let field := group m 2 in
        match eval (group m 3) with
        | Some new_value =>
            Some (UpdateOne (by_id doc_id)
                            (PDict [("$set", PDict [(field, new_value)])]))
        | None => None
        end
    | None => Some Unsupported
    end
  else if contains "xdmp:document-delete" xquery then
    match search no_flags document_delete xquery with
    | Some m => Some (DeleteOne (by_id (group m 1)))
    | None => Some Unsupported
    end
  else Some Unsupported.

End Eval.

End Xdmp.

(* ================================================================== *)
(** * The specification's own words, for comparison *)
(* ================================================================== *)

Module Spec.

(** [s.split(sep)] for a one-character separator. *)
Fixpoint split_char (sep : ascii) (s : string) : list string :=
  match s with
  | EmptyString => [EmptyString]
  | String c s' =>
      if Ascii.eqb c sep then EmptyString :: split_char sep s'
      else
        match split_char sep s' with
        | h :: t => String c h :: t
        | [] => [String c EmptyString]
        end
  end.

(** [sep.join(l)] *)
Fixpoint join (sep : string) (l : list string) : string :=
  match l with
  | [] => EmptyString
  | [x] => x
  | x :: l' => x ++ sep ++ join sep l'
  end.

(** The Path Resolver as section 4.4 words it: the prefix made of the
    context variable and a slash is stripped and the remaining segments,
    separated by slashes, are joined with dots; the bare context variable
    resolves to the reserved identifier field; no other shape is accepted
    ([None]). *)
Definition path_resolver (path context_var : string) : option string :=
  let var_slash := String "$" (context_var ++ "/") in
  if startswith path var_slash then
    Some (join "." (split_char "/" (drop (String.length var_slash) path)))
  else if String.eqb path (String "$" context_var) then
    Some "_id"
  else
    None.

(** The UpdateSpec invariant as section 3 words it: a replacement value
    that already contains a recognized modifier key is used verbatim, any
    other is wrapped under the [set] modifier.  The recognized modifier
    keys are the three the source names. *)
Definition modifier_names : list string := ["$set"; "$inc"; "$push"].

Definition has_modifier_key (v : pyval) : bool :=
  match v with
  | PDict items =>
      existsb (fun k => existsb (String.eqb k) modifier_names)
              (dict_keys items)
  | _ => false
  end.

Definition update_spec (literal : pyval) : pyval :=
  if has_modifier_key literal then literal else PDict [("$set", literal)].

(** [needle in s] *)
Fixpoint contains_text (needle s : string) : bool :=
  startswith s needle
  || match s with
     | EmptyString => false
     | String _ s' => contains_text needle s'
     end.

(** The text mentions a modifier: it contains the name of one between
    double quotes. *)
Definition mentions_modifier (text : string) : bool :=
  existsb (fun name => contains_text (Patterns.quoted name) text)
          modifier_names.

(** The words of a statement: the texts that white space separates. *)
Fixpoint words_from (s : string) : list string :=
  match s with
  | EmptyString => [EmptyString]
  | String c s' =>
      if is_space c then EmptyString :: words_from s'
      else
        match words_from s' with
        | h :: t => String c h :: t
        | [] => [String c EmptyString]
        end
  end.

Definition words (s : string) : list string :=
  filter (fun w => negb (is_empty w)) (words_from s).

(** The statement has the word [w], in whatever case its letters are:
    for [w] the word [where], it has a condition clause. *)
Definition has_word (w s : string) : bool :=
  existsb (fun t => String.eqb (lower t) w) (words s).

(** The fields that a result-shape clause references under the context
    variable: wherever the clause has the variable followed by a slash,
    the name that follows, a name being made of letters, digits and
    underscores. *)
Fixpoint take_while (p : ascii -> bool) (s : string) : string :=
  match s with
  | EmptyString => EmptyString
  | String c s' => if p c then String c (take_while p s') else EmptyString
  end.

Fixpoint field_references_from (prefix s : string) : list string :=
  match s with
  | EmptyString => []
  | String _ s' =>
      let rest := field_references_from prefix s' in
      if startswith s prefix then
        let name := take_while is_word (drop (String.length prefix) s) in
        if is_empty name then rest else name :: rest
      else rest
  end.

Definition field_references (context_var clause : string) : list string :=
  field_references_from (String "$" (context_var ++ "/")) clause.

(** The projection as section 4.2 words it: every referenced field is
    included (value 1); if at least one field is referenced, the
    identifier field is excluded (value 0) unless it is referenced too. *)
Definition projection (fields : list string) : dict pyval :=
  let included := fold_left (fun p f => dict_set f (PInt 1) p) fields [] in
  if is_nil fields || existsb (String.eqb "_id") fields then included
  else dict_set "_id" (PInt 0) included.

(** ** The string form of a float *)

(** A binary64 number that is not negative: [Finite m e] stands for
    [m * 2 ^ e], with [2 ^ 52 <= m < 2 ^ 53] and [-1074 <= e <= 971] for a
    normal number, [m < 2 ^ 52] and [e = -1074] for a subnormal one, and
    [m = 0], [e = 0] for zero. *)
Inductive float64 : Type :=
| Finite (m e : Z)
| Infinity.

Definition float64_eqb (x y : float64) : bool :=
  match x, y with
  | Finite m e, Finite m' e' => ((m =? m') && (e =? e'))%Z
  | Infinity, Infinity => true
  | _, _ => false
  end.

(** The integer nearest to [n / d], the even one of two that are equally
    near. *)
Definition round_half_even (n d : Z) : Z :=
  let k := (n / d)%Z in
  match (2 * (n mod d) ?= d)%Z with
  | Lt => k
  | Gt => (k + 1)%Z
  | Eq => if Z.even k then k else (k + 1)%Z
  end.

(** Numerator and denominator of [(a / b) / 2 ^ e]. *)
Definition scaled (a b e : Z) : Z * Z :=
  if (0 <=? e)%Z then (a, (b * 2 ^ e)%Z) else ((a * 2 ^ (- e))%Z, b).

(** The binary64 number nearest to [a / b], for [0 <= a] and [0 < b]:
    the conversion that [float] applies to a decimal literal. *)
Definition float_of_ratio (a b : Z) : float64 :=
  if (a =? 0)%Z then Finite 0 0
  else
    let e0 := (Z.log2 a - Z.log2 b - 52)%Z in
    let '(n0, d0) := scaled a b e0 in
    let e1 := if (n0 / d0 <? 2 ^ 52)%Z then (e0 - 1)%Z else e0 in
    let e := Z.max e1 (-1074) in
    let '(n, d) := scaled a b e in
    let m := round_half_even n d in
    if (m =? 0)%Z then Finite 0 0
    else
      let '(m, e) :=
        if (m =? 2 ^ 53)%Z then ((2 ^ 52)%Z, (e + 1)%Z) else (m, e) in
      if (971 <? e)%Z then Infinity else Finite m e.

(** [float(t)] for a literal [t] of digits, a point and digits. *)
Definition float_of_literal (t : string) : option float64 :=
  match split_char "." t with
  | [i; f] =>
      if isdigit i && isdigit f then
        Some (float_of_ratio (int_of_digits (i ++ f))
                             (10 ^ Z.of_nat (String.length f)))
      else None
  | _ => None
  end.

(** The decimal notation of an integer that is not negative. *)
Definition digits_of (z : Z) : string :=
  NilZero.string_of_uint (N.to_uint (Z.to_N z)).

Fixpoint zeros (n : nat) : string :=
  match n with
  | O => EmptyString
  | S n' => String "0" (zeros n')
  end.

(** The two notations of [repr]: for the digits [ds] and the position [p]
    of the decimal point, the number is [0.ds * 10 ^ p]. *)
Definition fixed_notation (ds : string) (p : Z) : string :=
  if (p <=? 0)%Z then "0." ++ zeros (Z.to_nat (- p)) ++ ds
  else if (Z.of_nat (String.length ds) <=? p)%Z then
    ds ++ zeros (Z.to_nat p - String.length ds) ++ ".0"
  else take (Z.to_nat p) ds ++ "." ++ drop (Z.to_nat p) ds.

Definition exponent_notation (ds : string) (p : Z) : string :=
  let e := (p - 1)%Z in
  let mantissa :=
    match ds with
    | String d (String d' ds') => String d (String "." (String d' ds'))
    | _ => ds
    end in
  let digits := digits_of (Z.abs e) in
  mantissa ++ "e" ++ (if (e <? 0)%Z then "-" else "+")
  ++ (if (String.length digits <? 2)%nat then "0" ++ digits else digits).

(** The position of the decimal point of [n / d], a positive number: the
    [p] with [10 ^ (p - 1) <= n / d < 10 ^ p]. *)
Fixpoint integer_digits (fuel : nat) (x : Z) : Z :=
  match fuel with
  | O => 0
  | S fuel' =>
      if (x <? 10)%Z then 1 else (1 + integer_digits fuel' (x / 10))%Z
  end.

Fixpoint leading_zeros (fuel : nat) (n d : Z) : Z :=
  match fuel with
  | O => 0
  | S fuel' =>
      if (d <=? 10 * n)%Z then 0
      else (1 + leading_zeros fuel' (10 * n) d)%Z
  end.

Definition point_position (n d : Z) : Z :=
  if (d <=? n)%Z then integer_digits 400 (n / d)
  else (- leading_zeros 400 n d)%Z.

(** A decimal number of [c] units of [10 ^ u] is a candidate for the
    string form of [v] when [float] reads it back as [v]. *)
Definition candidate (v : float64) (c u : Z) : option (string * Z) :=
  let text := digits_of c in
  let ds := rstrip_by (Ascii.eqb "0") text in
  let p := (u + Z.of_nat (String.length text))%Z in
  match float_of_literal (fixed_notation ds p) with
  | Some w => if float64_eqb w v then Some (ds, p) else None
  | None => None
  end.

(** The shortest digits that [float] reads back as [v = n / d], the
    nearest to [v] of those: the digits of [repr] (David Gay's algorithm,
    mode 0), searched from [k] digits upwards. *)
Fixpoint shortest (fuel : nat) (v : float64) (n d p k : Z)
  : option (string * Z) :=
  match fuel with
  | O => None
  | S fuel' =>
      let '(sn, sd) :=
        if (p <=? k)%Z then ((n * 10 ^ (k - p))%Z, d)
        else (n, (d * 10 ^ (p - k))%Z) in
      let lo := (sn / sd)%Z in
      match candidate v lo (p - k), candidate v (lo + 1) (p - k) with
      | Some below, Some above =>
          Some match (2 * (sn mod sd) ?= sd)%Z with
               | Lt => below
               | Gt => above
               | Eq => if Z.even lo then below else above
               end
      | Some below, None => Some below
      | None, Some above => Some above
      | None, None => shortest fuel' v n d p (k + 1)
      end
  end.

Definition float_digits (m e : Z) : option (string * Z) :=
  let '(n, d) := scaled m 1 (- e) in
  shortest 17 (Finite m e) n d (point_position n d) 1.

(** The number is written with an exponent when the decimal point of its
    digits is more than three places to their left or more than sixteen
    places to the right of their first one. *)
Definition with_exponent (p : Z) : bool := ((p <=? -4) || (16 <? p))%Z.

(** [str(v)], which is [repr(v)], of a float. *)
Definition float_str (v : float64) : option string :=
  match v with
  | Infinity => Some "inf"
  | Finite m e =>
      if float64_eqb v (Finite 0 0) then Some "0.0"
      else
        match float_digits m e with
        | Some (ds, p) =>
            Some (if with_exponent p then exponent_notation ds p
                  else fixed_notation ds p)
        | None => None
        end
  end.

(** The canonical string form of a resolved value: Python's [str(v)].
    The form of a [float] is that of the binary64 number its literal
    stands for.  The forms of lists and dictionaries, which the Value
    Resolver never returns, are left out. *)
Definition py_str (v : pyval) : option string :=
  match v with
  | PNone => Some "None"
  | PBool true => Some "True"
  | PBool false => Some "False"
  | PInt z => Some (NilZero.string_of_int (Z.to_int z))
  | PStr s => Some s
  | PFloat t =>
      match float_of_literal t with
      | Some v => float_str v
      | None => None
      end
  | PList _ | PDict _ => None
  end.



End Spec.

(* ================================================================== *)
(** * Notions that further properties of the code are stated with *)
(* ================================================================== *)

Module Notions.

(** ** Characters and texts *)

(** Every character, for the tests that range over the characters. *)
Definition all_ascii (f : ascii -> bool) : bool :=
  forallb (fun n => f (ascii_of_nat n)) (seq 0 256).

(** Some character of the text satisfies [p]. *)
Fixpoint any_char (p : ascii -> bool) (s : string) : bool :=
  match s with
  | EmptyString => false
  | String c s' => p c || any_char p s'
  end.

(** What [\w+] matches in full: a text, not empty, of letters, digits and
    underscores. *)
Definition is_identifier (s : string) : bool :=
  negb (is_empty s) && all_chars is_word s.

(** A value written without white space, dollar sign or parenthesis: a
    number, a keyword, a text between quotes. *)
Definition token_char (c : ascii) : bool :=
  negb (is_space c) && negb (Ascii.eqb c "$") && negb (mem_char c "()").

Definition is_token (s : string) : bool :=
  negb (is_empty s) && all_chars token_char s.

(** A character that is neither white space nor part of a path. *)
Definition symbol (c : ascii) : bool :=
  negb (is_space c) && negb (Ascii.eqb c "$") && negb (Ascii.eqb c "/")
  && negb (is_word c).

(** One of the words that [_parse_value] reads as a boolean or as the
    null value, in any case of the letters (lines 563 to 570). *)
Definition is_keyword (v : string) : bool :=
  existsb (String.eqb (lower v)) ["true"; "false"; "null"; "none"].

(** A character of a field name in a return clause (line 609). *)
Definition field_char (c : ascii) : bool :=
  negb (Ascii.eqb c "/") && negb (is_space c) && negb (Ascii.eqb c ",").

(** A quote, double or single. *)
Definition is_quote (c : ascii) : bool := Ascii.eqb c dq || Ascii.eqb c sq.

(** The end of a text, or the line feed that ends it: where [$] matches. *)
Definition line_end (tail : string) : Prop :=
  tail = EmptyString \/ tail = String newline EmptyString.

(** A name: not empty, and without quote. *)
Definition well_named (name : string) : Prop :=
  name <> EmptyString /\ mem_char dq name = false /\ mem_char sq name = false.

(** What remains of a text is empty or starts with white space. *)
Definition at_space (rest : string) : Prop :=
  match rest with
  | EmptyString => True
  | String c _ => is_space c = true
  end.

(** The head of what remains does not belong to the class [p]. *)
Definition stops (p : ascii -> bool) (rest : string) : Prop :=
  match rest with
  | EmptyString => True
  | String c _ => p c = false
  end.

(** ** Patterns *)

(** The characters a match of [r] can consume. *)
Fixpoint accepts (fl : flags) (r : regex) (c : ascii) : bool :=
  match r with
  | Chr d => chr_matches fl d c
  | Any => any_matches fl c
  | OneOf items => set_matches fl items c
  | NoneOf items => negb (set_matches fl items c)
  | Seq r1 r2 | Alt r1 r2 => accepts fl r1 c || accepts fl r2 c
  | Star r1 | StarLazy r1 | Group _ r1 => accepts fl r1 c
  | Eps | Bol | Eol | EndZ => false
  end.

(** Every match of [r] consumes a character that satisfies [p]. *)
Fixpoint needs (fl : flags) (p : ascii -> bool) (r : regex) : bool :=
  match r with
  | Chr _ | Any | OneOf _ | NoneOf _ =>
      all_ascii (fun c => implb (accepts fl r c) (p c))
  | Seq r1 r2 => needs fl p r1 || needs fl p r2
  | Alt r1 r2 => needs fl p r1 && needs fl p r2
  | Group _ r1 => needs fl p r1
  | Star _ | StarLazy _ | Eps | Bol | Eol | EndZ => false
  end.

(** A number of characters that every match of [r] consumes at least. *)
Fixpoint min_len (r : regex) : nat :=
  match r with
  | Chr _ | Any | OneOf _ | NoneOf _ => 1
  | Seq r1 r2 => min_len r1 + min_len r2
  | Alt r1 r2 => Nat.min (min_len r1) (min_len r2)
  | Group _ r1 => min_len r1
  | Star _ | StarLazy _ | Eps | Bol | Eol | EndZ => 0
  end.

(** The patterns between the parentheses of the groups numbered [n]. *)
Fixpoint group_bodies (n : nat) (r : regex) : list regex :=
  match r with
  | Seq r1 r2 | Alt r1 r2 => group_bodies n r1 ++ group_bodies n r2
  | Star r1 | StarLazy r1 => group_bodies n r1
  | Group m r1 =>
      if (n =? m)%nat then r1 :: group_bodies n r1 else group_bodies n r1
  | _ => []
  end.

(** The group [n] takes part in every match of [r]. *)
Fixpoint binds (n : nat) (r : regex) : bool :=
  match r with
  | Seq r1 r2 => binds n r1 || binds n r2
  | Alt r1 r2 => binds n r1 && binds n r2
  | Group m r1 => (n =? m)%nat || binds n r1
  | _ => false
  end.

(** The text that remains when [s] starts with the word [w], the
    characters being compared as the matcher compares them. *)
Fixpoint after_word (fl : flags) (w s : string) : option string :=
  match w, s with
  | EmptyString, _ => Some s
  | String d w', String c s' =>
      if chr_matches fl d c then after_word fl w' s' else None
  | String _ _, EmptyString => None
  end.

(** The state reached from [st] when the text [x] has been consumed and
    [rest] remains. *)
Definition advance (st : mstate) (x rest : string) : mstate :=
  MState (String.length x + ms_pos st) rest (ms_caps st).

(** A slash and a segment of a path: the part that the patterns of
    [_parse_single_condition] repeat after the variable. *)
Definition segment : regex :=
  Seq (Chr "/") (Plus (NoneOf [IChar "/"; ISpace])).

(** The two shapes of a comparison pattern of [_parse_single_condition]:
    [sp] is the white space around the comparator, optional for a
    symbolic comparator and required for a keyword. *)
Definition cond_shape (sp : regex) (o : string) : regex :=
  cat [Patterns.cond_path; sp; lit o; sp; Group 2 (Plus Any)].

(** ** Conditions *)

(** The comparators that [_parse_single_condition] is written for, with
    what each makes of the value; the symbolic [>=] and [<=] are left out
    (they go the way of C5). *)
Definition comparators : list (string * (pyval -> pyval)) :=
  [("=", fun v => v); ("eq", fun v => v);
   ("!=", operator "$ne"); ("ne", operator "$ne");
   (">", operator "$gt"); ("gt", operator "$gt"); ("ge", operator "$gte");
   ("<", operator "$lt"); ("lt", operator "$lt"); ("le", operator "$lte")].

(** ** Elements *)

(** What [_xml_to_json] keeps of the children with one tag: nothing when
    there is none, the child when there is one, the list of them when
    there are several. *)
Definition collect (values : list pyval) : option pyval :=
  match values with
  | [] => None
  | [v] => Some v
  | _ => Some (PList values)
  end.

Definition children_with (t : string) (children : list element)
  : list element :=
  filter (fun c => String.eqb (tag_of c) t) children.

Definition not_list (v : pyval) : Prop := forall l, v <> PList l.

(** The dictionary of the attributes (lines 103 and 104). *)
Definition attributes (attrib : list (string * string)) : dict pyval :=
  fold_left (fun r kv => dict_set (String "@" (fst kv)) (PStr (snd kv)) r)
            attrib [].

(** The dictionary of the attributes and the children (lines 103 to
    118). *)
Definition members (attrib : list (string * string))
           (children : list element) : dict pyval :=
  fold_left (fun r child => add_child r (fst child) (snd child))
            (map (fun c => (tag_of c, _xml_to_json c)) children)
            (attributes attrib).

(** ** Statements of [xquery_to_mongo.py] *)

(** A document key: a text, not empty, without double quote and without
    line feed. *)
Definition key_char (c : ascii) : bool :=
  negb (Ascii.eqb c dq) && negb (Ascii.eqb c newline).

Definition is_key (key : string) : bool :=
  negb (is_empty key) && all_chars key_char key.

(** The statement made of a function name with its opening parenthesis
    and of a key between double quotes. *)
Definition call_with_key (name key : string) : string :=
  name ++ String dq (key ++ String dq ")").

(** The places of a text [name] where an occurrence of [w] could start
    that lies in [name] or goes on after it. *)
Fixpoint starts_in (w name : string) : bool :=
  match name with
  | EmptyString => false
  | String _ name' =>
      startswith name w || startswith w name || starts_in w name'
  end.


End Notions.

Export Notions.

(* ================================================================== *)
(** * Facts about strings *)
(* ================================================================== *)

Section StringFacts.

Variable p : ascii -> bool.

Lemma rstrip_by_keep (c : ascii) (r : string) :
  p c = false -> rstrip_by p (String c r) = String c (rstrip_by p r).
Proof. intros H. simpl. rewrite H, andb_false_r. reflexivity. Qed.

Lemma lstrip_by_head (s : string) :
  lstrip_by p s = EmptyString
  \/ exists c r, lstrip_by p s = String c r /\ p c = false.
Proof.
  induction s as [|c s IH]; simpl; [left; reflexivity|].
  destruct (p c) eqn:E; [exact IH|].
  right. exists c, s. split; [reflexivity|exact E].
Qed.

Lemma rstrip_by_idempotent (s : string) :
  rstrip_by p (rstrip_by p s) = rstrip_by p s.
Proof.
  induction s as [|c s IH]; simpl; [reflexivity|].
  destruct (is_empty (rstrip_by p s) && p c) eqn:E; [reflexivity|].
  simpl. rewrite IH, E. reflexivity.
Qed.

Lemma strip_by_idempotent (s : string) :
  strip_by p (strip_by p s) = strip_by p s.
Proof.
  unfold strip_by.
  destruct (lstrip_by_head s) as [E|(c & r & E & Hc)]; rewrite E.
  - reflexivity.
  - rewrite (rstrip_by_keep r Hc). simpl lstrip_by. rewrite Hc.
    rewrite <- (rstrip_by_keep r Hc). apply rstrip_by_idempotent.
Qed.

Lemma rstrip_by_none (s : string) :
  all_chars (fun c => negb (p c)) s = true -> rstrip_by p s = s.
Proof.
  induction s as [|c s IH]; simpl; [reflexivity|].
  intros H. apply andb_true_iff in H. destruct H as [Hc Hs].
  apply negb_true_iff in Hc. rewrite Hc, andb_false_r, (IH Hs). reflexivity.
Qed.

Lemma strip_by_none (s : string) :
  all_chars (fun c => negb (p c)) s = true -> strip_by p s = s.
Proof.
  intros H. unfold strip_by.
  assert (E : lstrip_by p s = s).
  { destruct s as [|c s]; [reflexivity|]. simpl in *.
    apply andb_true_iff in H. destruct H as [Hc _].
    apply negb_true_iff in Hc. rewrite Hc. reflexivity. }
  rewrite E. apply rstrip_by_none, H.
Qed.

End StringFacts.

Lemma all_chars_impl (p r : ascii -> bool) (s : string) :
  (forall c, p c = true -> r c = true) ->
  all_chars p s = true -> all_chars r s = true.
Proof.
  intros Himp. induction s as [|c s IH]; simpl; [reflexivity|].
  intros H. apply andb_true_iff in H. destruct H as [Hc Hs].
  rewrite (Himp c Hc), (IH Hs). reflexivity.
Qed.




Lemma strip_idempotent (s : string) : strip (strip s) = strip s.
Proof. apply strip_by_idempotent. Qed.





Lemma startswith_nil (s : string) : startswith s EmptyString = true.
Proof. destruct s; reflexivity. Qed.



(* ================================================================== *)
(** * Facts about decimal notation *)
(* ================================================================== *)





Lemma int_acc_nonneg (s : string) (acc : Z) :
  (0 <= acc)%Z -> (0 <= int_acc acc s)%Z.
Proof.
  revert acc. induction s as [|c s IH]; intros acc H; cbn [int_acc];
    [exact H|].
  apply IH. unfold digit_val.
  pose proof (Nat2Z.is_nonneg (code c - 48)). lia.
Qed.


(* ================================================================== *)
(** * Facts about dictionaries *)
(* ================================================================== *)

Section DictFacts.

Variable V : Type.

Lemma dict_get_set_same (k : string) (v : V) (d : dict V) :
  dict_get k (dict_set k v d) = Some v.
Proof.
  induction d as [|[k' v'] d IH]; simpl.
  - rewrite String.eqb_refl. reflexivity.
  - destruct (String.eqb k k') eqn:E; simpl; rewrite E; [reflexivity|exact IH].
Qed.

Lemma dict_get_set_other (k k' : string) (v : V) (d : dict V) :
  k <> k' -> dict_get k (dict_set k' v d) = dict_get k d.
Proof.
  intros Hne. apply String.eqb_neq in Hne.
  induction d as [|[k0 v0] d IH]; simpl.
  - rewrite Hne. reflexivity.
  - destruct (String.eqb k' k0) eqn:E; simpl.
    + apply String.eqb_eq in E. subst k0. rewrite Hne. reflexivity.
    + rewrite IH. reflexivity.
Qed.

Lemma dict_mem_get (k : string) (d : dict V) :
  dict_mem k d = true <-> exists v, dict_get k d = Some v.
Proof.
  unfold dict_mem. destruct (dict_get k d) as [v|]; split.
  - intros _. exists v. reflexivity.
  - reflexivity.
  - discriminate.
  - intros [v Hv]. discriminate.
Qed.

(** Setting every key of a list to one value: the other keys keep their
    values, the keys of the list all get the value. *)
Lemma fold_set_other (v : V) (keys : list string) (k : string) (d : dict V) :
  ~ List.In k keys ->
  dict_get k (fold_left (fun acc f => dict_set f v acc) keys d) = dict_get k d.
Proof.
  revert d. induction keys as [|f keys IH]; intros d Hk; [reflexivity|].
  simpl. rewrite IH by (intros H; apply Hk; right; exact H).
  apply dict_get_set_other. intros ->. apply Hk. left. reflexivity.
Qed.

Lemma fold_set_in (v : V) (keys : list string) (k : string) (d : dict V) :
  List.In k keys ->
  dict_get k (fold_left (fun acc f => dict_set f v acc) keys d) = Some v.
Proof.
  revert d. induction keys as [|f keys IH]; intros d Hin; [contradiction|].
  simpl. destruct (in_dec string_dec k keys) as [Hk|Hk].
  - apply IH. exact Hk.
  - destruct Hin as [->|Hin]; [|contradiction].
    rewrite fold_set_other by exact Hk. apply dict_get_set_same.
Qed.

End DictFacts.

(* ================================================================== *)
(** * Facts about the matcher *)
(* ================================================================== *)

Section RegexFacts.

Variable fl : flags.

(** A match moves the position forward by what it consumes. *)
Lemma Matches_cursor (r : regex) (st st' : mstate) :
  Matches fl r st st' ->
  ms_pos st' + String.length (ms_rest st')
  = ms_pos st + String.length (ms_rest st).
Proof.
  induction 1; simpl in *; try lia;
    try (rewrite H; simpl; lia).
Qed.

Section Sound.

Variable R : Type.

Lemma one_sound (p : ascii -> bool) (st : mstate) (k : mstate -> option R)
      (x : R) :
  Re.one p st k = Some x ->
  exists c rest, ms_rest st = String c rest /\ p c = true
                 /\ k (step st rest) = Some x.
Proof.
  unfold Re.one. destruct (ms_rest st) as [|c rest]; [discriminate|].
  destruct (p c) eqn:E; [|discriminate].
  intros H. exists c, rest. auto.
Qed.

Lemma greedy_sound (r : regex)
      (body : mstate -> (mstate -> option R) -> option R) :
  sound_body fl r body ->
  forall n st k x,
    greedy body k n st = Some x ->
    exists st', Matches fl (Star r) st st' /\ k st' = Some x.
Proof.
  intros Hb n. induction n as [|n IH]; intros st k x H; simpl in H.
  - exists st. split; [constructor|exact H].
  - destruct (body st _) as [y|] eqn:E.
    + injection H as ->. apply Hb in E. destruct E as (st1 & Hm & Hk).
      destruct (ms_pos st <? ms_pos st1)%nat eqn:Hlt; [|discriminate].
      apply IH in Hk. destruct Hk as (st2 & Hm2 & Hk2).
      exists st2. split; [|exact Hk2].
      eapply MStarMore; eauto. apply Nat.ltb_lt, Hlt.
    + exists st. split; [constructor|exact H].
Qed.

Lemma lazy_sound (r : regex)
      (body : mstate -> (mstate -> option R) -> option R) :
  sound_body fl r body ->
  forall n st k x,
    lazy body k n st = Some x ->
    exists st', Matches fl (StarLazy r) st st' /\ k st' = Some x.
Proof.
  intros Hb n. induction n as [|n IH]; intros st k x H; simpl in H.
  - exists st. split; [constructor|exact H].
  - destruct (k st) as [y|] eqn:E.
    + injection H as ->. exists st. split; [constructor|exact E].
    + apply Hb in H. destruct H as (st1 & Hm & Hk).
      destruct (ms_pos st <? ms_pos st1)%nat eqn:Hlt; [|discriminate].
      apply IH in Hk. destruct Hk as (st2 & Hm2 & Hk2).
      exists st2. split; [|exact Hk2].
      eapply MLazyMore; eauto. apply Nat.ltb_lt, Hlt.
Qed.

(** Whatever the matcher finds is a match. *)
Lemma run_sound (r : regex) : sound_body fl r (run fl (R:=R) r).
Proof.
  induction r; intros st k x H; simpl in H.
  - exists st. split; [constructor|exact H].
  - apply one_sound in H. destruct H as (a & rest & Hr & Hp & Hk).
    exists (step st rest). split; [econstructor; eauto|exact Hk].
  - apply one_sound in H. destruct H as (a & rest & Hr & Hp & Hk).
    exists (step st rest). split; [econstructor; eauto|exact Hk].
  - apply one_sound in H. destruct H as (a & rest & Hr & Hp & Hk).
    exists (step st rest). split; [econstructor; eauto|exact Hk].
  - apply one_sound in H. destruct H as (a & rest & Hr & Hp & Hk).
    exists (step st rest). split; [|exact Hk].
    econstructor; eauto. apply negb_true_iff, Hp.
  - apply IHr1 in H. destruct H as (st1 & H1 & H).
    apply IHr2 in H. destruct H as (st2 & H2 & H).
    exists st2. split; [econstructor; eauto|exact H].
  - destruct (run fl r1 st k) as [y|] eqn:E.
    + injection H as ->. apply IHr1 in E. destruct E as (st' & Hm & Hk).
      exists st'. split; [apply MAltL, Hm|exact Hk].
    + apply IHr2 in H. destruct H as (st' & Hm & Hk).
      exists st'. split; [apply MAltR, Hm|exact Hk].
  - eapply greedy_sound; eauto.
  - eapply lazy_sound; eauto.
  - apply IHr in H. destruct H as (st' & Hm & Hk).
    exists (capture n st st'). split; [constructor; exact Hm|exact Hk].
  - destruct (ms_pos st =? 0)%nat eqn:E; [|discriminate].
    exists st. split; [constructor; apply Nat.eqb_eq, E|exact H].
  - destruct (ms_rest st) as [|c [|d rest]] eqn:E; [| |discriminate].
    + exists st. split; [apply MEolEnd, E|exact H].
    + destruct (Ascii.eqb_spec c newline) as [->|]; [|discriminate].
      exists st. split; [apply MEolNewline, E|exact H].
  - destruct (is_empty (ms_rest st)) eqn:E; [|discriminate].
    exists st. split; [|exact H]. apply MEndZ.
    destruct (ms_rest st); [reflexivity|discriminate].
Qed.

(** Every match is found, unless the matcher stops at one of higher
    priority that the continuation accepts as well. *)
Lemma one_complete (p : ascii -> bool) (st : mstate) (k : mstate -> option R)
      c rest x :
  ms_rest st = String c rest -> p c = true -> k (step st rest) = Some x ->
  Re.one p st k = Some x.
Proof. intros Hr Hp Hk. unfold Re.one. rewrite Hr, Hp. exact Hk. Qed.

Lemma run_complete (r : regex) (st st' : mstate) :
  Matches fl r st st' ->
  forall (k : mstate -> option R) (x : R),
    k st' = Some x ->
    (exists y, run fl r st k = Some y)
    /\ (forall r1 n, r = Star r1 -> String.length (ms_rest st) <= n ->
                     exists y, greedy (run fl r1) k n st = Some y)
    /\ (forall r1 n, r = StarLazy r1 -> String.length (ms_rest st) <= n ->
                     exists y, lazy (run fl r1) k n st = Some y).
Proof.
  induction 1; intros k x Hk.
  - split; [exists x; exact Hk|split; discriminate].
  - split; [|split; discriminate]. exists x. simpl.
    eapply one_complete; eauto.
  - split; [|split; discriminate]. exists x. simpl.
    eapply one_complete; eauto.
  - split; [|split; discriminate]. exists x. simpl.
    eapply one_complete; eauto.
  - split; [|split; discriminate]. exists x. simpl.
    eapply one_complete; eauto. rewrite H0. reflexivity.
  - split; [|split; discriminate]. simpl.
    destruct (IHMatches2 k x Hk) as ((y & Hy) & _).
    destruct (IHMatches1 (fun st' => run fl r2 st' k) y Hy) as (Hz & _).
    exact Hz.
  - split; [|split; discriminate]. simpl.
    destruct (IHMatches k x Hk) as ((y & Hy) & _).
    rewrite Hy. exists y. reflexivity.
  - split; [|split; discriminate]. simpl.
    destruct (run fl r1 st k) as [y|]; [exists y; reflexivity|].
    destruct (IHMatches k x Hk) as (Hy & _). exact Hy.
  - assert (Hg : forall n, exists y, greedy (run fl r) k n st = Some y).
    { intros [|n]; simpl; [exists x; exact Hk|].
      destruct (run fl r st _) as [y|]; [exists y|exists x]; auto. }
    split; [apply Hg|split; [|discriminate]].
    intros r1 n E _. injection E as <-. apply Hg.
  - assert (Hg : forall n, String.length (ms_rest st) <= n ->
                           exists y, greedy (run fl r) k n st = Some y).
    { intros n Hn.
      pose proof (Matches_cursor H) as Hc.
      destruct n as [|n]; [lia|]. simpl.
      destruct (IHMatches2 k x Hk) as (_ & Hg2 & _).
      destruct (Hg2 r n eq_refl) as (y & Hy); [lia|].
      destruct (IHMatches1
                  (fun st' => if (ms_pos st <? ms_pos st')%nat
                              then greedy (run fl r) k n st' else None) y)
        as ((z & Hz) & _).
      - apply Nat.ltb_lt in H0. rewrite H0. exact Hy.
      - rewrite Hz. exists z. reflexivity. }
    split; [apply Hg; lia|split; [|discriminate]].
    intros r1 n E Hn. injection E as <-. apply Hg, Hn.
  - assert (Hg : forall n, exists y, lazy (run fl r) k n st = Some y).
    { intros [|n]; simpl; [exists x; exact Hk|].
      rewrite Hk. exists x. reflexivity. }
    split; [apply Hg|split; [discriminate|]].
    intros r1 n E _. injection E as <-. apply Hg.
  - assert (Hg : forall n, String.length (ms_rest st) <= n ->
                           exists y, lazy (run fl r) k n st = Some y).
    { intros n Hn.
      pose proof (Matches_cursor H) as Hc.
      destruct n as [|n]; [lia|]. simpl.
      destruct (k st) as [y0|]; [exists y0; reflexivity|].
      destruct (IHMatches2 k x Hk) as (_ & _ & Hg2).
      destruct (Hg2 r n eq_refl) as (y & Hy); [lia|].
      destruct (IHMatches1
                  (fun st' => if (ms_pos st <? ms_pos st')%nat
                              then lazy (run fl r) k n st' else None) y)
        as (Hz & _).
      - apply Nat.ltb_lt in H0. rewrite H0. exact Hy.
      - exact Hz. }
    split; [apply Hg; lia|split; [discriminate|]].
    intros r1 n E Hn. injection E as <-. apply Hg, Hn.
  - split; [|split; discriminate]. simpl.
    destruct (IHMatches (fun st' => k (capture n st st')) x Hk) as (Hy & _).
    exact Hy.
  - split; [|split; discriminate]. simpl. rewrite H. exists x. exact Hk.
  - split; [|split; discriminate]. simpl. rewrite H. exists x. exact Hk.
  - split; [|split; discriminate]. simpl. rewrite H.
    rewrite Ascii.eqb_refl. exists x. exact Hk.
  - split; [|split; discriminate]. simpl. rewrite H. exists x. exact Hk.
Qed.

End Sound.

(** [match_at] succeeds exactly where the pattern has a match. *)
Lemma match_at_sound (r : regex) (pos : nat) (s : string) (m : rmatch) :
  match_at fl r pos s = Some m ->
  exists st', Matches fl r (MState pos s []) st'.
Proof.
  unfold match_at. intros H. apply run_sound in H.
  destruct H as (st' & Hm & _). exists st'. exact Hm.
Qed.

Lemma match_at_complete (r : regex) (pos : nat) (s : string) (st' : mstate) :
  Matches fl r (MState pos s []) st' ->
  exists m, match_at fl r pos s = Some m.
Proof.
  intros H. unfold match_at.
  destruct (run_complete H
              (fun st => Some (RMatch pos (ms_pos st) (ms_caps st)))
              eq_refl) as (Hy & _).
  exact Hy.
Qed.

End RegexFacts.

(** If wherever [a] matches [b] matches too, then [b] is found in every
    text in which [a] is found. *)
Lemma search_from_transfer (fl : flags) (a b : regex) :
  (forall pos s st, Matches fl a (MState pos s []) st ->
                    exists st', Matches fl b (MState pos s []) st') ->
  forall s pos m, search_from fl a pos s = Some m ->
                  exists m', search_from fl b pos s = Some m'.
Proof.
  intros Hab s. induction s as [|c s IH]; intros pos m H; simpl in *.
  - destruct (match_at fl a pos EmptyString) as [m0|] eqn:E; [|discriminate].
    apply match_at_sound in E. destruct E as (st & Hst).
    apply Hab in Hst. destruct Hst as (st' & Hst').
    apply match_at_complete in Hst'. destruct Hst' as (m' & ->).
    exists m'. reflexivity.
  - destruct (match_at fl b pos (String c s)) as [mb|] eqn:Eb;
      [exists mb; reflexivity|].
    destruct (match_at fl a pos (String c s)) as [m0|] eqn:E.
    + apply match_at_sound in E. destruct E as (st & Hst).
      apply Hab in Hst. destruct Hst as (st' & Hst').
      apply match_at_complete in Hst'. destruct Hst' as (m' & Hm').
      congruence.
    + eapply IH. exact H.
Qed.

Ltac inv H := inversion H; subst; clear H.

Lemma chr_matches_exact (d c : ascii) :
  chr_matches no_flags d c = Ascii.eqb c d.
Proof. unfold chr_matches. simpl. apply orb_false_r. Qed.

(** A literal matches where the text starts with it. *)
Lemma lit_matches (w : string) (st : mstate) :
  (exists st', Matches no_flags (lit w) st st')
  <-> startswith (ms_rest st) w = true.
Proof.
  revert st. induction w as [|c w IH]; intros st.
  - simpl. split; [intros _; apply startswith_nil|].
    intros _. exists st. constructor.
  - assert (Hc : (exists st1, Matches no_flags (Chr c) st st1
                              /\ startswith (ms_rest st1) w = true)
                 <-> startswith (ms_rest st) (String c w) = true).
    { split.
      - intros (st1 & H & Hw). inv H.
        match goal with
        | Hr : ms_rest st = _, Hm : chr_matches _ _ _ = true |- _ =>
            rewrite Hr; rewrite chr_matches_exact in Hm;
            apply Ascii.eqb_eq in Hm; subst
        end.
        simpl. rewrite Ascii.eqb_refl. exact Hw.
      - intros H. destruct (ms_rest st) as [|a rest] eqn:E;
          [discriminate|]. simpl in H.
        apply andb_true_iff in H. destruct H as [Ha Hw].
        apply Ascii.eqb_eq in Ha. subst a.
        exists (step st rest). split; [|exact Hw].
        econstructor; [exact E|]. rewrite chr_matches_exact.
        apply Ascii.eqb_refl. }
    rewrite <- Hc. destruct w as [|d w].
    + simpl. split.
      * intros (st' & H). exists st'. split; [exact H|apply startswith_nil].
      * intros (st1 & H & _). exists st1. exact H.
    + change (lit (String c (String d w)))
        with (Seq (Chr c) (lit (String d w))).
      split.
      * intros (st' & H). inv H.
        match goal with
        | H1 : Matches _ (Chr c) st ?x, H2 : Matches _ _ ?x st' |- _ =>
            exists x; split; [exact H1|apply IH; exists st'; exact H2]
        end.
      * intros (st1 & H & Hw). apply IH in Hw. destruct Hw as (st' & Hw).
        exists st'. econstructor; eauto.
Qed.

Lemma found_search_from (fl : flags) (r : regex) (P : string -> bool) :
  (forall pos s, (exists st', Matches fl r (MState pos s []) st')
                 <-> P s = true) ->
  forall s pos,
    found (search_from fl r pos s)
    = (fix scan (s : string) : bool :=
         P s || match s with
                | EmptyString => false
                | String _ s' => scan s'
                end) s.
Proof.
  intros HP s. induction s as [|c s IH]; intros pos; simpl.
  - destruct (match_at fl r pos EmptyString) as [m|] eqn:E.
    + apply match_at_sound in E. apply HP in E. rewrite E. reflexivity.
    + destruct (P EmptyString) eqn:EP; [|reflexivity].
      apply HP with (pos := pos) in EP. destruct EP as (st' & Hst).
      apply match_at_complete in Hst. destruct Hst as (m & Hm). congruence.
  - destruct (match_at fl r pos (String c s)) as [m|] eqn:E.
    + apply match_at_sound in E. apply HP in E. rewrite E. reflexivity.
    + destruct (P (String c s)) eqn:EP.
      * apply HP with (pos := pos) in EP. destruct EP as (st' & Hst).
        apply match_at_complete in Hst. destruct Hst as (m & Hm). congruence.
      * simpl. apply IH.
Qed.

Lemma mem_char_app (c : ascii) (pre s : string) :
  mem_char c s = true -> mem_char c (pre ++ s) = true.
Proof.
  intros H. induction pre as [|d pre IH]; simpl; [exact H|].
  rewrite IH. apply orb_true_r.
Qed.

(** What remains after a match is the end of what remained before. *)
Lemma Matches_suffix (fl : flags) (r : regex) (st st' : mstate) :
  Matches fl r st st' -> exists pre, ms_rest st = pre ++ ms_rest st'.
Proof.
  induction 1;
    try (exists EmptyString; reflexivity);
    try (exists (String c EmptyString); simpl; assumption);
    try assumption.
  - destruct IHMatches1 as (p1 & E1). destruct IHMatches2 as (p2 & E2).
    exists (p1 ++ p2). rewrite E1, E2.
    clear. induction p1; simpl; [reflexivity|]. rewrite IHp1. reflexivity.
  - destruct IHMatches1 as (p1 & E1). destruct IHMatches2 as (p2 & E2).
    exists (p1 ++ p2). rewrite E1, E2.
    clear. induction p1; simpl; [reflexivity|]. rewrite IHp1. reflexivity.
  - destruct IHMatches1 as (p1 & E1). destruct IHMatches2 as (p2 & E2).
    exists (p1 ++ p2). rewrite E1, E2.
    clear. induction p1; simpl; [reflexivity|]. rewrite IHp1. reflexivity.
Qed.

(** A pattern that ends with a literal character matches only in a text
    that holds the character. *)
Lemma cat_last_char (c : ascii) (rs : list regex) (r : regex)
      (st st' : mstate) :
  Matches no_flags (cat (r :: rs ++ [Chr c])%list) st st' ->
  mem_char c (ms_rest st) = true.
Proof.
  revert r st. induction rs as [|r2 rs IH]; intros r st H.
  - simpl in H. inv H.
    match goal with H : Matches _ (Chr c) _ _ |- _ => inv H end.
    match goal with H : Matches _ r _ _ |- _ =>
      apply Matches_suffix in H; destruct H as (pre & E) end.
    rewrite E. apply mem_char_app.
    match goal with
    | Hr : ms_rest _ = String _ _, Hm : chr_matches _ _ _ = true |- _ =>
        rewrite Hr; rewrite chr_matches_exact in Hm;
        apply Ascii.eqb_eq in Hm; subst
    end.
    simpl. rewrite Ascii.eqb_refl. reflexivity.
  - change (cat (r :: (r2 :: rs) ++ [Chr c])%list)
      with (Seq r (cat (r2 :: rs ++ [Chr c])%list)) in H.
    inv H.
    match goal with H : Matches _ r _ _ |- _ =>
      apply Matches_suffix in H; destruct H as (pre & E) end.
    rewrite E. apply mem_char_app. eapply IH. eassumption.
Qed.

(** Where [search] finds a pattern that matches only in texts with a
    property kept by longer texts, the text searched has the property. *)
Lemma found_search_implies (fl : flags) (r : regex) (P : string -> bool) :
  (forall pos s st', Matches fl r (MState pos s []) st' -> P s = true) ->
  (forall c s, P s = true -> P (String c s) = true) ->
  forall s pos, found (search_from fl r pos s) = true -> P s = true.
Proof.
  intros HP Hext s. induction s as [|c s IH]; intros pos H; simpl in H.
  - destruct (match_at fl r pos EmptyString) eqn:E; [|discriminate].
    apply match_at_sound in E. destruct E as (st' & Hst). eapply HP; eauto.
  - destruct (match_at fl r pos (String c s)) eqn:E.
    + apply match_at_sound in E. destruct E as (st' & Hst). eapply HP; eauto.
    + apply Hext. eapply IH. exact H.
Qed.

Lemma ends_with_char_needs_char (c : ascii) (rs : list regex) (r : regex)
      (s : string) :
  mem_char c s = false ->
  search no_flags (cat (r :: rs ++ [Chr c])%list) s = None.
Proof.
  intros Hc. unfold search.
  destruct (search_from no_flags (cat (r :: rs ++ [Chr c])%list) 0 s)
    as [m|] eqn:E; [|reflexivity].
  assert (H : mem_char c s = true).
  { apply (@found_search_implies no_flags (cat (r :: rs ++ [Chr c])%list)
             (mem_char c)) with (pos := 0).
    - intros pos t st' Hm. apply cat_last_char in Hm. exact Hm.
    - intros d t Ht. simpl. rewrite Ht. apply orb_true_r.
    - rewrite E. reflexivity. }
  congruence.
Qed.

(* ================================================================== *)
(** * The scenarios of the specification *)
(* ================================================================== *)

Section Scenarios.

Variable fs : string -> option element.

(** The outcome of a statement on a converter just constructed. *)
Let translate (s : string) : result operation :=
  fst (parse_xquery fs s []).

Example scenario_1 :
  translate (q "insert node {`name`:`John`,`age`:30} into collection(`users`)")
  = ok (InsertOne "users" (PDict [("name", PStr "John"); ("age", PInt 30)])).
Proof. vm_compute; reflexivity. Qed.

Example scenario_2 :
  translate (q "db.collection(`users`).find({`age`: 18})")
  = ok (Find "users" (PDict [("age", PInt 18)]) None None).
Proof. vm_compute; reflexivity. Qed.

Example scenario_3 :
  translate (q ("for $u in collection(`users`) where $u/age > 18 "
                ++ "order by $u/name descending return $u/name"))
  = ok (Find "users" (PDict [("age", PDict [("$gt", PInt 18)])])
             (Some (PDict [("name", PInt (-1))]))
             (Some (PDict [("name", PInt 1); ("_id", PInt 0)]))).
Proof. vm_compute; reflexivity. Qed.

Example scenario_4 :
  translate
    (q "db.collection(`users`).update({`a`: 1}, {`$set`: {`b`: 2}})")
  = ok (UpdateMany "users" (PDict [("a", PInt 1)])
                   (PDict [("$set", PDict [("b", PInt 2)])])).
Proof. vm_compute; reflexivity. Qed.

Example scenario_5 :
  translate (q "delete node $u where $u/age eq 18 in collection(`users`)")
  = ok (DeleteMany "users" (PDict [("age", PInt 18)])).
Proof. vm_compute; reflexivity. Qed.

Example scenario_6 :
  translate "SELECT name FROM users"
  = raise "Unsupported XQuery CRUD syntax: SELECT name FROM users".
Proof. vm_compute; reflexivity. Qed.

End Scenarios.

(* ================================================================== *)
(** * C1: the filter of a condition clause *)
(* ================================================================== *)

Section WhereClause.

Variable context_var : string.

(** A fragment that parses yields one entry. *)
Lemma single_condition_one_entry (condition : string) (d : dict pyval) :
  _parse_single_condition condition context_var = ok d ->
  exists e, d = [e].
Proof.
  unfold _parse_single_condition, comparison, existence, string_call.
  intros H.
  repeat match type of H with
         | match ?x with _ => _ end = _ => destruct x
         end;
    try discriminate; injection H as <-; eexists; reflexivity.
Qed.

(** Setting a key that is not there appends it. *)
Lemma dict_set_fresh (V : Type) (k : string) (v : V) (d : dict V) :
  ~ List.In k (dict_keys d) -> dict_set k v d = (d ++ [(k, v)])%list.
Proof.
  induction d as [|[k' v'] d IH]; simpl; intros H; [reflexivity|].
  destruct (String.eqb_spec k k') as [->|_].
  - exfalso. apply H. left. reflexivity.
  - rewrite IH; [reflexivity|]. intros Hin. apply H. right. exact Hin.
Qed.

(** The fragments of a clause that parse to entries with pairwise distinct
    field paths give the filter made of these entries, one key for each
    fragment. *)
Lemma merge_conditions_distinct (fragments : list string)
      (entries query : dict pyval) :
  Forall2 (fun fragment e =>
             _parse_single_condition fragment context_var = ok [e])
          fragments entries ->
  NoDup (dict_keys (query ++ entries)%list) ->
  merge_conditions fragments context_var query
  = ok (query ++ entries)%list.
Proof.
  intros H. revert query.
  induction H as [|fragment e fragments entries He _ IH];
    intros query Hnd; simpl.
  - rewrite app_nil_r. reflexivity.
  - rewrite He. simpl. unfold dict_update. simpl.
    destruct e as [k v]. simpl in *.
    rewrite dict_set_fresh.
    + rewrite IH; rewrite <- app_assoc; [reflexivity|exact Hnd].
    + unfold dict_keys in *. rewrite map_app in Hnd. simpl in Hnd.
      apply NoDup_remove_2 in Hnd. intros Hin. apply Hnd.
      apply in_or_app. left. exact Hin.
Qed.

Lemma where_clause_distinct_paths (where_clause : string)
      (entries : dict pyval) :
  Forall2 (fun fragment e =>
             _parse_single_condition fragment context_var = ok [e])
          (split IGNORECASE conjunction where_clause) entries ->
  NoDup (dict_keys entries) ->
  _parse_where_clause where_clause context_var = ok (PDict entries)
  /\ List.length entries
     = List.length (split IGNORECASE conjunction where_clause).
Proof.
  intros H Hnd. split.
  - unfold _parse_where_clause.
    rewrite (@merge_conditions_distinct _ entries [] H Hnd). reflexivity.
  - symmetry. eapply Forall2_length. exact H.
Qed.

End WhereClause.

(** The Value Resolver returns no dictionary. *)
Lemma parse_value_not_dict (s : string) (items : dict pyval) :
  _parse_value s <> PDict items.
Proof.
  unfold _parse_value.
  repeat match goal with
         | |- (if ?b then _ else _) <> _ => destruct b
         end; discriminate.
Qed.

(** A fragment that holds no closing parenthesis once the parentheses at
    its ends are stripped is refused, unless it is a comparison: the
    patterns of the three string functions and of the two existence tests
    all end with a closing parenthesis. *)
Lemma call_shapes_need_closing_parenthesis (condition context_var : string)
      (entry : dict pyval) :
  mem_char ")" (strip_chars "()" condition) = false ->
  _parse_single_condition condition context_var = ok entry ->
  exists field v, entry = [(field, v)]
    /\ forall items, v = PDict items ->
         exists op w, items = [(op, w)]
           /\ List.In op ["$ne"; "$gt"; "$gte"; "$lt"; "$lte"].
Proof.
  intros Hc H. unfold _parse_single_condition in H.
  set (c := strip_chars "()" condition) in *.
  repeat match type of H with
         | match search_or ?fl ?a ?b c with _ => _ end = _ =>
             destruct (search_or fl a b c)
         end;
    try (unfold comparison in H; injection H as <-; eexists; eexists;
         split; [reflexivity|]; intros items Hi;
         first [ exfalso; exact (parse_value_not_dict _ Hi)
               | unfold operator in Hi; injection Hi as <-;
                 eexists; eexists; split; [reflexivity|];
                 simpl; tauto ]).
  pose (call := [Star space; Chr "("; Star space; Patterns.call_path;
                 Star space; Chr ","; Star space; Group 2 (PlusLazy Any);
                 Star space]).
  assert (E1 : search no_flags (Patterns.cond_call "contains") c = None)
    by exact (@ends_with_char_needs_char ")" call (lit "contains") c Hc).
  assert (E2 : search no_flags (Patterns.cond_call "starts-with") c = None)
    by exact (@ends_with_char_needs_char ")" call (lit "starts-with") c Hc).
  assert (E3 : search no_flags (Patterns.cond_call "ends-with") c = None)
    by exact (@ends_with_char_needs_char ")" call (lit "ends-with") c Hc).
  assert (E4 : search no_flags Patterns.cond_exists c = None)
    by exact (@ends_with_char_needs_char ")"
                [Star space; Chr "("; Star space; Patterns.cond_path;
                 Star space]
                (lit "exists") c Hc).
  assert (E5 : search no_flags Patterns.cond_not_exists c = None)
    by exact (@ends_with_char_needs_char ")"
                [Star space; Chr "("; Star space; lit "exists"; Star space;
                 Chr "("; Star space; Patterns.cond_path; Star space;
                 Chr ")"; Star space]
                (lit "not") c Hc).
  rewrite E1, E2, E3, E4, E5 in H.
  discriminate.
Qed.

(** C1: a condition clause of one fragment does not always give a filter
    of one key whose operator is that of the fragment's shape.  A fragment
    of the field-existence shape, [exists($u/name)], gives no filter at all:
    the parentheses stripped from the ends of the fragment (line 409)
    include the one that closes the call, so that the pattern of line 514
    and every other pattern fail; the same holds of the substring shape.
    A fragment of the greater-or-equal shape gives the one key [age], with
    the operator [$gt] applied to the text [= 18].  Clauses of two fragments
    with distinct paths inherit both failures. *)
Theorem C1_filter_operator_differs_from_shape :
  _parse_where_clause "exists($u/name)" "u"
  = raise "Unsupported condition: exists($u/name"
  /\ _parse_where_clause (q "contains($u/name, `ab`)") "u"
     = raise ("Unsupported condition: contains($u/name, " ++ q "`ab`")
  /\ _parse_where_clause "$u/age >= 18" "u"
     = ok (PDict [("age", PDict [("$gt", PStr "= 18")])])
  /\ fst (_parse_read
            (q "for $u in collection(`users`) where $u/age >= 18") [])
     = ok (Find "users" (PDict [("age", PDict [("$gt", PStr "= 18")])])
                None None)
  /\ fst (_parse_read
            (q "for $u in collection(`users`) where exists($u/name)") [])
     = raise "Unsupported condition: exists($u/name"
  /\ _parse_where_clause "$u/age gt 18 and exists($u/name)" "u"
     = raise "Unsupported condition: exists($u/name"
  /\ _parse_where_clause "$u/age >= 18 and $u/name = 'Ann'" "u"
     = ok (PDict [("age", PDict [("$gt", PStr "= 18")]);
                  ("name", PStr "Ann")]).
Proof. repeat split; vm_compute; reflexivity. Qed.

(* ================================================================== *)
(** * C2: the Dialect Router *)
(* ================================================================== *)

(** C2: [parse_xquery] tests the cues in the order insert, update, delete,
    read on the stripped statement and hands it to the parser of the first
    cue that matches, whatever the later cues say; when no cue matches, it
    raises the error of an unsupported statement and returns no
    operation.  The state of the converter is left as it was, except by the
    read parser. *)
Theorem C2_router_priority
        (fs : string -> option element) (s : string) (vm : var_mappings) :
  let x := strip s in
  (insert_cue x = true ->
   parse_xquery fs s vm = (_parse_insert fs x, vm))
  /\ (insert_cue x = false -> update_cue x = true ->
      parse_xquery fs s vm = (_parse_update x, vm))
  /\ (insert_cue x = false -> update_cue x = false -> delete_cue x = true ->
      parse_xquery fs s vm = (_parse_delete x, vm))
  /\ (insert_cue x = false -> update_cue x = false -> delete_cue x = false ->
      read_cue x = true ->
      parse_xquery fs s vm = _parse_read x vm)
  /\ (insert_cue x = false -> update_cue x = false -> delete_cue x = false ->
      read_cue x = false ->
      parse_xquery fs s vm
      = (raise ("Unsupported XQuery CRUD syntax: " ++ x), vm)).
Proof.
  intros x. unfold parse_xquery, pure. fold x.
  repeat split; intros;
    repeat match goal with H : _ = _ |- _ => rewrite H; clear H end;
    reflexivity.
Qed.

(** The statement of scenario 6 matches no cue: its translation fails as
    an unsupported statement. *)
Lemma C2_router_priority_witness :
  parse_xquery (fun _ => None) "SELECT name FROM users" []
  = (raise "Unsupported XQuery CRUD syntax: SELECT name FROM users", []).
Proof.
  destruct (C2_router_priority (fun _ => None) "SELECT name FROM users" [])
    as (_ & _ & _ & _ & H).
  apply H; vm_compute; reflexivity.
Defined.

(** A statement that carries the cue of an insert and the cue of a read
    goes to the insert parser, which refuses it, although the read parser
    accepts it. *)
Example router_insert_before_read (fs : string -> option element) :
  let s := q "for $u in collection(`users`) return insert node" in
  read_cue s = true
  /\ fst (_parse_read s []) = ok (Find "users" (PDict []) None None)
  /\ parse_xquery fs s [] = (raise ("Unsupported insert syntax: " ++ s), []).
Proof. repeat split; vm_compute; reflexivity. Qed.

(* ================================================================== *)
(** * C3: the document of an insert *)
(* ================================================================== *)

(** The shorthand form returns the literal as [json.loads] reads it after
    the clean-up of lines 48 and 49. *)
Lemma shorthand_insert_document
      (fs : string -> option element) (s : string) (m : rmatch) (doc : pyval) :
  search IGNORECASE_DOTALL Patterns.mongo_insert s = Some m ->
  Json.loads (clean_brackets (clean_braces (strip (group m 2)))) = Some doc ->
  _parse_insert fs s = ok (InsertOne (group m 1) doc).
Proof.
  intros Hm Hdoc. unfold _parse_insert. rewrite Hm, Hdoc. reflexivity.
Qed.

(** The form of [xquery_to_mongo.py] returns the dictionary that [eval]
    makes of the literal, with the document key under [_id]. *)
Lemma xdmp_insert_document
      (eval : string -> option pyval) (s : string) (m : rmatch)
      (document : dict pyval) :
  Xdmp.contains "xdmp:document-insert" s = true ->
  search no_flags Xdmp.document_insert s = Some m ->
  eval (group m 2) = Some (PDict document) ->
  Xdmp.convert_xquery_to_mongo eval s
  = Some (Xdmp.Insert (PDict (dict_set "_id" (PStr (group m 1)) document))).
Proof.
  intros Hc Hm He. unfold Xdmp.convert_xquery_to_mongo.
  rewrite Hc, Hm, He. reflexivity.
Qed.

(** C3: the document of a shorthand insert is not always the literal of
    the statement.  The literal of
    [db.collection("c").insert({"a": ",}"})] is the dictionary with the
    string of a comma and a closing brace under [a]; the clean-up of
    trailing commas (line 48) rewrites the inside of that string, and the
    document inserted holds the string of a closing brace alone.  The
    hierarchical form, which does not clean up, returns the literal. *)
Theorem C3_shorthand_insert_rewrites_string (fs : string -> option element) :
  Json.loads (q "{`a`: `,}`}") = Some (PDict [("a", PStr ",}")])
  /\ _parse_insert fs (q "db.collection(`c`).insert({`a`: `,}`})")
     = ok (InsertOne "c" (PDict [("a", PStr "}")]))
  /\ _parse_insert fs (q "insert node {`a`: `,}`} into collection(`c`)")
     = ok (InsertOne "c" (PDict [("a", PStr ",}")])).
Proof. repeat split; vm_compute; reflexivity. Qed.

(* ================================================================== *)
(** * C4: the update of a shorthand statement *)
(* ================================================================== *)

(** What [search] finds for a pattern that matches where a test on the
    text holds: the first text, from left to right, on which it holds. *)
Lemma contains_text_scan (w1 w2 w3 : string) (s : string) :
  (fix scan (s : string) : bool :=
     (startswith s w1 || startswith s w2 || startswith s w3)
     || match s with
        | EmptyString => false
        | String _ s' => scan s'
        end) s
  = Spec.contains_text w1 s || Spec.contains_text w2 s
    || Spec.contains_text w3 s.
Proof.
  induction s as [|c s IH].
  - simpl. rewrite !orb_false_r. reflexivity.
  - cbn [Spec.contains_text]. rewrite IH.
    destruct (startswith (String c s) w1), (startswith (String c s) w2),
      (startswith (String c s) w3), (Spec.contains_text w1 s),
      (Spec.contains_text w2 s), (Spec.contains_text w3 s); reflexivity.
Qed.

Lemma modifier_key_matches (pos : nat) (s : string) :
  (exists st', Matches no_flags Patterns.modifier_key (MState pos s []) st')
  <-> startswith s (Patterns.quoted "$set")
      || startswith s (Patterns.quoted "$inc")
      || startswith s (Patterns.quoted "$push") = true.
Proof.
  unfold Patterns.modifier_key.
  rewrite !orb_true_iff.
  rewrite <- !(lit_matches _ (MState pos s [])).
  split.
  - intros (st' & H). inv H; [left; left; eauto|].
    match goal with H : Matches _ (Alt _ _) _ _ |- _ => inv H end;
      [left; right; eauto|right; eauto].
  - intros [[(st' & H)|(st' & H)]|(st' & H)]; exists st'.
    + apply MAltL, H.
    + apply MAltR, MAltL, H.
    + apply MAltR, MAltR, H.
Qed.

(** The search of line 147 succeeds exactly on the texts that contain
    [$set], [$inc] or [$push] between double quotes. *)
Lemma modifier_key_found (text : string) :
  found (search no_flags Patterns.modifier_key text)
  = Spec.mentions_modifier text.
Proof.
  unfold search.
  rewrite (found_search_from
             (fun s => startswith s (Patterns.quoted "$set")
                       || startswith s (Patterns.quoted "$inc")
                       || startswith s (Patterns.quoted "$push"))
             modifier_key_matches).
  rewrite contains_text_scan. unfold Spec.mentions_modifier. simpl.
  rewrite orb_false_r, orb_assoc. reflexivity.
Qed.

(** What the source does with a shorthand update whose two arguments, as
    the pattern of line 133 cuts them and the clean-up of lines 138 to 142
    leaves them, are structured literals: the update is the literal of the
    second argument verbatim when its text begins with an opening brace
    and contains, anywhere, one of the names [$set], [$inc], [$push]
    between double quotes; it is the literal wrapped under [$set]
    otherwise. *)
Lemma shorthand_update_by_text
        (s : string) (m : rmatch) (query literal : pyval) :
  search IGNORECASE_DOTALL Patterns.mongo_update s = Some m ->
  Json.loads (clean_braces (strip (group m 2))) = Some query ->
  let update_json := clean_braces (strip (group m 3)) in
  Json.loads update_json = Some literal ->
  _parse_update s
  = ok (UpdateMany (group m 1) query
          (if startswith (strip update_json) "{"
              && Spec.mentions_modifier update_json
           then literal
           else PDict [("$set", literal)])).
Proof.
  intros Hm Hq update_json Hu. unfold _parse_update. rewrite Hm, Hq.
  fold update_json. unfold shorthand_update, uses_operators.
  rewrite modifier_key_found, Hu.
  destruct (startswith (strip update_json) "{"
            && Spec.mentions_modifier update_json);
    reflexivity.
Qed.

(** Scenario 4 of the specification: an explicit [$set] in the second
    argument is passed through, not wrapped again. *)
Example explicit_set_passed_through :
  _parse_update
    (q "db.collection(`users`).update({`a`: 1}, {`$set`: {`b`: 2}})")
  = ok (UpdateMany "users" (PDict [("a", PInt 1)])
          (PDict [("$set", PDict [("b", PInt 2)])])).
Proof.
  eapply (@shorthand_update_by_text
            (q "db.collection(`users`).update({`a`: 1}, {`$set`: {`b`: 2}})")
            (RMatch 0 59 [(3, q "{`$set`: {`b`: 2}}"); (2, q "{`a`: 1}");
                          (1, "users")]));
    vm_compute; reflexivity.
Qed.

(** C4: the source announces, on line 146, a test for an update that uses
    operators and, on line 150, the wrapping of an update that specifies
    none, which is what the specification asks for.  The test of line 147
    is a search for a quoted name in the text of the argument, not a test
    of the keys of the literal, and it fails in both directions.  The
    literal of the first statement has the single key [tag], whose value
    is the string [$set]: it has no modifier key, and the specification
    wraps it; the source finds the quoted name in the text and uses the
    literal verbatim.  The literal of the second statement has the
    modifier key [$set], written with an escape for the dollar sign: the
    specification uses it verbatim; the source does not find the quoted
    name in the text and wraps the literal a second time.  The third
    statement has a filter of two entries and an update with the modifier
    key [$set]: the pattern of line 133 ends the filter at its first
    comma, and the statement is refused. *)
Theorem C4_textual_test_for_modifier_key :
  Json.loads (q "{`tag`: `$set`}") = Some (PDict [("tag", PStr "$set")])
  /\ Spec.has_modifier_key (PDict [("tag", PStr "$set")]) = false
  /\ Spec.update_spec (PDict [("tag", PStr "$set")])
     = PDict [("$set", PDict [("tag", PStr "$set")])]
  /\ _parse_update (q "db.collection(`users`).update({}, {`tag`: `$set`})")
     = ok (UpdateMany "users" (PDict []) (PDict [("tag", PStr "$set")]))
  /\ Json.loads (q "{`\u0024set`: {`a`: 1}}")
     = Some (PDict [("$set", PDict [("a", PInt 1)])])
  /\ Spec.has_modifier_key (PDict [("$set", PDict [("a", PInt 1)])]) = true
  /\ Spec.update_spec (PDict [("$set", PDict [("a", PInt 1)])])
     = PDict [("$set", PDict [("a", PInt 1)])]
  /\ _parse_update
       (q "db.collection(`users`).update({}, {`\u0024set`: {`a`: 1}})")
     = ok (UpdateMany "users" (PDict [])
             (PDict [("$set", PDict [("$set", PDict [("a", PInt 1)])])]))
  /\ _parse_update
       (q ("db.collection(`users`).update({`a`: 1, `b`: 2}, "
           ++ "{`$set`: {`c`: 3}})"))
     = raise "Could not parse update JSON".
Proof. repeat split; vm_compute; reflexivity. Qed.

(* ================================================================== *)
(** * C5: the greater-or-equal and less-or-equal comparisons *)
(* ================================================================== *)

(** Wherever a symbolic comparison with a two-character operator matches,
    so does the comparison with the first character of the operator alone:
    the second character becomes the start of the value. *)
Lemma symbolic_prefix_matches (c d : ascii) (pos : nat) (s : string)
      (st : mstate) :
  d <> newline ->
  Matches no_flags (Patterns.cond_symbolic (String c (String d EmptyString)))
          (MState pos s []) st ->
  exists st', Matches no_flags (Patterns.cond_symbolic (String c EmptyString))
                      (MState pos s []) st'.
Proof.
  intros Hd H. unfold Patterns.cond_symbolic in *. cbn [cat lit] in *.
  inv H.
  match goal with H : Matches _ (Seq (Star space) _) _ _ |- _ => inv H end.
  match goal with H : Matches _ (Seq (Seq _ _) _) _ _ |- _ => inv H end.
  match goal with H : Matches _ (Seq (Chr c) (Chr d)) _ _ |- _ => inv H end.
  match goal with H : Matches _ (Chr c) _ _ |- _ => inv H end.
  match goal with H : Matches _ (Chr d) _ _ |- _ => inv H end.
  match goal with
  | Hr : ms_rest (step _ _) = String ?e ?rest', He : chr_matches _ d ?e = true
    |- _ =>
      simpl in Hr; subst;
      assert (e = d) by
        (unfold chr_matches in He; simpl in He;
         rewrite orb_false_r in He; apply Ascii.eqb_eq in He; exact He);
      subst
  end.
  eexists.
  eapply MSeq; [eassumption|].
  eapply MSeq; [eassumption|].
  eapply MSeq; [eapply MChr; eassumption|].
  eapply MSeq; [apply MStarDone|].
  apply MGroup. unfold Plus.
  eapply MSeq; [|apply MStarDone].
  eapply MAny; [reflexivity|].
  unfold any_matches. simpl.
  destruct (Ascii.eqb_spec d newline); [contradiction|reflexivity].
Qed.

Lemma symbolic_prefix_found (c d : ascii) (condition : string) :
  d <> newline ->
  found (search no_flags
                (Patterns.cond_symbolic (String c (String d EmptyString)))
                condition) = true ->
  found (search no_flags (Patterns.cond_symbolic (String c EmptyString))
                condition) = true.
Proof.
  intros Hd H. unfold search in *.
  destruct (search_from no_flags
              (Patterns.cond_symbolic (String c (String d EmptyString)))
              0 condition)
    as [m|] eqn:E; [|discriminate].
  eapply search_from_transfer in E.
  - destruct E as (m' & ->). reflexivity.
  - intros pos s st Hst. eapply symbolic_prefix_matches; eauto.
Qed.

(** A fragment whose comparator is the symbolic [>=]: the patterns of
    [_parse_single_condition] are tried in the order equality, inequality,
    greater-than, greater-or-equal, and the greater-than pattern matches
    the [>] of [>=], leaving the equals sign in the value: the entry is
    [$gt] applied to the text [= 18].  Without white space the equality
    pattern matches first, with [age>] as the field.  The symbolic [<=]
    goes the same way.  The keyword forms [ge] and [le] yield [$gte] and
    [$lte] applied to the resolved value. *)
Example symbolic_ge_le_examples :
  _parse_single_condition "$u/age >= 18" "u"
  = ok [("age", PDict [("$gt", PStr "= 18")])]
  /\ _parse_single_condition "$u/age <= 18" "u"
     = ok [("age", PDict [("$lt", PStr "= 18")])]
  /\ _parse_single_condition "$u/age>=18" "u" = ok [("age>", PInt 18)]
  /\ _parse_single_condition "$u/age<=18" "u" = ok [("age<", PInt 18)]
  /\ _parse_single_condition "$u/age ge 18" "u"
     = ok [("age", PDict [("$gte", PInt 18)])]
  /\ _parse_single_condition "$u/age le 18" "u"
     = ok [("age", PDict [("$lte", PInt 18)])].
Proof. repeat split; vm_compute; reflexivity. Qed.

(** C5: a fragment in which the symbolic pattern of the greater-or-equal
    comparison (line 442) finds a match never yields an entry with the
    operator [$gte], whatever the value: one of the three patterns tried
    before it, the greater-than pattern at the latest, matches the fragment
    too and decides the entry.  Likewise a fragment in which the symbolic
    pattern of the less-or-equal comparison (line 462) finds a match never
    yields an entry with the operator [$lte]. *)
Theorem C5_symbolic_ge_le_never_yield_gte_lte
        (condition context_var : string) :
  (found (search no_flags (Patterns.cond_symbolic ">=")
                 (strip_chars "()" condition)) = true ->
   forall field v,
     _parse_single_condition condition context_var
     <> ok [(field, PDict [("$gte", v)])])
  /\ (found (search no_flags (Patterns.cond_symbolic "<=")
                    (strip_chars "()" condition)) = true ->
      forall field v,
        _parse_single_condition condition context_var
        <> ok [(field, PDict [("$lte", v)])]).
Proof.
  split; intros Hsym field v H.
  - apply (@symbolic_prefix_found ">" "=") in Hsym; [|discriminate].
    unfold _parse_single_condition in H.
    set (c := strip_chars "()" condition) in *.
    destruct (search_or no_flags (Patterns.cond_symbolic "=")
                        (Patterns.cond_keyword "eq") c).
    { unfold comparison in H. injection H as _ H.
      exact (parse_value_not_dict _ H). }
    destruct (search_or no_flags (Patterns.cond_symbolic "!=")
                        (Patterns.cond_keyword "ne") c); [discriminate|].
    unfold search_or in H at 1.
    destruct (search no_flags (Patterns.cond_symbolic ">") c);
      [discriminate|].
    discriminate Hsym.
  - apply (@symbolic_prefix_found "<" "=") in Hsym; [|discriminate].
    unfold _parse_single_condition in H.
    set (c := strip_chars "()" condition) in *.
    destruct (search_or no_flags (Patterns.cond_symbolic "=")
                        (Patterns.cond_keyword "eq") c).
    { unfold comparison in H. injection H as _ H.
      exact (parse_value_not_dict _ H). }
    destruct (search_or no_flags (Patterns.cond_symbolic "!=")
                        (Patterns.cond_keyword "ne") c); [discriminate|].
    destruct (search_or no_flags (Patterns.cond_symbolic ">")
                        (Patterns.cond_keyword "gt") c); [discriminate|].
    destruct (search_or no_flags (Patterns.cond_symbolic ">=")
                        (Patterns.cond_keyword "ge") c); [discriminate|].
    unfold search_or in H at 1.
    destruct (search no_flags (Patterns.cond_symbolic "<") c);
      [discriminate|].
    discriminate Hsym.
Qed.

(** The fragments [$u/age >= 18] and [$u/age <= 18] do not yield the
    entries the comments of lines 441 and 461 announce. *)
Lemma C5_symbolic_ge_le_never_yield_gte_lte_witness :
  _parse_single_condition "$u/age >= 18" "u"
  <> ok [("age", PDict [("$gte", PInt 18)])]
  /\ _parse_single_condition "$u/age <= 18" "u"
     <> ok [("age", PDict [("$lte", PInt 18)])].
Proof.
  split.
  - apply (proj1 (C5_symbolic_ge_le_never_yield_gte_lte "$u/age >= 18" "u")).
    vm_compute; reflexivity.
  - apply (proj2 (C5_symbolic_ge_le_never_yield_gte_lte "$u/age <= 18" "u")).
    vm_compute; reflexivity.
Defined.

(* ================================================================== *)
(** * C6: the Path Resolver *)
(* ================================================================== *)

Lemma split_char_not_nil (sep : ascii) (s : string) :
  Spec.split_char sep s <> [].
Proof.
  destruct s as [|c s]; simpl; [discriminate|].
  destruct (Ascii.eqb c sep); [discriminate|].
  destruct (Spec.split_char sep s); discriminate.
Qed.

(** Replacing a separator by another character is splitting on the first
    and joining with the second. *)
Lemma join_split_replace (a b : ascii) (s : string) :
  Spec.join (String b EmptyString) (Spec.split_char a s) = replace_char a b s.
Proof.
  induction s as [|c s IH]; simpl; [reflexivity|].
  destruct (Ascii.eqb c a).
  - destruct (Spec.split_char a s) as [|h t] eqn:E.
    + exfalso. exact (split_char_not_nil a s E).
    + simpl. simpl in IH. rewrite <- IH. reflexivity.
  - destruct (Spec.split_char a s) as [|h t] eqn:E.
    + exfalso. exact (split_char_not_nil a s E).
    + rewrite <- IH. destruct t; reflexivity.
Qed.

(** C6, as the claim states it, fails: a path that is neither the context
    variable followed by a slash nor the bare context variable is not
    rejected.  The specification's resolver refuses ["name"] under the
    context variable [u]; [_parse_path] resolves it to the field ["name"].
    The same holds of a path under another variable. *)
Lemma C6_other_shape_not_rejected :
  Spec.path_resolver "name" "u" = None
  /\ _parse_path "name" "u" = "name"
  /\ Spec.path_resolver "$v/name/first" "u" = None
  /\ _parse_path "$v/name/first" "u" = "$v.name.first".
Proof. repeat split; reflexivity. Qed.

(** C6, amended: [_parse_path] resolves the two shapes of the
    specification as the specification says (prefix stripped and segments
    joined with dots; the bare context variable resolved to [_id]), and a
    path of any other shape is not rejected: it resolves to its own text
    with every slash replaced by a dot. *)
Theorem C6_parse_path_resolves_every_path (path context_var : string) :
  _parse_path path context_var =
  match Spec.path_resolver path context_var with
  | Some field => field
  | None => replace_char "/" "." path
  end.
Proof.
  unfold _parse_path, Spec.path_resolver.
  destruct (startswith path (String "$" (context_var ++ "/"))).
  - symmetry. apply join_split_replace.
  - destruct (String.eqb path (String "$" context_var)); reflexivity.
Qed.

(* ================================================================== *)
(** * C7: the projection of a read *)
(* ================================================================== *)

Lemma project_fields_in (fields : list string) (f : string) :
  List.In f fields -> dict_get f (project_fields fields) = Some (PInt 1).
Proof. intros H. unfold project_fields. apply fold_set_in. exact H. Qed.

Lemma project_fields_other (fields : list string) (f : string) :
  ~ List.In f fields -> dict_get f (project_fields fields) = None.
Proof.
  intros H. unfold project_fields. rewrite fold_set_other by exact H.
  reflexivity.
Qed.

(** What [_parse_return_clause] builds from the fields it finds. *)
Lemma return_clause_projection (return_clause context_var : string) :
  let fields := findall no_flags (Patterns.field_pattern context_var)
                        return_clause in
  let projection := _parse_return_clause return_clause context_var in
  fields <> [] ->
  projection <> []
  /\ (forall f, List.In f fields -> dict_get f projection = Some (PInt 1))
  /\ (~ List.In "_id" fields -> dict_get "_id" projection = Some (PInt 0))
  /\ (forall k, dict_mem k projection = true ->
                List.In k fields \/ k = "_id").
Proof.
  intros fields projection Hne. subst projection.
  unfold _parse_return_clause.
  change (findall no_flags (Patterns.field_pattern context_var) return_clause)
    with fields.
  clearbody fields.
  assert (Hnil : is_nil fields = false)
    by (destruct fields; [contradiction Hne; reflexivity|reflexivity]).
  rewrite Hnil. simpl negb. rewrite andb_true_l.
  assert (Hset : forall (k : string) (v : pyval) (d : dict pyval),
             dict_set k v d <> []).
  { intros k v d. destruct d as [|[k0 v0] d]; simpl; [discriminate|].
    destruct (String.eqb k k0); discriminate. }
  destruct (in_dec string_dec "_id" fields) as [Hid|Hid].
  - (* the identifier field is among the fields found *)
    assert (Hmem : dict_mem "_id" (project_fields fields) = true).
    { apply dict_mem_get. exists (PInt 1). apply project_fields_in, Hid. }
    rewrite Hmem. simpl negb. cbv iota.
    split; [|split; [|split]].
    + destruct fields as [|f fields']; [discriminate Hnil|].
      intros E. pose proof (project_fields_in (f :: fields') f
                              (or_introl eq_refl)) as H.
      rewrite E in H. discriminate.
    + intros f Hf. apply project_fields_in, Hf.
    + intros H. contradiction.
    + intros k Hk. destruct (in_dec string_dec k fields) as [Hin|Hin];
        [left; exact Hin|].
      apply dict_mem_get in Hk. destruct Hk as [v Hv].
      rewrite project_fields_other in Hv by exact Hin. discriminate.
  - (* it is not: it is excluded *)
    assert (Hmem : dict_mem "_id" (project_fields fields) = false).
    { unfold dict_mem. rewrite project_fields_other by exact Hid.
      reflexivity. }
    rewrite Hmem. simpl negb. cbv iota.
    split; [|split; [|split]].
    + apply Hset.
    + intros f Hf.
      rewrite dict_get_set_other by (intros ->; contradiction).
      apply project_fields_in, Hf.
    + intros _. apply dict_get_set_same.
    + intros k Hk. destruct (string_dec k "_id") as [->|Hne'];
        [right; reflexivity|].
      left. destruct (in_dec string_dec k fields) as [Hin|Hin]; [exact Hin|].
      apply dict_mem_get in Hk. destruct Hk as [v Hv].
      rewrite dict_get_set_other in Hv by exact Hne'.
      rewrite project_fields_other in Hv by exact Hin. discriminate.
Qed.

(** What a hierarchical read that translates carries as its projection,
    in terms of the fields that [findall] returns for the pattern of line
    610, when there is at least one: each of them has the value 1, the
    identifier field [_id] has the value 0 unless it is one of them, and
    no other field appears. *)
Lemma projection_of_found_fields
        (s : string) (vm vm' : var_mappings) (op : operation)
        (m rm : rmatch) :
  search IGNORECASE_DOTALL Patterns.mongo_find s = None ->
  search IGNORECASE_DOTALL Patterns.for_in_collection s = Some m ->
  search IGNORECASE_DOTALL Patterns.return_clause_re (strip (group m 3))
  = Some rm ->
  let fields := findall no_flags (Patterns.field_pattern (group m 1))
                        (strip (group rm 1)) in
  fields <> [] ->
  _parse_read s vm = (inr op, vm') ->
  exists projection : dict pyval,
    op_projection op = Some (PDict projection)
    /\ (forall f, List.In f fields ->
                  dict_get f projection = Some (PInt 1))
    /\ (~ List.In "_id" fields -> dict_get "_id" projection = Some (PInt 0))
    /\ (forall k, dict_mem k projection = true ->
                  List.In k fields \/ k = "_id").
Proof.
  intros Hfind Hfor Hret fields Hne Hread.
  destruct (return_clause_projection (strip (group rm 1)) (group m 1) Hne)
    as (Hnonempty & Hone & Hid & Hkeys).
  exists (_parse_return_clause (strip (group rm 1)) (group m 1)).
  split; [|split; [exact Hone|split; [exact Hid|exact Hkeys]]].
  unfold _parse_read in Hread. rewrite Hfind, Hfor in Hread.
  destruct (query_of _ _) as [e|query]; simpl in Hread; [discriminate|].
  injection Hread as <- _. simpl.
  unfold projection_of. rewrite Hret. simpl.
  destruct (_parse_return_clause (strip (group rm 1)) (group m 1));
    [congruence|reflexivity].
Qed.

(** Scenario 3 of the specification: the clause [return $u/name] gives the
    projection of [name] with 1 and [_id] with 0. *)
Example projection_of_scenario_3 :
  exists projection : dict pyval,
    op_projection
      (Find "users" (PDict [("age", PDict [("$gt", PInt 18)])])
            (Some (PDict [("name", PInt (-1))]))
            (Some (PDict [("name", PInt 1); ("_id", PInt 0)])))
    = Some (PDict projection)
    /\ (forall f, List.In f ["name"] ->
                  dict_get f projection = Some (PInt 1))
    /\ (~ List.In "_id" ["name"] -> dict_get "_id" projection = Some (PInt 0))
    /\ (forall k, dict_mem k projection = true ->
                  List.In k ["name"] \/ k = "_id").
Proof.
  refine (@projection_of_found_fields
            (q ("for $u in collection(`users`) where $u/age > 18 "
                ++ "order by $u/name descending return $u/name"))
            [] [("u", "users")] _
            (RMatch 0 90
               [(3, " where $u/age > 18 order by $u/name descending "
                    ++ "return $u/name");
                (2, "users"); (1, "u")])
            (RMatch 46 60 [(1, "$u/name")])
            _ _ _ _ _).
  - vm_compute; reflexivity.
  - vm_compute; reflexivity.
  - vm_compute; reflexivity.
  - vm_compute; discriminate.
  - vm_compute; reflexivity.
Qed.

(** From the fields it finds, the source builds the projection that the
    specification describes: the two can differ by the fields only. *)
Lemma return_clause_projection_of_found (return_clause context_var : string) :
  _parse_return_clause return_clause context_var
  = Spec.projection
      (findall no_flags (Patterns.field_pattern context_var) return_clause).
Proof.
  unfold _parse_return_clause, Spec.projection.
  generalize (findall no_flags (Patterns.field_pattern context_var)
                      return_clause) as fields.
  intros fields. fold (project_fields fields).
  assert (E : dict_mem "_id" (project_fields fields)
              = existsb (String.eqb "_id") fields).
  { destruct (in_dec string_dec "_id" fields) as [Hin|Hin].
    - transitivity true.
      + apply dict_mem_get. exists (PInt 1).
        apply project_fields_in, Hin.
      + symmetry. apply existsb_exists. exists "_id".
        split; [exact Hin|reflexivity].
    - transitivity false.
      + unfold dict_mem. rewrite project_fields_other by exact Hin.
        reflexivity.
      + symmetry. apply not_true_is_false. intros H.
        apply existsb_exists in H. destruct H as (x & Hx & Ex).
        apply String.eqb_eq in Ex. subst x. contradiction. }
  rewrite E.
  destruct (is_nil fields), (existsb (String.eqb "_id") fields); reflexivity.
Qed.

(** C7: the result-shape clause [return ($u/name, $u/_id)] references the
    fields [name] and [_id] under the context variable, and the
    specification includes both, with the value 1.  The pattern of line
    610 takes a field name to run up to the next slash, white space or
    comma: it finds [name] and the text of [_id] with the closing
    parenthesis.  The source, which announces on line 616 that it excludes
    [_id] unless explicitly included, gives the identifier field that the
    clause references the value 0, and includes a field that the clause
    does not reference. *)
Theorem C7_referenced_identifier_field_excluded :
  Spec.field_references "u" "($u/name, $u/_id)" = ["name"; "_id"]
  /\ Spec.projection ["name"; "_id"]
     = [("name", PInt 1); ("_id", PInt 1)]
  /\ findall no_flags (Patterns.field_pattern "u") "($u/name, $u/_id)"
     = ["name"; "_id)"]
  /\ _parse_return_clause "($u/name, $u/_id)" "u"
     = [("name", PInt 1); ("_id)", PInt 1); ("_id", PInt 0)]
  /\ fst (_parse_read
            (q "for $u in collection(`users`) return ($u/name, $u/_id)") [])
     = ok (Find "users" (PDict []) None
             (Some (PDict [("name", PInt 1); ("_id)", PInt 1);
                           ("_id", PInt 0)]))).
Proof. repeat split; vm_compute; reflexivity. Qed.

(* ================================================================== *)
(** * C8: the filter of a statement without condition clause *)
(* ================================================================== *)

Section EmptyFilter.

Import Patterns.

(** The three hierarchical forms of update and delete share the step that
    builds the filter: without condition clause it is the empty
    dictionary. *)
Lemma collection_path_query_no_where
      (what s target : string) (c : string) (f : option string) (qy : pyval) :
  where_clause_of where_until_collection s = None ->
  collection_path_query what s target = inr (c, f, qy) ->
  qy = PDict [].
Proof.
  intros Hw H. unfold collection_path_query in H. rewrite Hw in H.
  destruct (search no_flags in_collection s); [|discriminate].
  destruct (search no_flags target_path target); [|discriminate].
  simpl in H. injection H as _ _ <-. reflexivity.
Qed.

Lemma read_hierarchical_no_where
      (s : string) (vm vm' : var_mappings) (op : operation) (m : rmatch) :
  search IGNORECASE_DOTALL mongo_find s = None ->
  search IGNORECASE_DOTALL for_in_collection s = Some m ->
  where_clause_of where_until_order (strip (group m 3)) = None ->
  _parse_read s vm = (inr op, vm') ->
  op_filter op = Some (PDict []).
Proof.
  intros Hfind Hfor Hw H. unfold _parse_read in H.
  rewrite Hfind, Hfor, Hw in H. simpl in H.
  injection H as <- _. reflexivity.
Qed.

Lemma read_shorthand_no_literal
      (s : string) (vm vm' : var_mappings) (op : operation) (m : rmatch) :
  search IGNORECASE_DOTALL mongo_find s = Some m ->
  strip (group m 2) = EmptyString ->
  _parse_read s vm = (inr op, vm') ->
  op_filter op = Some (PDict []).
Proof.
  intros Hfind He H. unfold _parse_read in H.
  rewrite Hfind, He in H. simpl in H.
  injection H as <- _. reflexivity.
Qed.

Lemma update_hierarchical_no_where (s : string) (op : operation) :
  search IGNORECASE_DOTALL mongo_update s = None ->
  where_clause_of where_until_collection s = None ->
  _parse_update s = inr op ->
  op_filter op = Some (PDict []).
Proof.
  intros Hm Hw H. unfold _parse_update in H. rewrite Hm in H.
  destruct (search IGNORECASE_DOTALL replace_node s) as [m1|].
  - destruct (collection_path_query "replace" s _) as [e|[[c f] qy]] eqn:E;
      simpl in H; [discriminate|].
    eapply collection_path_query_no_where in E; [|exact Hw]. subst qy.
    injection H as <-. reflexivity.
  - destruct (search IGNORECASE_DOTALL update_value s) as [m2|];
      [|discriminate].
    destruct (collection_path_query "update" s _) as [e|[[c f] qy]] eqn:E;
      simpl in H; [discriminate|].
    eapply collection_path_query_no_where in E; [|exact Hw]. subst qy.
    injection H as <-. reflexivity.
Qed.

Lemma delete_hierarchical_no_where (s : string) (op : operation) :
  search IGNORECASE_DOTALL mongo_remove s = None ->
  where_clause_of where_until_collection s = None ->
  _parse_delete s = inr op ->
  op_filter op = Some (PDict []).
Proof.
  intros Hm Hw H. unfold _parse_delete in H. rewrite Hm in H.
  destruct (search IGNORECASE_DOTALL delete_node s) as [m1|]; [|discriminate].
  destruct (collection_path_query "delete" s _) as [e|[[c f] qy]] eqn:E;
    simpl in H; [discriminate|].
  eapply collection_path_query_no_where in E; [|exact Hw]. subst qy.
  injection H as <-. reflexivity.
Qed.

(** A shorthand update or delete without filter literal does not
    translate: [json.loads] refuses the empty text. *)
Lemma update_shorthand_no_literal (s : string) (m : rmatch) :
  search IGNORECASE_DOTALL mongo_update s = Some m ->
  strip (group m 2) = EmptyString ->
  _parse_update s = raise "Could not parse update JSON".
Proof.
  intros Hm He. unfold _parse_update. rewrite Hm, He. reflexivity.
Qed.

Lemma delete_shorthand_no_literal (s : string) (m : rmatch) :
  search IGNORECASE_DOTALL mongo_remove s = Some m ->
  strip (group m 2) = EmptyString ->
  _parse_delete s = raise "Could not parse delete query JSON".
Proof.
  intros Hm He. unfold _parse_delete. rewrite Hm, He. reflexivity.
Qed.

End EmptyFilter.

(** Where the condition pattern finds no match in a hierarchical
    statement (for a read: in what follows the iteration clause), and
    where the text of the filter argument of a shorthand read, stripped,
    is empty, a statement that translates has the empty dictionary as its
    filter.  A shorthand update or delete without filter literal does not
    translate at all. *)
Lemma no_condition_match_empty_filter :
  (forall s vm vm' op m,
      search IGNORECASE_DOTALL Patterns.mongo_find s = None ->
      search IGNORECASE_DOTALL Patterns.for_in_collection s = Some m ->
      where_clause_of Patterns.where_until_order (strip (group m 3)) = None ->
      _parse_read s vm = (inr op, vm') ->
      op_filter op = Some (PDict []))
  /\ (forall s vm vm' op m,
      search IGNORECASE_DOTALL Patterns.mongo_find s = Some m ->
      strip (group m 2) = EmptyString ->
      _parse_read s vm = (inr op, vm') ->
      op_filter op = Some (PDict []))
  /\ (forall s op,
      search IGNORECASE_DOTALL Patterns.mongo_update s = None ->
      where_clause_of Patterns.where_until_collection s = None ->
      _parse_update s = inr op ->
      op_filter op = Some (PDict []))
  /\ (forall s op,
      search IGNORECASE_DOTALL Patterns.mongo_remove s = None ->
      where_clause_of Patterns.where_until_collection s = None ->
      _parse_delete s = inr op ->
      op_filter op = Some (PDict []))
  /\ (forall s m,
      search IGNORECASE_DOTALL Patterns.mongo_update s = Some m ->
      strip (group m 2) = EmptyString ->
      _parse_update s = raise "Could not parse update JSON")
  /\ (forall s m,
      search IGNORECASE_DOTALL Patterns.mongo_remove s = Some m ->
      strip (group m 2) = EmptyString ->
      _parse_delete s = raise "Could not parse delete query JSON").
Proof.
  split; [exact read_hierarchical_no_where|].
  split; [exact read_shorthand_no_literal|].
  split; [exact update_hierarchical_no_where|].
  split; [exact delete_hierarchical_no_where|].
  split; [exact update_shorthand_no_literal|exact delete_shorthand_no_literal].
Qed.

(** A hierarchical read, a shorthand read, a hierarchical update and a
    hierarchical delete, each without condition clause. *)
Example statements_without_condition_match :
  op_filter (Find "users" (PDict []) (Some (PDict [("name", PInt 1)])) None)
  = Some (PDict [])
  /\ op_filter (Find "users" (PDict []) None None) = Some (PDict [])
  /\ op_filter (UpdateMany "users" (PDict [])
                           (PDict [("$set", PDict [("age", PInt 31)])]))
     = Some (PDict [])
  /\ op_filter (DeleteMany "users" (PDict [])) = Some (PDict []).
Proof.
  destruct no_condition_match_empty_filter as (Hr & Hs & Hu & Hd & _).
  split; [|split; [|split]].
  - eapply (Hr (q "for $u in collection(`users`) order by $u/name") []);
      vm_compute; reflexivity.
  - eapply (Hs (q "db.collection(`users`).find()") []);
      vm_compute; reflexivity.
  - apply (Hu (q "update value $u/age with 31 in collection(`users`)"));
      vm_compute; reflexivity.
  - apply (Hd (q "delete node $u in collection(`users`)"));
      vm_compute; reflexivity.
Qed.

(** C8: the statement below has an iteration clause, an ordering clause
    and a result-shape clause, and no condition clause: none of its words
    is [where].  The source announces on line 366 that it extracts the
    where condition if present, and starts from the empty filter on line
    371.  The pattern of line 367 asks for the letters of [where] followed
    by white space, wherever they stand: it finds them at the end of the
    field name [somewhere], and takes the result-shape clause that follows
    for the condition.  The clause being there and not empty, line 373
    replaces the empty filter by what the Predicate Engine makes of it:
    the statement translates, with a filter of one entry. *)
Theorem C8_condition_pattern_inside_a_word :
  Spec.has_word "where"
    (q ("for $u in collection(`users`) "
        ++ "order by $u/somewhere return $u/age = 1"))
  = false
  /\ where_clause_of Patterns.where_until_order
       "order by $u/somewhere return $u/age = 1"
     = Some "return $u/age = 1"
  /\ _parse_single_condition "return $u/age = 1" "u"
     = ok [("age", PInt 1)]
  /\ fst (_parse_read
            (q ("for $u in collection(`users`) "
                ++ "order by $u/somewhere return $u/age = 1")) [])
     = ok (Find "users" (PDict [("age", PInt 1)])
             (Some (PDict [("somewhere", PInt 1)]))
             (Some (PDict [("age", PInt 1); ("_id", PInt 0)]))).
Proof. repeat split; vm_compute; reflexivity. Qed.

(* ================================================================== *)
(** * C9: the Value Resolver (facts; the claim is at the end) *)
(* ================================================================== *)


Lemma parse_value_stripped (token : string) :
  _parse_value (strip token) = _parse_value token.
Proof. unfold _parse_value. rewrite strip_idempotent. reflexivity. Qed.


(* ================================================================== *)
(** * C10: the binding table *)
(* ================================================================== *)

Section BindingTable.

Variable fs : string -> option element.

Lemma pure_oblivious {A : Type} (r : result A) : oblivious (pure r).
Proof. intros vm1 vm2. reflexivity. Qed.

Lemma _parse_read_oblivious (s : string) : oblivious (_parse_read s).
Proof.
  intros vm1 vm2. unfold _parse_read.
  destruct (search IGNORECASE_DOTALL Patterns.mongo_find s) as [m|].
  - destruct (is_empty _); [reflexivity|].
    destruct (Json.loads _); reflexivity.
  - destruct (search IGNORECASE_DOTALL Patterns.for_in_collection s);
      reflexivity.
Qed.

Lemma parse_xquery_oblivious (s : string) : oblivious (parse_xquery fs s).
Proof.
  unfold parse_xquery.
  destruct (insert_cue _); [apply pure_oblivious|].
  destruct (update_cue _); [apply pure_oblivious|].
  destruct (delete_cue _); [apply pure_oblivious|].
  destruct (read_cue _); [apply _parse_read_oblivious|apply pure_oblivious].
Qed.

End BindingTable.

(** C10: the outcome of translating a statement, operation or failure, on
    a converter that has translated any list of statements before is the
    outcome on a converter just constructed, whose binding table is empty:
    the table is written by the read parser and read by nothing. *)
Theorem C10_translation_independent_of_bindings
        (fs : string -> option element) (prior : list string) (s : string) :
  fst (parse_xquery fs s (translate_all fs prior []))
  = fst (parse_xquery fs s []).
Proof. apply parse_xquery_oblivious. Qed.

(* ================================================================== *)
(** * X1, X2: the router and the white space around a statement *)
(* ================================================================== *)

Section PadFacts.

Variable p : ascii -> bool.

Lemma lstrip_by_all (s : string) :
  all_chars p s = true -> lstrip_by p s = EmptyString.
Proof.
  induction s as [|c s IH]; simpl; [reflexivity|].
  intros H. apply andb_true_iff in H. destruct H as [Hc Hs].
  rewrite Hc. exact (IH Hs).
Qed.

Lemma lstrip_by_pad_left (a s : string) :
  all_chars p a = true -> lstrip_by p (a ++ s) = lstrip_by p s.
Proof.
  induction a as [|c a IH]; simpl; [reflexivity|].
  intros H. apply andb_true_iff in H. destruct H as [Hc Ha].
  rewrite Hc. exact (IH Ha).
Qed.

Lemma rstrip_by_all (s : string) :
  all_chars p s = true -> rstrip_by p s = EmptyString.
Proof.
  induction s as [|c s IH]; simpl; [reflexivity|].
  intros H. apply andb_true_iff in H. destruct H as [Hc Hs].
  rewrite (IH Hs), Hc. reflexivity.
Qed.

Lemma rstrip_by_pad_right (s b : string) :
  all_chars p b = true -> rstrip_by p (s ++ b) = rstrip_by p s.
Proof.
  intros Hb. induction s as [|c s IH]; simpl.
  - apply rstrip_by_all, Hb.
  - rewrite IH. reflexivity.
Qed.

Lemma lstrip_by_pad_right (s b : string) :
  all_chars p b = true ->
  rstrip_by p (lstrip_by p (s ++ b)) = rstrip_by p (lstrip_by p s).
Proof.
  intros Hb. induction s as [|c s IH]; simpl.
  - rewrite lstrip_by_all by exact Hb. reflexivity.
  - destruct (p c); [exact IH|].
    change (String c (s ++ b)) with (String c s ++ b).
    apply rstrip_by_pad_right, Hb.
Qed.

(** Characters of the stripped set around a text do not change what
    [strip] makes of it. *)
Lemma strip_by_pad (a s b : string) :
  all_chars p a = true -> all_chars p b = true ->
  strip_by p (a ++ s ++ b) = strip_by p s.
Proof.
  intros Ha Hb. unfold strip_by.
  rewrite lstrip_by_pad_left by exact Ha. apply lstrip_by_pad_right, Hb.
Qed.

Lemma strip_by_all (s : string) :
  all_chars p s = true -> strip_by p s = EmptyString.
Proof.
  intros H. unfold strip_by. rewrite lstrip_by_all by exact H.
  reflexivity.
Qed.

End PadFacts.

Section Router.
Variable fs : string -> option element.

(** X1: a statement that is empty or made of white space only is not
    translated: [parse_xquery] raises the error of an unsupported
    statement, with nothing after the colon of its message, and leaves
    the binding table as it was. *)
Theorem X1_blank_statement_unsupported (s : string) (vm : var_mappings) :
  all_chars is_space s = true ->
  parse_xquery fs s vm = (raise "Unsupported XQuery CRUD syntax: ", vm).
Proof.
  intros H. unfold parse_xquery. unfold strip. rewrite strip_by_all by exact H.
  reflexivity.
Qed.

(** X2: white space before and after a statement changes nothing:
    [parse_xquery] returns for the padded statement what it returns for
    the statement, the text of an error message included. *)
Theorem X2_white_space_around_statement (a s b : string) (vm : var_mappings) :
  all_chars is_space a = true -> all_chars is_space b = true ->
  parse_xquery fs (a ++ s ++ b) vm = parse_xquery fs s vm.
Proof.
  intros Ha Hb. unfold parse_xquery, strip.
  rewrite strip_by_pad by assumption. reflexivity.
Qed.
End Router.

Lemma X1_blank_statement_unsupported_witness :
  parse_xquery (fun _ => None) "   " []
  = (raise "Unsupported XQuery CRUD syntax: ", []).
Proof.
  apply (@X1_blank_statement_unsupported (fun _ => None) "   " []).
  reflexivity.
Defined.

Lemma X2_white_space_around_statement_witness :
  parse_xquery (fun _ => None)
    ("  " ++ q "db.collection(`c`).insert({`a`: 1})" ++ " ") []
  = parse_xquery (fun _ => None) (q "db.collection(`c`).insert({`a`: 1})")
                 [].
Proof.
  apply (@X2_white_space_around_statement (fun _ => None) "  "
           (q "db.collection(`c`).insert({`a`: 1})") " " []);
    reflexivity.
Defined.

(* ================================================================== *)
(** * What a match consumes and what its groups hold *)
(* ================================================================== *)

Lemma all_ascii_spec (f : ascii -> bool) :
  all_ascii f = true -> forall c, f c = true.
Proof.
  unfold all_ascii. intros H c. rewrite forallb_forall in H.
  rewrite <- (ascii_nat_embedding c). apply H. apply in_seq.
  pose proof (nat_ascii_bounded c). lia.
Qed.

Lemma all_chars_app (p : ascii -> bool) (s t : string) :
  all_chars p (s ++ t) = all_chars p s && all_chars p t.
Proof.
  induction s as [|c s IH]; simpl; [reflexivity|].
  rewrite IH, andb_assoc. reflexivity.
Qed.

Lemma any_char_app (p : ascii -> bool) (s t : string) :
  any_char p (s ++ t) = any_char p s || any_char p t.
Proof.
  induction s as [|c s IH]; simpl; [reflexivity|].
  rewrite IH, orb_assoc. reflexivity.
Qed.

Lemma any_char_none (p : ascii -> bool) (s : string) :
  all_chars (fun c => negb (p c)) s = true -> any_char p s = false.
Proof.
  induction s as [|c s IH]; simpl; [reflexivity|].
  intros H. apply andb_true_iff in H. destruct H as [Hc Hs].
  apply negb_true_iff in Hc. rewrite Hc, (IH Hs). reflexivity.
Qed.

Lemma app_assoc_string (a b c : string) : (a ++ b) ++ c = a ++ b ++ c.
Proof.
  induction a as [|x a IH]; simpl; [reflexivity|]. rewrite IH.
  reflexivity.
Qed.

Lemma length_app_string (a b : string) :
  String.length (a ++ b) = String.length a + String.length b.
Proof.
  induction a as [|x a IH]; simpl; [reflexivity|]. rewrite IH.
  reflexivity.
Qed.

Lemma take_app (a b : string) : take (String.length a) (a ++ b) = a.
Proof.
  induction a as [|x a IH]; simpl; [destruct b; reflexivity|].
  rewrite IH. reflexivity.
Qed.

Lemma app_inv_length (a b c d : string) :
  a ++ b = c ++ d -> String.length a = String.length c -> a = c /\ b = d.
Proof.
  revert c. induction a as [|x a IH]; intros [|y c]; simpl; intros H Hl;
    try discriminate.
  - split; [reflexivity|exact H].
  - injection H as -> H. injection Hl as Hl.
    destruct (IH c H Hl) as [-> ->]. split; reflexivity.
Qed.

Section Consumed.

Variable fl : flags.

(** What a match consumes: a prefix of the text, as long as the cursor
    has moved. *)
Lemma Matches_consumed (r : regex) (st st' : mstate) :
  Matches fl r st st' ->
  exists pre, ms_rest st = pre ++ ms_rest st'
              /\ ms_pos st' = ms_pos st + String.length pre.
Proof.
  intros H. pose proof (Matches_cursor H) as Hc.
  destruct (Matches_suffix H) as (pre & E). exists pre. split; [exact E|].
  rewrite E, length_app_string in Hc. lia.
Qed.

(** The text between two states. *)
Lemma consumed_text (st st' : mstate) (pre : string) :
  ms_rest st = pre ++ ms_rest st' ->
  ms_pos st' = ms_pos st + String.length pre ->
  take (ms_pos st' - ms_pos st) (ms_rest st) = pre.
Proof.
  intros E Hp. rewrite E, Hp.
  replace (ms_pos st + String.length pre - ms_pos st) with (String.length pre)
    by lia.
  apply take_app.
Qed.

Lemma all_chars_weaken (p r : ascii -> bool) (s : string) :
  (forall c, p c = true -> r c = true) ->
  all_chars p s = true -> all_chars r s = true.
Proof. apply all_chars_impl. Qed.

(** A match consumes characters that its pattern accepts, at least as
    many as the pattern demands. *)
Lemma Matches_accepts (r : regex) (st st' : mstate) :
  Matches fl r st st' ->
  forall pre, ms_rest st = pre ++ ms_rest st' ->
              ms_pos st' = ms_pos st + String.length pre ->
              all_chars (accepts fl r) pre = true
              /\ min_len r <= String.length pre.
Proof.
  assert (Hnil : forall (st : mstate) pre,
             ms_rest st = pre ++ ms_rest st ->
             ms_pos st = ms_pos st + String.length pre -> pre = EmptyString).
  { intros s0 pre _ Hp. destruct pre; [reflexivity|simpl in Hp; lia]. }
  assert (Hone : forall (st : mstate) c rest pre,
             ms_rest st = String c rest ->
             ms_rest st = pre ++ rest ->
             S (ms_pos st) = ms_pos st + String.length pre ->
             pre = String c EmptyString).
  { intros s0 c rest pre Hr E Hp.
    destruct pre as [|d [|e pre]]; simpl in Hp; try lia.
    rewrite Hr in E. simpl in E. congruence. }
  assert (Hsplit : forall (a b c : mstate) ra rb pre,
             Matches fl ra a b -> Matches fl rb b c ->
             ms_rest a = pre ++ ms_rest c ->
             ms_pos c = ms_pos a + String.length pre ->
             exists p1 p2, pre = p1 ++ p2
               /\ ms_rest a = p1 ++ ms_rest b
               /\ ms_pos b = ms_pos a + String.length p1
               /\ ms_rest b = p2 ++ ms_rest c
               /\ ms_pos c = ms_pos b + String.length p2).
  { intros a b c ra rb pre Ha Hb E Hp.
    destruct (Matches_consumed Ha) as (p1 & E1 & P1).
    destruct (Matches_consumed Hb) as (p2 & E2 & P2).
    exists p1, p2. repeat split; try assumption.
    rewrite E1, E2, <- app_assoc_string in E.
    apply app_inv_length in E; [symmetry; apply E|].
    rewrite length_app_string. lia. }
  induction 1; intros pre E Hp; simpl in *;
    try (rewrite (Hnil _ _ E Hp); split; [reflexivity|simpl; lia]).
  - rewrite (Hone _ _ _ _ H E Hp). simpl. rewrite H0. split; [reflexivity|lia].
  - rewrite (Hone _ _ _ _ H E Hp). simpl. rewrite H0. split; [reflexivity|lia].
  - rewrite (Hone _ _ _ _ H E Hp). simpl. rewrite H0. split; [reflexivity|lia].
  - rewrite (Hone _ _ _ _ H E Hp). simpl. rewrite H0. split; [reflexivity|lia].
  - destruct (Hsplit _ _ _ _ _ _ H H0 E Hp)
      as (p1 & p2 & -> & E1 & P1 & E2 & P2).
    destruct (IHMatches1 _ E1 P1) as [A1 L1].
    destruct (IHMatches2 _ E2 P2) as [A2 L2].
    rewrite all_chars_app, length_app_string. split; [|lia].
    apply andb_true_iff. split.
    + eapply all_chars_impl; [|exact A1]. intros c Hc. rewrite Hc. reflexivity.
    + eapply all_chars_impl; [|exact A2]. intros c Hc. rewrite Hc.
      apply orb_true_r.
  - destruct (IHMatches _ E Hp) as [A L]. split; [|lia].
    eapply all_chars_impl; [|exact A]. intros c Hc. rewrite Hc. reflexivity.
  - destruct (IHMatches _ E Hp) as [A L]. split; [|lia].
    eapply all_chars_impl; [|exact A]. intros c Hc. rewrite Hc.
    apply orb_true_r.
  - destruct (Hsplit _ _ _ _ _ _ H H1 E Hp)
      as (p1 & p2 & -> & E1 & P1 & E2 & P2).
    destruct (IHMatches1 _ E1 P1) as [A1 L1].
    destruct (IHMatches2 _ E2 P2) as [A2 L2].
    split; [|lia]. rewrite all_chars_app. apply andb_true_iff.
    split; [exact A1|exact A2].
  - destruct (Hsplit _ _ _ _ _ _ H H1 E Hp)
      as (p1 & p2 & -> & E1 & P1 & E2 & P2).
    destruct (IHMatches1 _ E1 P1) as [A1 L1].
    destruct (IHMatches2 _ E2 P2) as [A2 L2].
    split; [|lia]. rewrite all_chars_app. apply andb_true_iff.
    split; [exact A1|exact A2].
  - exact (IHMatches _ E Hp).
Qed.

(** A match of a pattern that needs a character of some kind consumes one. *)
Lemma Matches_needs (p : ascii -> bool) (r : regex) (st st' : mstate) :
  Matches fl r st st' -> needs fl p r = true ->
  any_char p (ms_rest st) = true.
Proof.
  assert (Hleaf : forall r0 c rest (st0 : mstate),
             ms_rest st0 = String c rest -> accepts fl r0 c = true ->
             all_ascii (fun c => implb (accepts fl r0 c) (p c)) = true ->
             any_char p (ms_rest st0) = true).
  { intros r0 c rest st0 Hr Ha Hall.
    pose proof (all_ascii_spec _ Hall c) as Hc. simpl in Hc.
    rewrite Ha in Hc. simpl in Hc. rewrite Hr. simpl. rewrite Hc.
    reflexivity. }
  induction 1; simpl; intros Hn; try discriminate.
  - eapply (Hleaf (Chr d)); eauto.
  - eapply (Hleaf Any); eauto.
  - eapply (Hleaf (OneOf items)); eauto.
  - eapply (Hleaf (NoneOf items)); eauto. simpl. rewrite H0. reflexivity.
  - apply orb_true_iff in Hn. destruct Hn as [Hn|Hn]; [auto|].
    destruct (Matches_suffix H) as (pre & E). rewrite E, any_char_app.
    rewrite (IHMatches2 Hn). apply orb_true_r.
  - apply andb_true_iff in Hn. destruct Hn as [Hn _]. auto.
  - apply andb_true_iff in Hn. destruct Hn as [_ Hn]. auto.
  - auto.
Qed.

(** The groups of a match: the text of a group is what a match of the
    pattern between its parentheses consumed. *)
Lemma Matches_group (r : regex) (st st' : mstate) :
  Matches fl r st st' ->
  forall n t,
    lookup_cap n (ms_caps st') = Some t ->
    lookup_cap n (ms_caps st) = Some t
    \/ exists body a b,
         List.In body (group_bodies n r) /\ Matches fl body a b
         /\ t = take (ms_pos b - ms_pos a) (ms_rest a).
Proof.
  induction 1; intros k t Hk; simpl in *; try (left; exact Hk).
  - destruct (IHMatches2 _ _ Hk) as [Hl|(body & a & b & Hin & Hm & Et)].
    + destruct (IHMatches1 _ _ Hl) as [Hl'|(body & a & b & Hin & Hm & Et)];
        [left; exact Hl'|].
      right. exists body, a, b. split; [apply in_or_app; left; exact Hin|auto].
    + right. exists body, a, b. split; [apply in_or_app; right; exact Hin|auto].
  - destruct (IHMatches _ _ Hk) as [Hl|(body & a & b & Hin & Hm & Et)];
      [left; exact Hl|].
    right. exists body, a, b. split; [apply in_or_app; left; exact Hin|auto].
  - destruct (IHMatches _ _ Hk) as [Hl|(body & a & b & Hin & Hm & Et)];
      [left; exact Hl|].
    right. exists body, a, b. split; [apply in_or_app; right; exact Hin|auto].
  - destruct (IHMatches2 _ _ Hk) as [Hl|Hr]; [|right; exact Hr].
    exact (IHMatches1 _ _ Hl).
  - destruct (IHMatches2 _ _ Hk) as [Hl|Hr]; [|right; exact Hr].
    exact (IHMatches1 _ _ Hl).
  - destruct (k =? n)%nat eqn:E.
    + injection Hk as <-. right. exists r, st, st'.
      split; [left; reflexivity|split; [exact H|reflexivity]].
    + destruct (IHMatches _ _ Hk) as [Hl|(body & a & b & Hin & Hm & Et)];
        [left; exact Hl|].
      right. exists body, a, b. auto.
Qed.

Lemma Matches_binds (r : regex) (st st' : mstate) :
  Matches fl r st st' ->
  forall n, binds n r = true \/ lookup_cap n (ms_caps st) <> None ->
            lookup_cap n (ms_caps st') <> None.
Proof.
  induction 1; intros k Hk; simpl in *;
    try (destruct Hk as [Hk|Hk]; [discriminate|exact Hk]).
  - apply IHMatches2. destruct Hk as [Hk|Hk].
    + apply orb_true_iff in Hk. destruct Hk as [Hk|Hk]; [|left; exact Hk].
      right. apply IHMatches1. left. exact Hk.
    + right. apply IHMatches1. right. exact Hk.
  - apply IHMatches. destruct Hk as [Hk|Hk]; [|right; exact Hk].
    apply andb_true_iff in Hk. left. apply Hk.
  - apply IHMatches. destruct Hk as [Hk|Hk]; [|right; exact Hk].
    apply andb_true_iff in Hk. left. apply Hk.
  - destruct Hk as [Hk|Hk]; [discriminate|].
    apply IHMatches2. right. apply IHMatches1. right. exact Hk.
  - destruct Hk as [Hk|Hk]; [discriminate|].
    apply IHMatches2. right. apply IHMatches1. right. exact Hk.
  - destruct (k =? n)%nat eqn:E; [discriminate|]. simpl in Hk.
    apply IHMatches. exact Hk.
Qed.

(** What [match_at] and [search] return is a match, with its groups. *)
Lemma match_at_groups (r : regex) (pos : nat) (s : string) (m : rmatch) :
  match_at fl r pos s = Some m ->
  exists st', Matches fl r (MState pos s []) st'
              /\ m = RMatch pos (ms_pos st') (ms_caps st').
Proof.
  unfold match_at. intros H. apply run_sound in H.
  destruct H as (st' & Hm & Hk). exists st'. split; [exact Hm|].
  injection Hk as <-. reflexivity.
Qed.

Lemma search_from_groups (r : regex) (s : string) (pos : nat) (m : rmatch) :
  search_from fl r pos s = Some m ->
  exists pre suf st',
    s = pre ++ suf
    /\ Matches fl r (MState (pos + String.length pre) suf []) st'
    /\ m = RMatch (pos + String.length pre) (ms_pos st') (ms_caps st').
Proof.
  revert pos. induction s as [|c s IH]; intros pos H; simpl in H.
  - destruct (match_at fl r pos EmptyString) as [m0|] eqn:E; [|discriminate].
    injection H as ->. apply match_at_groups in E.
    destruct E as (st' & Hm & ->). exists EmptyString, EmptyString, st'.
    simpl. rewrite Nat.add_0_r. auto.
  - destruct (match_at fl r pos (String c s)) as [m0|] eqn:E.
    + injection H as ->. apply match_at_groups in E.
      destruct E as (st' & Hm & ->). exists EmptyString, (String c s), st'.
      simpl. rewrite Nat.add_0_r. auto.
    + apply IH in H. destruct H as (pre & suf & st' & -> & Hm & ->).
      exists (String c pre), suf, st'. simpl.
      replace (pos + S (String.length pre)) with (S pos + String.length pre)
        by lia.
      auto.
Qed.

(** The text of a group of a match that [search] returns: characters that
    the pattern of the group accepts, as many at least as it demands. *)
Lemma search_group_text (r : regex) (s : string) (m : rmatch) (n : nat)
      (t : string) :
  search fl r s = Some m -> group_opt m n = Some t ->
  exists body, List.In body (group_bodies n r)
               /\ all_chars (accepts fl body) t = true
               /\ min_len body <= String.length t.
Proof.
  unfold search. intros H Ht. apply search_from_groups in H.
  destruct H as (pre & suf & st' & _ & Hm & ->). unfold group_opt in Ht.
  simpl in Ht.
  destruct (Matches_group Hm _ Ht)
    as [Hl|(body & a & b & Hin & Hb & ->)];
    [discriminate|].
  exists body. split; [exact Hin|].
  destruct (Matches_consumed Hb) as (p & E & P).
  rewrite (@consumed_text a b p E P).
  exact (@Matches_accepts body a b Hb p E P).
Qed.

Lemma search_group_bound (r : regex) (s : string) (m : rmatch) (n : nat) :
  search fl r s = Some m -> binds n r = true ->
  exists t, group_opt m n = Some t /\ group m n = t.
Proof.
  unfold search. intros H Hb. apply search_from_groups in H.
  destruct H as (pre & suf & st' & _ & Hm & ->).
  pose proof (Matches_binds Hm n (or_introl Hb)) as Hn.
  unfold group, group_opt. simpl.
  destruct (lookup_cap n (ms_caps st')) as [t|];
    [|contradiction Hn; reflexivity].
  exists t. split; reflexivity.
Qed.

(** A pattern that needs a character of some kind is found only in a text
    that holds one. *)
Lemma search_needs (p : ascii -> bool) (r : regex) (s : string) :
  needs fl p r = true -> any_char p s = false -> search fl r s = None.
Proof.
  intros Hn Hs. unfold search.
  destruct (search_from fl r 0 s) as [m|] eqn:E; [|reflexivity].
  assert (H : any_char p s = true).
  { apply (@found_search_implies fl r (any_char p)) with (pos := 0).
    - intros pos t st' Hm. exact (Matches_needs p Hm Hn).
    - intros d t Ht. simpl. rewrite Ht. apply orb_true_r.
    - rewrite E. reflexivity. }
  congruence.
Qed.

End Consumed.

(* ================================================================== *)
(** * X3, X4: the operation of a statement and its collection *)
(* ================================================================== *)

Lemma not_quote_chars (fl : flags) (t : string) :
  all_chars (accepts fl (Plus Patterns.not_quote)) t = true ->
  mem_char dq t = false /\ mem_char sq t = false.
Proof.
  induction t as [|c t IH]; cbn [all_chars mem_char]; [split; reflexivity|].
  intros H. apply andb_true_iff in H. destruct H as [Hc Ht].
  destruct (IH Ht) as [Hd Hs]. rewrite Hd, Hs.
  cbn [accepts Plus Patterns.not_quote] in Hc. rewrite orb_diag in Hc.
  apply negb_true_iff in Hc.
  assert (Hi : in_items [IChar dq; IChar sq] c = false).
  { unfold set_matches in Hc. apply orb_false_iff in Hc. apply Hc. }
  cbn [in_items existsb item_matches] in Hi.
  rewrite orb_false_r in Hi. apply orb_false_iff in Hi.
  destruct Hi as [H1 H2].
  rewrite Ascii.eqb_sym, H1, Ascii.eqb_sym, H2. split; reflexivity.
Qed.

(** The group that holds a collection name. *)
Lemma collection_group (fl : flags) (r : regex) (n : nat) (s : string)
      (m : rmatch) :
  search fl r s = Some m ->
  binds n r = true -> group_bodies n r = [Plus Patterns.not_quote] ->
  well_named (group m n).
Proof.
  intros Hs Hb Hg.
  destruct (@search_group_bound fl r s m n Hs Hb) as (t & Ht & ->).
  destruct (@search_group_text fl r s m n t Hs Ht) as (body & Hin & Ha & Hl).
  rewrite Hg in Hin. destruct Hin as [<-|[]].
  destruct (@not_quote_chars fl t Ha) as [Hd Hq].
  split; [|split; assumption].
  intros ->. simpl in Hl. lia.
Qed.

Section Parsers.

Import Patterns.
Variable fs : string -> option element.

Lemma _parse_insert_collection (s : string) (op : operation) :
  _parse_insert fs s = ok op ->
  exists c doc, op = InsertOne c doc /\ well_named c.
Proof.
  unfold _parse_insert. intros H.
  destruct (search IGNORECASE_DOTALL mongo_insert s) as [m|] eqn:E1.
  - destruct (Json.loads _) as [doc|]; [|discriminate]. injection H as <-.
    eexists; eexists; split; [reflexivity|].
    exact (@collection_group _ _ 1 _ _ E1 eq_refl eq_refl).
  - destruct (search IGNORECASE_DOTALL xquery_insert s) as [m|] eqn:E2;
      [|discriminate].
    assert (Hn : well_named (group m 2))
      by exact (@collection_group _ _ 2 _ _ E2 eq_refl eq_refl).
    destruct (startswith _ _ && endswith _ _).
    + destruct (Json.loads _); [|discriminate]. injection H as <-. eauto.
    + destruct (fs _); [|discriminate]. injection H as <-. eauto.
Qed.

Lemma collection_path_query_collection
      (what s target : string) (c : string) (f : option string) (qy : pyval) :
  collection_path_query what s target = inr (c, f, qy) -> well_named c.
Proof.
  unfold collection_path_query. intros H.
  destruct (search no_flags in_collection s) as [m|] eqn:E; [|discriminate].
  destruct (search no_flags target_path target); [|discriminate].
  destruct (query_of _ _); simpl in H; [discriminate|].
  injection H as <- _ _.
  exact (@collection_group _ _ 1 _ _ E eq_refl eq_refl).
Qed.

Lemma _parse_update_collection (s : string) (op : operation) :
  _parse_update s = ok op ->
  exists c f u, op = UpdateMany c f u /\ well_named c.
Proof.
  unfold _parse_update. intros H.
  destruct (search IGNORECASE_DOTALL mongo_update s) as [m|] eqn:E1.
  - destruct (Json.loads _); [|discriminate].
    destruct (shorthand_update _); [|discriminate]. injection H as <-.
    do 3 eexists; split; [reflexivity|].
    exact (@collection_group _ _ 1 _ _ E1 eq_refl eq_refl).
  - destruct (search IGNORECASE_DOTALL replace_node s) as [m|].
    + destruct (collection_path_query "replace" s _) as [e|[[c f] qy]] eqn:E;
        simpl in H; [discriminate|].
      injection H as <-. do 3 eexists; split; [reflexivity|].
      eapply collection_path_query_collection; eauto.
    + destruct (search IGNORECASE_DOTALL update_value s) as [m|];
        [|discriminate].
      destruct (collection_path_query "update" s _) as [e|[[c f] qy]] eqn:E;
        simpl in H; [discriminate|].
      injection H as <-. do 3 eexists; split; [reflexivity|].
      eapply collection_path_query_collection; eauto.
Qed.

Lemma _parse_delete_collection (s : string) (op : operation) :
  _parse_delete s = ok op ->
  exists c f, op = DeleteMany c f /\ well_named c.
Proof.
  unfold _parse_delete. intros H.
  destruct (search IGNORECASE_DOTALL mongo_remove s) as [m|] eqn:E1.
  - destruct (Json.loads _); [|discriminate]. injection H as <-.
    do 2 eexists; split; [reflexivity|].
    exact (@collection_group _ _ 1 _ _ E1 eq_refl eq_refl).
  - destruct (search IGNORECASE_DOTALL delete_node s) as [m|]; [|discriminate].
    destruct (collection_path_query "delete" s _) as [e|[[c f] qy]] eqn:E;
      simpl in H; [discriminate|].
    injection H as <-. do 2 eexists; split; [reflexivity|].
    eapply collection_path_query_collection; eauto.
Qed.

Lemma _parse_read_collection (s : string) (vm : var_mappings)
      (op : operation) :
  fst (_parse_read s vm) = ok op ->
  exists c f so p, op = Find c f so p /\ well_named c.
Proof.
  unfold _parse_read. intros H.
  destruct (search IGNORECASE_DOTALL mongo_find s) as [m|] eqn:E1.
  - assert (Hn : well_named (group m 1))
      by exact (@collection_group _ _ 1 _ _ E1 eq_refl eq_refl).
    destruct (is_empty _); simpl in H.
    + injection H as <-. do 4 eexists; eauto.
    + destruct (Json.loads _); simpl in H; [|discriminate].
      injection H as <-. do 4 eexists; eauto.
  - destruct (search IGNORECASE_DOTALL for_in_collection s) as [m|] eqn:E2;
      simpl in H; [|discriminate].
    destruct (query_of _ _); simpl in H; [discriminate|].
    injection H as <-. do 4 eexists; split; [reflexivity|].
    exact (@collection_group _ _ 2 _ _ E2 eq_refl eq_refl).
Qed.

(** X3: the kind of the operation a statement translates to is the kind
    of the first cue of the router that the stripped statement holds: an
    insert for the insert cue, an update when the insert cue is absent and
    the update cue present, and so on; no parser returns an operation of
    another kind than its own. *)
Theorem X3_operation_kind_follows_cue
        (s : string) (vm : var_mappings) (op : operation) :
  fst (parse_xquery fs s vm) = ok op ->
  let x := strip s in
  match op with
  | InsertOne _ _ => insert_cue x = true
  | UpdateMany _ _ _ => insert_cue x = false /\ update_cue x = true
  | DeleteMany _ _ =>
      insert_cue x = false /\ update_cue x = false /\ delete_cue x = true
  | Find _ _ _ _ =>
      insert_cue x = false /\ update_cue x = false /\ delete_cue x = false
      /\ read_cue x = true
  end.
Proof.
  intros H x. unfold parse_xquery in H. fold x in H.
  destruct (insert_cue x) eqn:Ei.
  { apply _parse_insert_collection in H. destruct H as (c & d & -> & _).
    reflexivity. }
  destruct (update_cue x) eqn:Eu.
  { apply _parse_update_collection in H. destruct H as (c & f & u & -> & _).
    split; reflexivity. }
  destruct (delete_cue x) eqn:Ed.
  { apply _parse_delete_collection in H. destruct H as (c & f & -> & _).
    repeat split; reflexivity. }
  destruct (read_cue x) eqn:Er; [|discriminate].
  apply _parse_read_collection in H. destruct H as (c & f & so & p & -> & _).
  repeat split; reflexivity.
Qed.

(** X4: the collection name of every operation that [parse_xquery]
    returns is not empty and holds neither a double nor a single quote. *)
Theorem X4_collection_name_well_formed
        (s : string) (vm : var_mappings) (op : operation) :
  fst (parse_xquery fs s vm) = ok op ->
  op_collection op <> EmptyString
  /\ mem_char dq (op_collection op) = false
  /\ mem_char sq (op_collection op) = false.
Proof.
  intros H. unfold parse_xquery in H.
  destruct (insert_cue _).
  { apply _parse_insert_collection in H. destruct H as (c & d & -> & Hn).
    exact Hn. }
  destruct (update_cue _).
  { apply _parse_update_collection in H. destruct H as (c & f & u & -> & Hn).
    exact Hn. }
  destruct (delete_cue _).
  { apply _parse_delete_collection in H. destruct H as (c & f & -> & Hn).
    exact Hn. }
  destruct (read_cue _); [|discriminate].
  apply _parse_read_collection in H. destruct H as (c & f & so & p & -> & Hn).
  exact Hn.
Qed.

End Parsers.

Lemma X3_operation_kind_follows_cue_witness :
  insert_cue (strip (q "db.collection(`c`).insert({`a`: 1})")) = true.
Proof.
  refine (@X3_operation_kind_follows_cue (fun _ => None)
            (q "db.collection(`c`).insert({`a`: 1})") []
            (InsertOne "c" (PDict [("a", PInt 1)])) _).
  vm_compute; reflexivity.
Defined.

Lemma X4_collection_name_well_formed_witness :
  "c" <> EmptyString /\ mem_char dq "c" = false /\ mem_char sq "c" = false.
Proof.
  refine (@X4_collection_name_well_formed (fun _ => None)
            (q "db.collection(`c`).insert({`a`: 1})") []
            (InsertOne "c" (PDict [("a", PInt 1)])) _).
  vm_compute; reflexivity.
Defined.

(* ================================================================== *)
(** * X5 to X7: entries, numbers and the value of an update *)
(* ================================================================== *)

Lemma replace_char_none (a b : ascii) (s : string) :
  a <> b -> mem_char a (replace_char a b s) = false.
Proof.
  intros Hab. induction s as [|c s IH]; [reflexivity|].
  cbn [replace_char mem_char]. rewrite IH, orb_false_r.
  destruct (Ascii.eqb_spec c a) as [->|Hc].
  - apply Ascii.eqb_neq. exact Hab.
  - apply Ascii.eqb_neq. intros E. apply Hc. symmetry. exact E.
Qed.

Lemma _parse_path_no_slash (path context_var : string) :
  mem_char "/" (_parse_path path context_var) = false.
Proof.
  unfold _parse_path.
  destruct (startswith _ _); [apply replace_char_none; discriminate|].
  destruct (String.eqb _ _); [reflexivity|].
  apply replace_char_none; discriminate.
Qed.

(** X5: a condition fragment that [_parse_single_condition] accepts gives
    a filter with exactly one key, and this key holds no slash (the
    segments of a path are joined with dots). *)
Theorem X5_condition_entry (condition context_var : string)
        (entry : dict pyval) :
  _parse_single_condition condition context_var = ok entry ->
  exists field v, entry = [(field, v)] /\ mem_char "/" field = false.
Proof.
  unfold _parse_single_condition, comparison, existence, string_call.
  intros H.
  repeat match type of H with
         | match ?x with _ => _ end = _ => destruct x
         end;
    try discriminate; injection H as <-; eexists; eexists;
    (split; [reflexivity|apply _parse_path_no_slash]).
Qed.

Lemma X5_condition_entry_witness :
  exists field v,
    [("address.city", PStr "Paris")] = [(field, v)]
    /\ mem_char "/" field = false.
Proof.
  apply (@X5_condition_entry (q "$u/address/city = `Paris`") "u"
           [("address.city", PStr "Paris")]).
  vm_compute; reflexivity.
Defined.

(** X6: [_parse_value] never returns a negative integer: an integer it
    returns is zero or more, and a token that starts with a minus sign
    resolves to a string, the stripped token itself. *)
Theorem X6_no_negative_number :
  (forall s z, _parse_value s = PInt z -> (0 <= z)%Z)
  /\ (forall s, _parse_value (String "-" s) = PStr (strip (String "-" s))).
Proof.
  split.
  - intros s z. unfold _parse_value.
    repeat match goal with
           | |- (if ?b then _ else _) = _ -> _ => destruct b
           end; try discriminate.
    intros H. injection H as <-. apply int_acc_nonneg. lia.
  - intros s. unfold _parse_value.
    assert (E : strip (String "-" s) = String "-" (rstrip_by is_space s)).
    { unfold strip, strip_by. cbn [lstrip_by].
      change (is_space "-") with false. cbv iota.
      apply rstrip_by_keep. reflexivity. }
    rewrite E. generalize (rstrip_by is_space s). intros r.
    destruct (contains_char "(" (String "-" r)); reflexivity.
Qed.

(** X7: the new value of an [update value] statement (lines 247 to 252)
    is resolved as [_parse_value] would resolve it whenever the stripped
    text is not between single quotes and is not one of the words true,
    false, null and none; and, unlike [_parse_value], it is never a
    boolean nor the null value. *)
Theorem X7_update_value_against_value_resolver :
  (forall v, strip v = v -> quoted_with sq v = false -> is_keyword v = false ->
             new_value_of v = _parse_value v)
  /\ (forall v, new_value_of v <> PNone
                /\ forall b, new_value_of v <> PBool b).
Proof.
  split.
  - intros v Hs Hq Hk. unfold _parse_value, new_value_of. rewrite Hs, Hq.
    unfold is_keyword in Hk. cbn [existsb] in Hk.
    rewrite orb_false_r in Hk.
    apply orb_false_iff in Hk. destruct Hk as [H1 Hk].
    apply orb_false_iff in Hk. destruct Hk as [H2 Hk].
    apply orb_false_iff in Hk. destruct Hk as [H3 H4].
    rewrite H1, H2, H3, H4. cbn [orb].
    destruct (quoted_with dq v); [reflexivity|].
    destruct (isdigit v); [reflexivity|].
    destruct (found _); [reflexivity|].
    destruct (contains_char "(" v); reflexivity.
  - intros v. unfold new_value_of.
    destruct (quoted_with dq v); [split; [|intros b]; discriminate|].
    destruct (isdigit v); [split; [|intros b]; discriminate|].
    destruct (found _); split; try intros b; discriminate.
Qed.

(* ================================================================== *)
(** * How the matcher runs: greedy repetitions of a class *)
(* ================================================================== *)

Section Runs.

Variable fl : flags.
Variable R : Type.

Lemma advance_nil (st : mstate) : advance st EmptyString (ms_rest st) = st.
Proof. destruct st. reflexivity. Qed.

Lemma advance_step (st : mstate) (c : ascii) (x rest rest' : string) :
  advance (step st rest') x rest = advance st (String c x) rest.
Proof. unfold advance, step. simpl. f_equal. lia. Qed.

Lemma advance_advance (st : mstate) (x y rest rest' : string) :
  advance (advance st x rest') y rest = advance st (x ++ y) rest.
Proof.
  unfold advance. simpl. rewrite length_app_string. f_equal. lia.
Qed.

Lemma advance_pos (st : mstate) (c : ascii) (x rest : string) :
  (ms_pos st <? ms_pos (advance st (String c x) rest))%nat = true.
Proof. apply Nat.ltb_lt. simpl. lia. Qed.

(** A greedy repetition of a class of characters takes the whole run of
    characters of the class, when what follows the repetition matches
    after it. *)
Lemma greedy_one_run (p : ascii -> bool) (x rest : string)
      (k : mstate -> option R) (res : R) :
  all_chars p x = true -> stops p rest ->
  forall (n : nat) (st : mstate),
    ms_rest st = x ++ rest -> String.length x <= n ->
    k (advance st x rest) = Some res ->
    greedy (Re.one p) k n st = Some res.
Proof.
  intros Hx Hstop. induction x as [|c x IH]; intros n st Hr Hn Hk.
  - simpl in Hr. rewrite <- Hr, advance_nil in Hk.
    destruct n as [|n]; simpl; [exact Hk|].
    unfold Re.one. rewrite Hr. destruct rest as [|d rest]; [exact Hk|].
    simpl in Hstop. rewrite Hstop. exact Hk.
  - simpl in Hx. apply andb_true_iff in Hx. destruct Hx as [Hc Hx].
    destruct n as [|n]; [simpl in Hn; lia|]. simpl in Hn.
    cbn [greedy]. unfold Re.one at 1. simpl in Hr. rewrite Hr, Hc.
    assert (Hlt : (ms_pos st <? ms_pos (step st (x ++ rest)))%nat = true)
      by (apply Nat.ltb_lt; simpl; lia).
    rewrite Hlt. rewrite (IH Hx n (step st (x ++ rest))); auto; [lia|].
    rewrite (advance_step st c). exact Hk.
Qed.

Lemma run_star_one_of (items : list item) (x rest : string)
      (k : mstate -> option R) (res : R) (st : mstate) :
  all_chars (set_matches fl items) x = true ->
  stops (set_matches fl items) rest ->
  ms_rest st = x ++ rest ->
  k (advance st x rest) = Some res ->
  run fl (Star (OneOf items)) st k = Some res.
Proof.
  intros Hx Hstop E Hk.
  change (run fl (Star (OneOf items)) st k)
    with (greedy (Re.one (set_matches fl items)) k
                 (String.length (ms_rest st)) st).
  apply greedy_one_run with (x := x) (rest := rest); auto.
  rewrite E, length_app_string. lia.
Qed.

Lemma run_star_none_of (items : list item) (x rest : string)
      (k : mstate -> option R) (res : R) (st : mstate) :
  all_chars (fun c => negb (set_matches fl items c)) x = true ->
  stops (fun c => negb (set_matches fl items c)) rest ->
  ms_rest st = x ++ rest ->
  k (advance st x rest) = Some res ->
  run fl (Star (NoneOf items)) st k = Some res.
Proof.
  intros Hx Hstop E Hk.
  change (run fl (Star (NoneOf items)) st k)
    with (greedy (Re.one (fun c => negb (set_matches fl items c))) k
                 (String.length (ms_rest st)) st).
  apply greedy_one_run with (x := x) (rest := rest); auto.
  rewrite E, length_app_string. lia.
Qed.

Lemma run_star_any (x rest : string)
      (k : mstate -> option R) (res : R) (st : mstate) :
  all_chars (any_matches fl) x = true ->
  stops (any_matches fl) rest ->
  ms_rest st = x ++ rest ->
  k (advance st x rest) = Some res ->
  run fl (Star Any) st k = Some res.
Proof.
  intros Hx Hstop E Hk.
  change (run fl (Star Any) st k)
    with (greedy (Re.one (any_matches fl)) k
                 (String.length (ms_rest st)) st).
  apply greedy_one_run with (x := x) (rest := rest); auto.
  rewrite E, length_app_string. lia.
Qed.

(** The same for the repetitions that demand one character at least. *)
Lemma run_plus_one_of (items : list item) (x rest : string)
      (k : mstate -> option R) (res : R) (st : mstate) :
  x <> EmptyString ->
  all_chars (set_matches fl items) x = true ->
  stops (set_matches fl items) rest ->
  ms_rest st = x ++ rest ->
  k (advance st x rest) = Some res ->
  run fl (Plus (OneOf items)) st k = Some res.
Proof.
  intros Hne Hx Hstop E Hk.
  destruct x as [|c x]; [contradiction Hne; reflexivity|].
  simpl in Hx. apply andb_true_iff in Hx. destruct Hx as [Hc Hx].
  unfold Plus. cbn [run]. unfold Re.one at 1. simpl in E. rewrite E, Hc.
  apply run_star_one_of with (x := x) (rest := rest); auto.
  rewrite (advance_step st c). exact Hk.
Qed.

Lemma run_plus_none_of (items : list item) (x rest : string)
      (k : mstate -> option R) (res : R) (st : mstate) :
  x <> EmptyString ->
  all_chars (fun c => negb (set_matches fl items c)) x = true ->
  stops (fun c => negb (set_matches fl items c)) rest ->
  ms_rest st = x ++ rest ->
  k (advance st x rest) = Some res ->
  run fl (Plus (NoneOf items)) st k = Some res.
Proof.
  intros Hne Hx Hstop E Hk.
  destruct x as [|c x]; [contradiction Hne; reflexivity|].
  simpl in Hx. apply andb_true_iff in Hx. destruct Hx as [Hc Hx].
  unfold Plus. cbn [run]. unfold Re.one at 1. simpl in E. rewrite E, Hc.
  apply run_star_none_of with (x := x) (rest := rest); auto.
  rewrite (advance_step st c). exact Hk.
Qed.

Lemma run_plus_any (x rest : string)
      (k : mstate -> option R) (res : R) (st : mstate) :
  x <> EmptyString ->
  all_chars (any_matches fl) x = true ->
  stops (any_matches fl) rest ->
  ms_rest st = x ++ rest ->
  k (advance st x rest) = Some res ->
  run fl (Plus Any) st k = Some res.
Proof.
  intros Hne Hx Hstop E Hk.
  destruct x as [|c x]; [contradiction Hne; reflexivity|].
  simpl in Hx. apply andb_true_iff in Hx. destruct Hx as [Hc Hx].
  unfold Plus. cbn [run]. unfold Re.one at 1. simpl in E. rewrite E, Hc.
  apply run_star_any with (x := x) (rest := rest); auto.
  rewrite (advance_step st c). exact Hk.
Qed.

(** A literal character and a literal text. *)
Lemma run_chr (d c : ascii) (rest : string) (k : mstate -> option R)
      (st : mstate) :
  ms_rest st = String c rest -> chr_matches fl d c = true ->
  run fl (Chr d) st k = k (advance st (String c EmptyString) rest).
Proof. intros E Hc. cbn [run]. unfold Re.one. rewrite E, Hc. reflexivity. Qed.

Lemma chr_matches_refl (c : ascii) : chr_matches fl c c = true.
Proof. unfold chr_matches. rewrite Ascii.eqb_refl. reflexivity. Qed.

Lemma run_lit (w rest : string) (k : mstate -> option R) (st : mstate) :
  ms_rest st = w ++ rest ->
  run fl (lit w) st k = k (advance st w rest).
Proof.
  revert st. induction w as [|c w IH]; intros st E.
  - simpl in E. rewrite <- E, advance_nil. reflexivity.
  - destruct w as [|d w].
    + simpl. apply run_chr; [exact E|apply chr_matches_refl].
    + change (lit (String c (String d w)))
        with (Seq (Chr c) (lit (String d w))).
      cbn [run]. unfold Re.one at 1. simpl in E. rewrite E, chr_matches_refl.
      rewrite (IH (step st (String d (w ++ rest)))); [|reflexivity].
      rewrite (advance_step st c). reflexivity.
Qed.

(** A group records the text consumed between its parentheses. *)
Lemma capture_advance (n : nat) (st : mstate) (x rest : string)
      (caps : list (nat * string)) :
  ms_rest st = x ++ rest ->
  capture n st (MState (String.length x + ms_pos st) rest caps)
  = MState (String.length x + ms_pos st) rest ((n, x) :: caps).
Proof.
  intros E. unfold capture. simpl. rewrite E.
  replace (String.length x + ms_pos st - ms_pos st) with (String.length x)
    by lia.
  rewrite take_app. reflexivity.
Qed.

End Runs.

(* ================================================================== *)
(** * Identifiers, tokens and the path of a condition *)
(* ================================================================== *)

Lemma identifier_parts (s : string) :
  is_identifier s = true -> s <> EmptyString /\ all_chars is_word s = true.
Proof.
  unfold is_identifier. intros H. apply andb_true_iff in H.
  destruct H as [Hn Hw]. split; [|exact Hw].
  intros ->. discriminate.
Qed.

Lemma run_seq (fl : flags) (R : Type) (a b : regex) (st : mstate)
      (k : mstate -> option R) :
  run fl (Seq a b) st k = run fl a st (fun st' => run fl b st' k).
Proof. reflexivity. Qed.

Lemma run_group (fl : flags) (R : Type) (n : nat) (r : regex) (st : mstate)
      (k : mstate -> option R) :
  run fl (Group n r) st k = run fl r st (fun st' => k (capture n st st')).
Proof. reflexivity. Qed.

Lemma greedy_stop (R : Type)
      (body : mstate -> (mstate -> option R) -> option R)
      (k : mstate -> option R) (n : nat) (st : mstate) :
  (forall K, body st K = None) -> greedy body k n st = k st.
Proof. intros H. destruct n; simpl; [reflexivity|]. rewrite H. reflexivity. Qed.

(** Facts about the classes of characters, by enumeration. *)
Lemma ascii_implication (p q : ascii -> bool) :
  all_ascii (fun c => implb (p c) (q c)) = true ->
  forall c, p c = true -> q c = true.
Proof.
  intros H c Hc. pose proof (all_ascii_spec _ H c) as Hx. cbv beta in Hx.
  rewrite Hc in Hx. exact Hx.
Qed.

Lemma word_char_classes (c : ascii) :
  is_word c = true ->
  set_matches no_flags [IWord] c = true
  /\ negb (set_matches no_flags [IChar "/"; ISpace] c) = true
  /\ any_matches no_flags c = true
  /\ is_space c = false
  /\ Ascii.eqb c "$" = false.
Proof.
  intros Hc. repeat split.
  - revert c Hc. apply ascii_implication. vm_compute; reflexivity.
  - revert c Hc. apply ascii_implication. vm_compute; reflexivity.
  - revert c Hc. apply ascii_implication. vm_compute; reflexivity.
  - apply negb_true_iff. revert c Hc.
    apply (ascii_implication is_word (fun c => negb (is_space c))).
    vm_compute; reflexivity.
  - apply negb_true_iff. revert c Hc.
    apply (ascii_implication is_word (fun c => negb (Ascii.eqb c "$"))).
    vm_compute; reflexivity.
Qed.

Lemma space_char_classes (c : ascii) :
  is_space c = true ->
  set_matches no_flags [ISpace] c = true
  /\ negb (set_matches no_flags [IChar "/"; ISpace] c) = false
  /\ chr_matches no_flags "/" c = false
  /\ set_matches no_flags [IWord] c = false.
Proof.
  intros Hc. repeat split.
  - revert c Hc. apply ascii_implication. vm_compute; reflexivity.
  - apply negb_false_iff. revert c Hc. apply ascii_implication.
    vm_compute; reflexivity.
  - apply negb_true_iff. revert c Hc.
    apply (ascii_implication is_space
             (fun c => negb (chr_matches no_flags "/" c))).
    vm_compute; reflexivity.
  - apply negb_true_iff. revert c Hc.
    apply (ascii_implication is_space
             (fun c => negb (set_matches no_flags [IWord] c))).
    vm_compute; reflexivity.
Qed.

Lemma token_parts (s : string) :
  is_token s = true -> s <> EmptyString /\ all_chars token_char s = true.
Proof.
  unfold is_token. intros H. apply andb_true_iff in H.
  destruct H as [Hn Hw]. split; [|exact Hw].
  intros ->. discriminate.
Qed.

Lemma token_char_classes (c : ascii) :
  token_char c = true ->
  any_matches no_flags c = true
  /\ is_space c = false
  /\ Ascii.eqb c "$" = false
  /\ negb (mem_char c "()") = true.
Proof.
  intros Hc. repeat split.
  - revert c Hc. apply ascii_implication. vm_compute; reflexivity.
  - apply negb_true_iff. revert c Hc.
    apply (ascii_implication token_char (fun c => negb (is_space c))).
    vm_compute; reflexivity.
  - apply negb_true_iff. revert c Hc.
    apply (ascii_implication token_char (fun c => negb (Ascii.eqb c "$"))).
    vm_compute; reflexivity.
  - revert c Hc.
    apply (ascii_implication token_char (fun c => negb (mem_char c "()"))).
    vm_compute; reflexivity.
Qed.

Section Comparison.

Variable R : Type.

(** One segment after the variable, then white space: the repetition of
    line 412 takes the segment and stops. *)
Lemma run_star_segment (f rest : string) (k : mstate -> option R) (res : R)
      (st : mstate) :
  is_identifier f = true -> at_space rest ->
  ms_rest st = String "/" (f ++ rest) ->
  k (advance st (String "/" f) rest) = Some res ->
  run no_flags (Star segment) st k = Some res.
Proof.
  intros Hf Hrest E Hk. apply identifier_parts in Hf. destruct Hf as [Hne Hw].
  cbn [run]. rewrite E. cbn [String.length greedy].
  set (n := String.length (f ++ rest)).
  set (K := fun st' : mstate =>
              if (ms_pos st <? ms_pos st')%nat
              then greedy (run no_flags segment) k n st' else None).
  assert (HK : run no_flags segment st K = Some res).
  { unfold segment. rewrite run_seq.
    rewrite (@run_chr no_flags R "/" "/" (f ++ rest) _ st E eq_refl).
    apply run_plus_none_of with (x := f) (rest := rest).
    - exact Hne.
    - eapply all_chars_impl; [|exact Hw]. intros c Hc.
      apply (word_char_classes c Hc).
    - destruct rest as [|c rest]; [exact I|]. simpl in Hrest. simpl.
      apply (space_char_classes c Hrest).
    - reflexivity.
    - rewrite advance_advance. unfold K.
      change (String "/" EmptyString ++ f) with (String "/" f).
      rewrite advance_pos. rewrite greedy_stop; [exact Hk|].
      intros K'. unfold segment. rewrite run_seq. cbn [run]. unfold Re.one.
      simpl. destruct rest as [|c rest]; [reflexivity|]. simpl in Hrest.
      destruct (space_char_classes c Hrest) as (_ & _ & Hs & _).
      rewrite Hs. reflexivity. }
  rewrite HK. reflexivity.
Qed.

(** The path of a comparison: the variable and one field. *)
Lemma run_cond_path (ctx f rest : string) (k : mstate -> option R) (res : R)
      (st : mstate) :
  is_identifier ctx = true -> is_identifier f = true -> at_space rest ->
  let path := String "$" (ctx ++ String "/" f) in
  ms_rest st = path ++ rest ->
  k (MState (String.length path + ms_pos st) rest ((1, path) :: ms_caps st))
  = Some res ->
  run no_flags Patterns.cond_path st k = Some res.
Proof.
  intros Hc Hf Hrest path E Hk.
  pose proof (identifier_parts _ Hc) as [Hcne Hcw].
  unfold Patterns.cond_path. cbn [cat]. rewrite run_group, run_seq.
  assert (E1 : ms_rest st = String "$" (ctx ++ String "/" (f ++ rest))).
  { rewrite E. unfold path. simpl. rewrite app_assoc_string. reflexivity. }
  rewrite (@run_chr no_flags R "$" "$" _ _ st E1 eq_refl).
  rewrite run_seq.
  apply run_plus_one_of with (x := ctx) (rest := String "/" (f ++ rest)).
  - exact Hcne.
  - eapply all_chars_impl; [|exact Hcw]. intros c Hw.
    apply (word_char_classes c Hw).
  - reflexivity.
  - reflexivity.
  - rewrite advance_advance.
    apply run_star_segment with (f := f) (rest := rest); auto.
    rewrite advance_advance.
    unfold advance. cbn [ms_pos ms_caps].
    assert (Ep : (String "$" EmptyString ++ ctx) ++ String "/" f = path).
    { unfold path. simpl. reflexivity. }
    rewrite Ep.
    rewrite <- (@capture_advance 1 st path rest (ms_caps st) E) in Hk.
    exact Hk.
Qed.

End Comparison.

(* ================================================================== *)
(** * The comparison patterns on a fragment written with spaces *)
(* ================================================================== *)

Lemma match_at_search_from (fl : flags) (r : regex) (pos : nat) (s : string)
      (m : rmatch) :
  match_at fl r pos s = Some m -> search_from fl r pos s = Some m.
Proof. intros H. destruct s; simpl; rewrite H; reflexivity. Qed.

Lemma search_none (fl : flags) (r : regex) (s : string) :
  (forall pre suf st',
      s = pre ++ suf ->
      ~ Matches fl r (MState (String.length pre) suf []) st') ->
  search fl r s = None.
Proof.
  intros H. unfold search.
  destruct (search_from fl r 0 s) as [m|] eqn:E; [|reflexivity].
  apply search_from_groups in E.
  destruct E as (pre & suf & st' & Es & Hm & _). exfalso.
  exact (H pre suf st' Es Hm).
Qed.

Lemma app_eq_app_string (a b c d : string) :
  a ++ b = c ++ d ->
  exists e, (a = c ++ e /\ d = e ++ b) \/ (c = a ++ e /\ b = e ++ d).
Proof.
  revert c. induction a as [|x a IH]; intros c H.
  - exists c. right. split; [reflexivity|exact H].
  - destruct c as [|y c].
    + exists (String x a). left. split; [reflexivity|]. symmetry. exact H.
    + simpl in H. injection H as -> H.
      destruct (IH c H) as (e & [[-> ->]|[-> ->]]).
      * exists e. left. split; reflexivity.
      * exists e. right. split; reflexivity.
Qed.

Lemma app_nil_r_string (s : string) : s ++ EmptyString = s.
Proof.
  induction s as [|c s IH]; simpl; [reflexivity|]. rewrite IH.
  reflexivity.
Qed.

Section Comparisons.

Import Patterns.

Variables ctx f v : string.
Hypothesis Hctx : is_identifier ctx = true.
Hypothesis Hf : is_identifier f = true.
Hypothesis Hv : is_token v = true.

Let path : string := String "$" (ctx ++ String "/" f).

(** The fragment made of the path, a comparator and a value, one space
    on each side of the comparator. *)
Let fragment (op : string) : string :=
  path ++ String " " (op ++ String " " v).

Lemma at_space_space (s : string) : at_space (String " " s).
Proof. reflexivity. Qed.

Lemma run_spaces (R : Type) (sp : regex) (rest : string)
      (k : mstate -> option R) (res : R) (st : mstate) :
  sp = Star space \/ sp = Plus space ->
  stops (set_matches no_flags [ISpace]) rest ->
  ms_rest st = String " " rest ->
  k (advance st (String " " EmptyString) rest) = Some res ->
  run no_flags sp st k = Some res.
Proof.
  intros [->| ->] Hstop E Hk.
  - apply run_star_one_of with (x := String " " EmptyString) (rest := rest);
      auto.
  - apply run_plus_one_of with (x := String " " EmptyString) (rest := rest);
      auto. discriminate.
Qed.

(** The pattern of a comparator finds the fragment written with that
    comparator: the path is group 1, the value group 2. *)
Lemma comparison_found (sp : regex) (o : string) :
  sp = Star space \/ sp = Plus space ->
  o <> EmptyString -> stops (set_matches no_flags [ISpace]) o ->
  exists e,
    search no_flags (cond_shape sp o) (fragment o)
    = Some (RMatch 0 e [(2, v); (1, path)]).
Proof.
  intros Hsp Hne Hstop.
  pose proof (token_parts _ Hv) as [Hvne Hvw].
  eexists. unfold search. apply match_at_search_from.
  unfold match_at, cond_shape. cbn [cat]. rewrite run_seq.
  apply run_cond_path with (ctx := ctx) (f := f)
                           (rest := String " " (o ++ String " " v)); auto.
  - reflexivity.
  - cbn [ms_pos ms_caps]. rewrite run_seq.
    apply (@run_spaces _ sp (o ++ String " " v)); auto.
    + destruct o as [|c o']; [contradiction Hne; reflexivity|exact Hstop].
    + rewrite run_seq.
      rewrite (@run_lit no_flags _ o (String " " v)); [|reflexivity].
      rewrite run_seq.
      apply (@run_spaces _ sp v); auto.
      * destruct v as [|c v']; [exact I|]. simpl in Hvw.
        apply andb_true_iff in Hvw. destruct Hvw as [Hc _]. simpl.
        destruct (token_char_classes c Hc) as (_ & Hs & _).
        unfold set_matches. simpl. rewrite Hs. reflexivity.
      * rewrite run_group.
        apply run_plus_any with (x := v) (rest := EmptyString).
        -- exact Hvne.
        -- eapply all_chars_impl; [|exact Hvw]. intros c Hc.
           apply (token_char_classes c Hc).
        -- exact I.
        -- cbn [advance ms_rest]. symmetry. apply app_nil_r_string.
        -- match goal with
           | |- context [capture 2 ?st (advance ?st v EmptyString)] =>
               change (advance st v EmptyString)
                 with (MState (String.length v + ms_pos st) EmptyString
                              (ms_caps st));
               rewrite (@capture_advance 2 st v EmptyString (ms_caps st))
           end.
           ++ reflexivity.
           ++ cbn [advance ms_rest]. symmetry. apply app_nil_r_string.
Qed.

Lemma path_chars :
  all_chars (fun c => negb (is_space c)) path = true
  /\ forall h, symbol h = true ->
               all_chars (fun c => negb (Ascii.eqb h c)) path = true.
Proof.
  pose proof (identifier_parts _ Hctx) as [_ Hcw].
  pose proof (identifier_parts _ Hf) as [_ Hfw].
  assert (Hw : forall h, symbol h = true ->
                 forall c, is_word c = true -> negb (Ascii.eqb h c) = true).
  { intros h Hh c Hc. apply negb_true_iff. apply Ascii.eqb_neq. intros <-.
    unfold symbol in Hh. rewrite Hc, andb_false_r in Hh. discriminate. }
  split.
  - unfold path. cbn [all_chars]. rewrite all_chars_app. cbn [all_chars].
    rewrite (all_chars_impl is_word (fun c => negb (is_space c)) ctx),
      (all_chars_impl is_word (fun c => negb (is_space c)) f); auto;
      intros c Hc; apply negb_true_iff; apply (word_char_classes c Hc).
  - intros h Hh. unfold path. cbn [all_chars]. rewrite all_chars_app.
    cbn [all_chars].
    rewrite (all_chars_impl is_word (fun c => negb (Ascii.eqb h c)) ctx),
      (all_chars_impl is_word (fun c => negb (Ascii.eqb h c)) f);
      auto.
    unfold symbol in Hh.
    repeat (apply andb_true_iff in Hh; destruct Hh as [Hh ?]).
    rewrite andb_true_r.
    apply andb_true_iff. split.
    + rewrite Ascii.eqb_sym. assumption.
    + rewrite Ascii.eqb_sym. assumption.
Qed.

Lemma no_dollar_after (op : string) :
  any_char (fun c => Ascii.eqb c "$") op = false ->
  any_char (fun c => Ascii.eqb c "$")
           (ctx ++ String "/" f ++ String " " (op ++ String " " v)) = false.
Proof.
  intros Hop.
  pose proof (identifier_parts _ Hctx) as [_ Hcw].
  pose proof (identifier_parts _ Hf) as [_ Hfw].
  pose proof (token_parts _ Hv) as [_ Hvw].
  assert (Hw : forall s, all_chars is_word s = true ->
                         any_char (fun c => Ascii.eqb c "$") s = false).
  { intros s Hs. apply any_char_none. eapply all_chars_impl; [|exact Hs].
    intros c Hc. apply negb_true_iff. apply (word_char_classes c Hc). }
  assert (Ht : any_char (fun c => Ascii.eqb c "$") v = false).
  { apply any_char_none. eapply all_chars_impl; [|exact Hvw].
    intros c Hc. apply negb_true_iff. apply (token_char_classes c Hc). }
  rewrite any_char_app. cbn [any_char append]. rewrite any_char_app.
  cbn [any_char]. rewrite any_char_app. cbn [any_char].
  rewrite (Hw ctx Hcw), (Hw f Hfw), Ht, Hop. reflexivity.
Qed.

Lemma spaces_accepted (sp : regex) (w : string) :
  sp = Star space \/ sp = Plus space ->
  all_chars (accepts no_flags sp) w = true -> all_chars is_space w = true.
Proof.
  intros Hsp. apply all_chars_impl. intros c.
  destruct Hsp as [->| ->]; revert c; apply ascii_implication;
    vm_compute; reflexivity.
Qed.

Lemma path_accepted (p : string) :
  all_chars (accepts no_flags cond_path) p = true ->
  all_chars (fun c => negb (is_space c)) p = true.
Proof.
  apply all_chars_impl. apply ascii_implication. vm_compute; reflexivity.
Qed.

(** The pattern of a comparator does not find the fragment written with
    another comparator, unless the comparator of the fragment begins with
    that of the pattern. *)
Lemma comparison_not_found (sp : regex) (o op : string) :
  sp = Star space \/ sp = Plus space ->
  match o with
  | String c _ =>
      is_space c = false /\ (sp = Star space -> symbol c = true)
  | EmptyString => False
  end ->
  match op with
  | String c _ => is_space c = false
  | EmptyString => False
  end ->
  any_char (fun c => Ascii.eqb c "$") op = false ->
  startswith (op ++ String " " v) o = false ->
  search no_flags (cond_shape sp o) (fragment op) = None.
Proof.
  intros Hsp Ho Hop Hdollar Hstart. apply search_none.
  intros pre suf st' Es Hm.
  unfold cond_shape in Hm. cbn [cat] in Hm.
  inv Hm.
  match goal with H : Matches _ (Seq sp _) _ _ |- _ => inv H end.
  match goal with H : Matches _ (Seq (lit o) _) _ _ |- _ => inv H end.
  match goal with
  | H1 : Matches _ cond_path _ ?s1, H2 : Matches _ sp ?s1 ?s2,
    H3 : Matches _ (lit o) ?s2 _ |- _ =>
      rename H1 into Hpath; rename H2 into Hspace; rename H3 into Hlit;
      rename s1 into sa; rename s2 into sb
  end.
  assert (Hst : startswith (ms_rest sb) o = true)
    by (apply lit_matches; eexists; exact Hlit).
  (* the match starts where the fragment starts *)
  assert (Hpre : pre = EmptyString).
  { destruct pre as [|c pre]; [reflexivity|]. exfalso.
    assert (Hn : any_char (fun c => Ascii.eqb c "$") suf = true).
    { apply (@Matches_needs no_flags (fun c => Ascii.eqb c "$") cond_path
               _ _ Hpath). vm_compute; reflexivity. }
    unfold fragment, path in Es. simpl in Es. injection Es as _ Es.
    pose proof (no_dollar_after op Hdollar) as Hno.
    rewrite app_assoc_string in Es.
    rewrite Es, any_char_app, Hn, orb_true_r in Hno. discriminate. }
  subst pre. simpl in Es. subst suf.
  destruct (Matches_consumed Hpath) as (p & Ep & Pp).
  destruct (Matches_accepts Hpath p Ep Pp) as [Ap _].
  apply path_accepted in Ap.
  destruct (Matches_consumed Hspace) as (w & Ew & Pw).
  destruct (Matches_accepts Hspace w Ew Pw) as [Aw Lw].
  apply (@spaces_accepted sp w Hsp) in Aw.
  cbn [ms_rest] in Ep. unfold fragment in Ep.
  destruct path_chars as [Hpns Hpsym].
  (* what follows the path, in the fragment and in the match *)
  assert (Common : ms_rest sa = String " " (op ++ String " " v) -> False).
  { intros E1. rewrite E1 in Ew. destruct w as [|d w].
    - simpl in Ew. rewrite <- Ew in Hst. destruct o as [|c o]; [exact Ho|].
      simpl in Hst. apply andb_true_iff in Hst. destruct Hst as [Hc _].
      apply Ascii.eqb_eq in Hc. subst c. destruct Ho as [Ho _]. discriminate.
    - simpl in Ew. injection Ew as <- Ew. destruct w as [|d' w].
      + simpl in Ew. rewrite <- Ew in Hst. congruence.
      + cbn [all_chars] in Aw. apply andb_true_iff in Aw.
        destruct Aw as [_ Aw].
        apply andb_true_iff in Aw. destruct Aw as [Hd' _].
        destruct op as [|c op]; [exact Hop|]. simpl in Ew.
        injection Ew as -> _. congruence. }
  symmetry in Ep. apply app_eq_app_string in Ep.
  destruct Ep as (e & [[Ep1 Ep2]|[Ep1 Ep2]]).
  - (* the match of the path goes as far as the path or further *)
    destruct e as [|c e].
    + simpl in Ep2. apply Common. symmetry. exact Ep2.
    + simpl in Ep2. injection Ep2 as <- _. rewrite Ep1 in Ap.
      rewrite all_chars_app in Ap. apply andb_true_iff in Ap.
      destruct Ap as [_ Ap]. simpl in Ap. discriminate.
  - (* it stops inside the path *)
    destruct e as [|c e].
    + simpl in Ep2. apply Common. exact Ep2.
    + assert (Hc : is_space c = false
                   /\ forall h, symbol h = true -> Ascii.eqb h c = false).
      { rewrite Ep1, all_chars_app in Hpns. apply andb_true_iff in Hpns.
        destruct Hpns as [_ Hpns]. simpl in Hpns.
        apply andb_true_iff in Hpns. destruct Hpns as [Hc _].
        apply negb_true_iff in Hc. split; [exact Hc|].
        intros h Hh. specialize (Hpsym h Hh).
        rewrite Ep1, all_chars_app in Hpsym. apply andb_true_iff in Hpsym.
        destruct Hpsym as [_ Hpsym]. simpl in Hpsym.
        apply andb_true_iff in Hpsym. destruct Hpsym as [Hx _].
        apply negb_true_iff in Hx. exact Hx. }
      destruct Hc as [Hcs Hcsym].
      rewrite Ep2 in Ew. destruct w as [|d w].
      * simpl in Ew. rewrite <- Ew in Hst.
        destruct o as [|h o]; [exact Ho|]. destruct Ho as [_ Ho].
        destruct Hsp as [->| ->].
        -- specialize (Hcsym h (Ho eq_refl)). simpl in Hst.
           rewrite Hcsym in Hst. discriminate.
        -- simpl in Lw. lia.
      * simpl in Ew. injection Ew as <- _. simpl in Aw.
        apply andb_true_iff in Aw. destruct Aw as [Hd _]. congruence.
Qed.

End Comparisons.

(* ================================================================== *)
(** * X8: the comparisons of [_parse_single_condition] *)
(* ================================================================== *)

Lemma rstrip_by_app_keep (p : ascii -> bool) (s t : string) :
  t <> EmptyString -> all_chars (fun c => negb (p c)) t = true ->
  rstrip_by p (s ++ t) = s ++ t.
Proof.
  intros Hne Ht. induction s as [|c s IH]; simpl.
  - apply rstrip_by_none, Ht.
  - rewrite IH. destruct (s ++ t) eqn:E; [|reflexivity].
    destruct s; simpl in E; [contradiction|discriminate].
Qed.

Lemma startswith_app (a b : string) : startswith (a ++ b) a = true.
Proof.
  induction a as [|c a IH]; simpl; [apply startswith_nil|].
  rewrite Ascii.eqb_refl. exact IH.
Qed.

Lemma drop_app (a b : string) : drop (String.length a) (a ++ b) = b.
Proof. induction a as [|c a IH]; simpl; [reflexivity|exact IH]. Qed.

Lemma replace_char_absent (a b : ascii) (s : string) :
  mem_char a s = false -> replace_char a b s = s.
Proof.
  induction s as [|c s IH]; cbn [mem_char replace_char]; [reflexivity|].
  intros H. apply orb_false_iff in H. destruct H as [Hc Hs].
  rewrite Ascii.eqb_sym, Hc, (IH Hs). reflexivity.
Qed.

Lemma word_no_slash (s : string) :
  all_chars is_word s = true -> mem_char "/" s = false.
Proof.
  induction s as [|c s IH]; cbn [all_chars mem_char]; [reflexivity|].
  intros H. apply andb_true_iff in H. destruct H as [Hc Hs].
  rewrite (IH Hs), orb_false_r.
  apply Ascii.eqb_neq. intros <-. discriminate Hc.
Qed.

(** The path made of the context variable and one field resolves to the
    field. *)
Lemma _parse_path_field (ctx f : string) :
  all_chars is_word f = true ->
  _parse_path (String "$" (ctx ++ String "/" f)) ctx = f.
Proof.
  intros Hf. unfold _parse_path.
  assert (E : String "$" (ctx ++ String "/" f)
              = String "$" (ctx ++ "/") ++ f).
  { simpl. rewrite app_assoc_string. reflexivity. }
  rewrite E, startswith_app, drop_app.
  apply replace_char_absent, word_no_slash, Hf.
Qed.

Section Comparators.

Variables ctx f v : string.
Hypothesis Hctx : is_identifier ctx = true.
Hypothesis Hf : is_identifier f = true.
Hypothesis Hv : is_token v = true.

Let path : string := String "$" (ctx ++ String "/" f).

Lemma fragment_shape (op : string) :
  "$" ++ ctx ++ "/" ++ f ++ " " ++ op ++ " " ++ v
  = path ++ String " " (op ++ String " " v).
Proof. unfold path. simpl. rewrite app_assoc_string. reflexivity. Qed.

Lemma fragment_stripped (op : string) :
  strip_chars "()" (path ++ String " " (op ++ String " " v))
  = path ++ String " " (op ++ String " " v).
Proof.
  pose proof (token_parts _ Hv) as [Hvne Hvw].
  unfold strip_chars, strip_by, path. cbn [append lstrip_by mem_char].
  change (Ascii.eqb "$" "(" || (Ascii.eqb "$" ")" || false)) with false.
  cbv iota.
  assert (E : String "$" ((ctx ++ String "/" f)
                          ++ String " " (op ++ String " " v))
              = (String "$" ((ctx ++ String "/" f)
                             ++ String " " (op ++ " "))) ++ v).
  { simpl. rewrite !app_assoc_string. simpl. rewrite !app_assoc_string.
    reflexivity. }
  rewrite E. apply rstrip_by_app_keep; [exact Hvne|].
  eapply all_chars_impl; [|exact Hvw].
  intros c Hc. apply (token_char_classes c Hc).
Qed.

Lemma comparison_entry (e : nat) (wrap : pyval -> pyval) :
  comparison (RMatch 0 e [(2, v); (1, path)]) ctx wrap
  = [(f, wrap (_parse_value v))].
Proof.
  pose proof (identifier_parts _ Hf) as [_ Hfw].
  unfold comparison, group, group_opt. cbn [m_caps lookup_cap Nat.eqb].
  assert (Ep : strip path = path).
  { apply strip_by_none. apply (path_chars ctx f Hctx Hf). }
  rewrite Ep. unfold path. rewrite (@_parse_path_field ctx f Hfw).
  rewrite parse_value_stripped. reflexivity.
Qed.

End Comparators.

Ltac refuse_symbolic Hctx Hf Hv o :=
  match goal with
  | |- context [search no_flags (Patterns.cond_symbolic o) ?F] =>
      let E := fresh "E" in
      assert (E : search no_flags (Patterns.cond_symbolic o) F = None)
        by (refine (@comparison_not_found _ _ _ Hctx Hf Hv (Star space) o _
                      (or_introl eq_refl) _ _ _ _);
            [split; [reflexivity|intros _; reflexivity]
            |reflexivity|reflexivity|reflexivity]);
      rewrite E; clear E
  end.

Ltac refuse_keyword Hctx Hf Hv o :=
  match goal with
  | |- context [search no_flags (Patterns.cond_keyword o) ?F] =>
      let E := fresh "E" in
      assert (E : search no_flags (Patterns.cond_keyword o) F = None)
        by (refine (@comparison_not_found _ _ _ Hctx Hf Hv (Plus space) o _
                      (or_intror eq_refl) _ _ _ _);
            [split; [reflexivity|intros E'; discriminate E']
            |reflexivity|reflexivity|reflexivity]);
      rewrite E; clear E
  end.

Ltac accept_symbolic Hctx Hf Hv o :=
  match goal with
  | |- context [search no_flags (Patterns.cond_symbolic o) ?F] =>
      let E := fresh "E" in
      let e := fresh "e" in
      assert (E : exists e, search no_flags (Patterns.cond_symbolic o) F
                            = Some (RMatch 0 e [(2, _); (1, _)]))
        by (refine (@comparison_found _ _ _ Hctx Hf Hv (Star space) o
                      (or_introl eq_refl) _ _);
            [discriminate|reflexivity]);
      destruct E as (e & E); rewrite E; clear E
  end.

Ltac accept_keyword Hctx Hf Hv o :=
  match goal with
  | |- context [search no_flags (Patterns.cond_keyword o) ?F] =>
      let E := fresh "E" in
      let e := fresh "e" in
      assert (E : exists e, search no_flags (Patterns.cond_keyword o) F
                            = Some (RMatch 0 e [(2, _); (1, _)]))
        by (refine (@comparison_found _ _ _ Hctx Hf Hv (Plus space) o
                      (or_intror eq_refl) _ _);
            [discriminate|reflexivity]);
      destruct E as (e & E); rewrite E; clear E
  end.

(** X8: a fragment made of the context variable, one field, a comparator
    and a value, with one space on each side of the comparator, gives the
    one entry of the field with the operator of the comparator applied to
    the resolved value; this for [=], [!=], [>], [<] and the keywords eq,
    ne, gt, ge, lt, le written in lower case. *)
Theorem X8_spaced_comparison
        (ctx f v op : string) (wrap : pyval -> pyval) :
  is_identifier ctx = true -> is_identifier f = true ->
  is_token v = true -> List.In (op, wrap) comparators ->
  _parse_single_condition
    ("$" ++ ctx ++ "/" ++ f ++ " " ++ op ++ " " ++ v) ctx
  = ok [(f, wrap (_parse_value v))].
Proof.
  intros Hctx Hf Hv Hop.
  rewrite (fragment_shape ctx f v op).
  unfold _parse_single_condition. rewrite (fragment_stripped ctx f v Hv op).
  unfold search_or.
  unfold comparators in Hop. cbn [List.In] in Hop.
  repeat (destruct Hop as [Hop|Hop]; [injection Hop as <- <-|]);
    [..|contradiction].
  - accept_symbolic Hctx Hf Hv "=".
    rewrite (comparison_entry ctx f v Hctx Hf). reflexivity.
  - refuse_symbolic Hctx Hf Hv "=". accept_keyword Hctx Hf Hv "eq".
    rewrite (comparison_entry ctx f v Hctx Hf). reflexivity.
  - refuse_symbolic Hctx Hf Hv "=". refuse_keyword Hctx Hf Hv "eq".
    accept_symbolic Hctx Hf Hv "!=".
    rewrite (comparison_entry ctx f v Hctx Hf). reflexivity.
  - refuse_symbolic Hctx Hf Hv "=". refuse_keyword Hctx Hf Hv "eq".
    refuse_symbolic Hctx Hf Hv "!=". accept_keyword Hctx Hf Hv "ne".
    rewrite (comparison_entry ctx f v Hctx Hf). reflexivity.
  - refuse_symbolic Hctx Hf Hv "=". refuse_keyword Hctx Hf Hv "eq".
    refuse_symbolic Hctx Hf Hv "!=". refuse_keyword Hctx Hf Hv "ne".
    accept_symbolic Hctx Hf Hv ">".
    rewrite (comparison_entry ctx f v Hctx Hf). reflexivity.
  - refuse_symbolic Hctx Hf Hv "=". refuse_keyword Hctx Hf Hv "eq".
    refuse_symbolic Hctx Hf Hv "!=". refuse_keyword Hctx Hf Hv "ne".
    refuse_symbolic Hctx Hf Hv ">". accept_keyword Hctx Hf Hv "gt".
    rewrite (comparison_entry ctx f v Hctx Hf). reflexivity.
  - refuse_symbolic Hctx Hf Hv "=". refuse_keyword Hctx Hf Hv "eq".
    refuse_symbolic Hctx Hf Hv "!=". refuse_keyword Hctx Hf Hv "ne".
    refuse_symbolic Hctx Hf Hv ">". refuse_keyword Hctx Hf Hv "gt".
    refuse_symbolic Hctx Hf Hv ">=". accept_keyword Hctx Hf Hv "ge".
    rewrite (comparison_entry ctx f v Hctx Hf). reflexivity.
  - refuse_symbolic Hctx Hf Hv "=". refuse_keyword Hctx Hf Hv "eq".
    refuse_symbolic Hctx Hf Hv "!=". refuse_keyword Hctx Hf Hv "ne".
    refuse_symbolic Hctx Hf Hv ">". refuse_keyword Hctx Hf Hv "gt".
    refuse_symbolic Hctx Hf Hv ">=". refuse_keyword Hctx Hf Hv "ge".
    accept_symbolic Hctx Hf Hv "<".
    rewrite (comparison_entry ctx f v Hctx Hf). reflexivity.
  - refuse_symbolic Hctx Hf Hv "=". refuse_keyword Hctx Hf Hv "eq".
    refuse_symbolic Hctx Hf Hv "!=". refuse_keyword Hctx Hf Hv "ne".
    refuse_symbolic Hctx Hf Hv ">". refuse_keyword Hctx Hf Hv "gt".
    refuse_symbolic Hctx Hf Hv ">=". refuse_keyword Hctx Hf Hv "ge".
    refuse_symbolic Hctx Hf Hv "<". accept_keyword Hctx Hf Hv "lt".
    rewrite (comparison_entry ctx f v Hctx Hf). reflexivity.
  - refuse_symbolic Hctx Hf Hv "=". refuse_keyword Hctx Hf Hv "eq".
    refuse_symbolic Hctx Hf Hv "!=". refuse_keyword Hctx Hf Hv "ne".
    refuse_symbolic Hctx Hf Hv ">". refuse_keyword Hctx Hf Hv "gt".
    refuse_symbolic Hctx Hf Hv ">=". refuse_keyword Hctx Hf Hv "ge".
    refuse_symbolic Hctx Hf Hv "<". refuse_keyword Hctx Hf Hv "lt".
    refuse_symbolic Hctx Hf Hv "<=". accept_keyword Hctx Hf Hv "le".
    rewrite (comparison_entry ctx f v Hctx Hf). reflexivity.
Qed.

Lemma X8_spaced_comparison_witness :
  _parse_single_condition "$u/age ge 18" "u"
  = ok [("age", PDict [("$gte", PInt 18)])].
Proof.
  refine (@X8_spaced_comparison "u" "age" "18" "ge" (operator "$gte")
            _ _ _ _).
  - reflexivity.
  - reflexivity.
  - reflexivity.
  - simpl. tauto.
Defined.

(* ================================================================== *)
(** * X9 to X11: [main], upper-case statements, the binding table *)
(* ================================================================== *)

Section MainFacts.
Variable fs : string -> option element.
Variable dumps : operation -> string.

Lemma main_loop_oblivious (lines : list string) (vm1 vm2 : var_mappings) :
  main_loop fs dumps lines vm1 = main_loop fs dumps lines vm2.
Proof.
  revert vm1 vm2. induction lines as [|line lines IH]; intros vm1 vm2;
    [reflexivity|].
  cbn [main_loop]. destruct (skipped (strip line)); [apply IH|].
  pose proof (parse_xquery_oblivious fs (strip line) vm1 vm2) as E.
  destruct (parse_xquery fs (strip line) vm1) as [r1 w1].
  destruct (parse_xquery fs (strip line) vm2) as [r2 w2].
  simpl in E. subst r2. destruct r1; f_equal; apply IH.
Qed.

Lemma main_loop_app (l1 l2 : list string) (vm : var_mappings) :
  main_loop fs dumps (l1 ++ l2)%list vm
  = (main_loop fs dumps l1 vm ++ main_loop fs dumps l2 [])%list.
Proof.
  revert vm. induction l1 as [|line l1 IH]; intros vm.
  - simpl. apply main_loop_oblivious.
  - cbn [main_loop app]. destruct (skipped (strip line)); [apply IH|].
    destruct (parse_xquery fs (strip line) vm) as [[e|r] w];
      cbn [app]; f_equal; apply IH.
Qed.

(** X9: [main] treats the lines of its input one by one: what it writes
    and reports for a file is the concatenation of what it writes and
    reports for each line alone, and a line gives nothing when it is
    blank or a comment (its first character after stripping is [#]), one
    record or one error report otherwise. *)
Theorem X9_main_line_by_line (lines : list string) :
  main fs dumps lines = flat_map (fun line => main fs dumps [line]) lines
  /\ forall line,
       List.length (main fs dumps [line])
       = if skipped (strip line) then 0 else 1.
Proof.
  split.
  - unfold main. induction lines as [|line lines IH]; [reflexivity|].
    change (line :: lines) with ([line] ++ lines)%list.
    rewrite main_loop_app, IH. reflexivity.
  - intros line. unfold main. cbn [main_loop].
    destruct (skipped (strip line)); [reflexivity|].
    destruct (parse_xquery fs (strip line) []) as [[e|r] w]; reflexivity.
Qed.

End MainFacts.

Section UpperCase.
Import Patterns.

Lemma no_lower_no_collection (s : string) :
  all_chars (fun c => negb (is_lower c)) s = true ->
  search no_flags in_collection s = None.
Proof.
  intros H. apply (@search_needs no_flags is_lower).
  - vm_compute; reflexivity.
  - apply any_char_none, H.
Qed.

(** X10: a hierarchical update or delete statement written without any
    lower-case letter is never translated: the words [in collection] are
    looked for as they are written, although the keywords of the
    statement are matched in any case. *)
Theorem X10_upper_case_update_and_delete (s : string) :
  all_chars (fun c => negb (is_lower c)) s = true ->
  (search IGNORECASE_DOTALL mongo_update s = None ->
   _parse_update s = raise "Collection name not found in replace statement"
   \/ _parse_update s = raise "Collection name not found in update statement"
   \/ _parse_update s = raise ("Unsupported update syntax: " ++ s))
  /\ (search IGNORECASE_DOTALL mongo_remove s = None ->
      _parse_delete s = raise "Collection name not found in delete statement"
      \/ _parse_delete s = raise ("Unsupported delete syntax: " ++ s)).
Proof.
  intros H. pose proof (no_lower_no_collection s H) as Hc. split; intros Hm.
  - unfold _parse_update, collection_path_query. rewrite Hm, Hc.
    destruct (search IGNORECASE_DOTALL replace_node s); [left; reflexivity|].
    destruct (search IGNORECASE_DOTALL update_value s);
      [right; left; reflexivity|right; right; reflexivity].
  - unfold _parse_delete, collection_path_query. rewrite Hm, Hc.
    destruct (search IGNORECASE_DOTALL delete_node s);
      [left; reflexivity|right; reflexivity].
Qed.

(** In upper case a read and an insert are translated, a delete is
    not. *)
Example upper_case_read_and_insert :
  fst (parse_xquery (fun _ => None)
         (q "FOR $U IN COLLECTION(`USERS`) RETURN $U/NAME") [])
  = ok (Find "USERS" (PDict []) None
          (Some (PDict [("NAME", PInt 1); ("_id", PInt 0)])))
  /\ fst (parse_xquery (fun _ => None)
            (q "INSERT NODE {`A`: 1} INTO COLLECTION(`USERS`)") [])
     = ok (InsertOne "USERS" (PDict [("A", PInt 1)]))
  /\ fst (parse_xquery (fun _ => None)
            (q "DELETE NODE $U IN COLLECTION(`USERS`)") [])
     = raise "Collection name not found in delete statement".
Proof. repeat split; vm_compute; reflexivity. Qed.

End UpperCase.

Lemma X10_upper_case_update_and_delete_witness :
  let s := q "DELETE NODE $U IN COLLECTION(`USERS`)" in
  (search IGNORECASE_DOTALL Patterns.mongo_update s = None ->
   _parse_update s = raise "Collection name not found in replace statement"
   \/ _parse_update s
      = raise "Collection name not found in update statement"
   \/ _parse_update s = raise ("Unsupported update syntax: " ++ s))
  /\ (search IGNORECASE_DOTALL Patterns.mongo_remove s = None ->
      _parse_delete s = raise "Collection name not found in delete statement"
      \/ _parse_delete s = raise ("Unsupported delete syntax: " ++ s)).
Proof.
  apply (@X10_upper_case_update_and_delete
           (q "DELETE NODE $U IN COLLECTION(`USERS`)")).
  vm_compute; reflexivity.
Defined.

Section Binding.
Import Patterns.
Variable fs : string -> option element.

Lemma word_group (s : string) (m : rmatch) :
  search IGNORECASE_DOTALL for_in_collection s = Some m ->
  is_identifier (group m 1) = true.
Proof.
  intros Hs.
  destruct (@search_group_bound _ _ s m 1 Hs eq_refl) as (t & Ht & ->).
  destruct (@search_group_text _ _ s m 1 t Hs Ht) as (body & Hin & Ha & Hl).
  destruct Hin as [<-|[]]. unfold is_identifier.
  apply andb_true_iff. split.
  - destruct t; [simpl in Hl; lia|reflexivity].
  - eapply all_chars_impl; [|exact Ha].
    apply ascii_implication. vm_compute; reflexivity.
Qed.

(** X11: [parse_xquery] leaves the binding table as it was, or adds (or
    overwrites) one binding, of an identifier to the collection of the
    operation it returns. *)
Theorem X11_binding_table (s : string) (vm : var_mappings) :
  snd (parse_xquery fs s vm) = vm
  \/ exists var c,
       snd (parse_xquery fs s vm) = dict_set var c vm
       /\ is_identifier var = true
       /\ forall op, fst (parse_xquery fs s vm) = ok op ->
                     op_collection op = c.
Proof.
  unfold parse_xquery.
  destruct (insert_cue _); [left; reflexivity|].
  destruct (update_cue _); [left; reflexivity|].
  destruct (delete_cue _); [left; reflexivity|].
  destruct (read_cue _); [|left; reflexivity].
  unfold _parse_read.
  destruct (search IGNORECASE_DOTALL mongo_find (strip s)).
  { left. destruct (is_empty _); [reflexivity|].
    destruct (Json.loads _); reflexivity. }
  destruct (search IGNORECASE_DOTALL for_in_collection (strip s)) as [m|] eqn:E;
    [|left; reflexivity].
  right. exists (group m 1), (group m 2). cbn [fst snd].
  split; [reflexivity|]. split; [exact (word_group _ E)|].
  intros op H. destruct (query_of _ _); simpl in H; [discriminate|].
  injection H as <-. reflexivity.
Qed.

End Binding.

(* ================================================================== *)
(** * X12: the sort specification *)
(* ================================================================== *)

Lemma split_go_not_nil (fl : flags) (r : regex) (s : string) :
  forall skip pos piece, split_go fl r skip pos piece s <> [].
Proof.
  induction s as [|c s IH]; intros skip pos piece.
  - destruct skip; simpl; discriminate.
  - destruct skip as [|k]; simpl; [|apply IH].
    destruct (match_at fl r pos (String c s)) as [m|]; [|apply IH].
    destruct (m_start m <? m_end m)%nat; [discriminate|apply IH].
Qed.

Section DictEntries.

Variable V : Type.

Lemma dict_set_not_nil (k : string) (v : V) (d : dict V) :
  dict_set k v d <> [].
Proof.
  destruct d as [|[k0 v0] d]; simpl; [discriminate|].
  destruct (String.eqb k k0); discriminate.
Qed.

Lemma dict_set_entries (k : string) (v : V) (d : dict V) (e : string * V) :
  List.In e (dict_set k v d) -> e = (k, v) \/ List.In e d.
Proof.
  induction d as [|[k0 v0] d IH]; simpl.
  - intros [<-|[]]. left. reflexivity.
  - destruct (String.eqb_spec k k0) as [->|_]; simpl.
    + intros [<-|H]; [left; reflexivity|right; right; exact H].
    + intros [<-|H]; [right; left; reflexivity|].
      destruct (IH H) as [->|H']; [left; reflexivity|right; right; exact H'].
Qed.

(** A dictionary filled entry by entry from a list: it is not empty when
    the list is not, and its entries are among those that were set. *)
Lemma fold_set_entries (A : Type) (g : A -> string * V)
      (P : string * V -> Prop) (l : list A) (d : dict V) :
  (forall x, P (g x)) -> (forall e, List.In e d -> P e) ->
  forall e,
    List.In e (fold_left (fun acc x => dict_set (fst (g x)) (snd (g x)) acc)
                         l d) ->
    P e.
Proof.
  intros Hg. revert d. induction l as [|x l IH]; intros d Hd e He;
    [apply Hd; exact He|].
  simpl in He. eapply IH; [|exact He].
  intros e' He'. apply dict_set_entries in He'. destruct He' as [->|He'].
  - rewrite <- surjective_pairing. apply Hg.
  - apply Hd, He'.
Qed.

Lemma fold_set_not_nil (A : Type) (g : A -> string * V) (l : list A)
      (d : dict V) :
  l <> [] \/ d <> [] ->
  fold_left (fun acc x => dict_set (fst (g x)) (snd (g x)) acc) l d <> [].
Proof.
  revert d. induction l as [|x l IH]; intros d H.
  - destruct H as [H|H]; [contradiction H; reflexivity|exact H].
  - simpl. apply IH. right. apply dict_set_not_nil.
Qed.

End DictEntries.

(** X12: the sort specification that [_parse_order_by] returns is never
    empty, the direction of each of its keys is 1 or -1, and no key holds
    a slash. *)
Theorem X12_sort_specification (order_by_clause context_var : string) :
  _parse_order_by order_by_clause context_var <> []
  /\ forall field direction,
       List.In (field, direction)
               (_parse_order_by order_by_clause context_var) ->
       (direction = PInt 1 \/ direction = PInt (-1))
       /\ mem_char "/" field = false.
Proof.
  unfold _parse_order_by. split.
  - apply (@fold_set_not_nil pyval string (order_part context_var)).
    left. apply split_go_not_nil.
  - intros field direction H.
    apply (@fold_set_entries pyval string (order_part context_var)
             (fun e => (snd e = PInt 1 \/ snd e = PInt (-1))
                       /\ mem_char "/" (fst e) = false)) in H;
      [exact H| |intros e []].
    intros part. unfold order_part.
    destruct (found _); simpl; (split; [|apply _parse_path_no_slash]).
    + right. reflexivity.
    + left. reflexivity.
Qed.

(* ================================================================== *)
(** * X13 to X15: [_xml_to_json] *)
(* ================================================================== *)

Lemma xml_not_list (e : element) : not_list (_xml_to_json e).
Proof.
  intros l. destruct e as [tag attrib text children]. cbn [_xml_to_json].
  destruct text as [t|]; [|discriminate].
  destruct (negb (is_empty t) && negb (is_empty (strip t)));
    [|discriminate].
  destruct (negb (is_nil _)); discriminate.
Qed.

Lemma dict_get_absent (V : Type) (k : string) (d : dict V) :
  (forall e, List.In e d -> fst e <> k) -> dict_get k d = None.
Proof.
  induction d as [|[k0 v0] d IH]; simpl; intros H; [reflexivity|].
  destruct (String.eqb_spec k k0) as [->|_].
  - exfalso. apply (H (k0, v0)); [left; reflexivity|reflexivity].
  - apply IH. intros e He. apply H. right. exact He.
Qed.

Lemma add_child_other (r : dict pyval) (t tag : string) (v : pyval) :
  t <> tag -> dict_get t (add_child r tag v) = dict_get t r.
Proof.
  intros Hne. unfold add_child.
  destruct (dict_get tag r) as [[]|]; apply dict_get_set_other; exact Hne.
Qed.

Lemma add_child_same (r : dict pyval) (t : string) (v : pyval)
      (done : list pyval) :
  dict_get t r = collect done -> Forall not_list done ->
  dict_get t (add_child r t v) = collect (done ++ [v])%list.
Proof.
  intros Hr Hd. unfold add_child. rewrite Hr.
  destruct done as [|v0 [|v1 done]]; simpl.
  - apply dict_get_set_same.
  - inversion Hd as [|? ? Hv0 _]; subst.
    destruct v0; try apply dict_get_set_same.
    exfalso. exact (Hv0 _ eq_refl).
  - apply dict_get_set_same.
Qed.

Lemma add_child_not_nil (r : dict pyval) (tag : string) (v : pyval) :
  add_child r tag v <> [].
Proof.
  unfold add_child. destruct (dict_get tag r) as [[]|];
    apply dict_set_not_nil.
Qed.

Lemma fold_add_child (t : string) (pairs : list (string * pyval)) :
  Forall (fun p => not_list (snd p)) pairs ->
  forall (r : dict pyval) (done : list pyval),
    dict_get t r = collect done -> Forall not_list done ->
    dict_get t (fold_left (fun r child => add_child r (fst child) (snd child))
                          pairs r)
    = collect (done ++ map snd
                 (filter (fun p => String.eqb (fst p) t) pairs))%list.
Proof.
  induction 1 as [|[tg v] pairs Hv _ IH]; intros r done Hr Hd.
  - simpl. rewrite app_nil_r. exact Hr.
  - cbn [fold_left filter fst snd].
    destruct (String.eqb_spec tg t) as [->|Hne].
    + cbn [map snd]. 
      replace (done ++ v :: map snd
                 (filter (fun p => String.eqb (fst p) t) pairs))%list
        with ((done ++ [v]) ++ map snd
                (filter (fun p => String.eqb (fst p) t) pairs))%list
        by (rewrite <- app_assoc; reflexivity).
      apply IH.
      * apply add_child_same; assumption.
      * apply Forall_app. split; [exact Hd|].
        constructor; [exact Hv|constructor].
    + apply IH; [|exact Hd]. rewrite add_child_other; [exact Hr|].
      intros E. apply Hne. symmetry. exact E.
Qed.

Lemma fold_add_child_not_nil (pairs : list (string * pyval))
      (r : dict pyval) :
  pairs <> [] \/ r <> [] ->
  fold_left (fun r child => add_child r (fst child) (snd child)) pairs r
  <> [].
Proof.
  revert r. induction pairs as [|p pairs IH]; intros r H.
  - destruct H as [H|H]; [contradiction H; reflexivity|exact H].
  - simpl. apply IH. right. apply add_child_not_nil.
Qed.

Lemma children_pairs (t : string) (children : list element) :
  map snd (filter (fun p => String.eqb (fst p) t)
             (map (fun c => (tag_of c, _xml_to_json c)) children))
  = map _xml_to_json (children_with t children).
Proof.
  unfold children_with. induction children as [|c children IH];
    [reflexivity|].
  cbn [map filter fst]. destruct (String.eqb (tag_of c) t); cbn [map snd];
    rewrite IH; reflexivity.
Qed.

Lemma children_pairs_not_list (children : list element) :
  Forall (fun p => not_list (snd p))
         (map (fun c => (tag_of c, _xml_to_json c)) children).
Proof.
  induction children as [|c children IH]; constructor; [|exact IH].
  apply xml_not_list.
Qed.

Lemma xml_to_json_members (tag : string) (attrib : list (string * string))
      (text : option string) (children : list element) :
  _xml_to_json (Element tag attrib text children)
  = match text with
    | Some t =>
        if negb (is_empty t) && negb (is_empty (strip t)) then
          if negb (is_nil (members attrib children))
          then PDict (dict_set "#text" (PStr (strip t))
                               (members attrib children))
          else PStr (strip t)
        else PDict (members attrib children)
    | None => PDict (members attrib children)
    end.
Proof. reflexivity. Qed.

Lemma fold_set_entries_in (V A : Type) (g : A -> string * V)
      (P : string * V -> Prop) (l : list A) (d : dict V) :
  (forall x, List.In x l -> P (g x)) -> (forall e, List.In e d -> P e) ->
  forall e,
    List.In e (fold_left (fun acc x => dict_set (fst (g x)) (snd (g x)) acc)
                         l d) ->
    P e.
Proof.
  revert d. induction l as [|x l IH]; intros d Hg Hd e He;
    [apply Hd; exact He|].
  simpl in He. eapply IH; [| |exact He].
  - intros y Hy. apply Hg. right. exact Hy.
  - intros e' He'. apply dict_set_entries in He'. destruct He' as [->|He'].
    + rewrite <- surjective_pairing. apply Hg. left. reflexivity.
    + apply Hd, He'.
Qed.

Lemma attributes_keys (attrib : list (string * string)) (e : string * pyval) :
  List.In e (attributes attrib) ->
  exists k v, List.In (k, v) attrib /\ e = (String "@" k, PStr v).
Proof.
  unfold attributes. intros H.
  apply (@fold_set_entries_in pyval (string * string)
           (fun kv => (String "@" (fst kv), PStr (snd kv)))
           (fun e => exists k v, List.In (k, v) attrib
                                 /\ e = (String "@" k, PStr v))
           attrib []) in H; [exact H| |intros e' []].
  intros [k v] Hin. exists k, v. split; [exact Hin|reflexivity].
Qed.

Lemma fold_set_other_key (V A : Type) (g : A -> string * V) (key : string)
      (l : list A) (d : dict V) :
  (forall x, List.In x l -> fst (g x) <> key) ->
  dict_get key (fold_left (fun acc x => dict_set (fst (g x)) (snd (g x)) acc)
                          l d)
  = dict_get key d.
Proof.
  revert d. induction l as [|x l IH]; intros d H; [reflexivity|].
  simpl. rewrite IH by (intros y Hy; apply H; right; exact Hy).
  apply dict_get_set_other. intros E. apply (H x); [left; reflexivity|].
  symmetry. exact E.
Qed.

Lemma attributes_get (attrib : list (string * string)) (k v : string) :
  List.In (k, v) attrib -> NoDup (map fst attrib) ->
  dict_get (String "@" k) (attributes attrib) = Some (PStr v).
Proof.
  unfold attributes. generalize (@nil (string * pyval)) as d.
  induction attrib as [|[k0 v0] attrib IH]; intros d Hin Hnd;
    [contradiction|].
  simpl in Hnd. inversion Hnd as [|? ? Hk0 Hnd']; subst.
  destruct Hin as [E|Hin].
  - injection E as -> ->. cbn [fold_left fst snd].
    rewrite (@fold_set_other_key pyval (string * string)
               (fun kv => (String "@" (fst kv), PStr (snd kv)))).
    + apply dict_get_set_same.
    + intros [k1 v1] H1 E. simpl in E. injection E as ->.
      apply Hk0. apply in_map_iff. exists (k, v1).
      split; [reflexivity|exact H1].
  - cbn [fold_left]. apply IH; assumption.
Qed.

Lemma children_with_none (t : string) (children : list element) :
  (forall c, List.In c children -> tag_of c <> t) ->
  children_with t children = [].
Proof.
  unfold children_with. induction children as [|c cs IH]; intros H;
    [reflexivity|].
  simpl. destruct (String.eqb_spec (tag_of c) t) as [E|_].
  - exfalso. apply (H c); [left; reflexivity|exact E].
  - apply IH. intros c' Hc'. apply H. right. exact Hc'.
Qed.

(** X13: in the dictionary an element converts to, a tag (that is not the
    key of an attribute nor the key of the text) is bound to nothing when
    no child has it, to the conversion of the child when one child has
    it, and to the list of the conversions, in document order, when
    several have it. *)
Theorem X13_children_by_tag
        (tag : string) (attrib : list (string * string))
        (text : option string) (children : list element)
        (d : dict pyval) (t : string) :
  _xml_to_json (Element tag attrib text children) = PDict d ->
  (forall k v, List.In (k, v) attrib -> t <> String "@" k) ->
  t <> "#text" ->
  dict_get t d = collect (map _xml_to_json (children_with t children)).
Proof.
  intros Hd Hattr Htext.
  assert (Hm : dict_get t (members attrib children)
               = collect (map _xml_to_json (children_with t children))).
  { unfold members.
    rewrite (@fold_add_child t _ (children_pairs_not_list children)
               (attributes attrib) []).
    - simpl. rewrite children_pairs. reflexivity.
    - simpl. apply dict_get_absent. intros e He.
      apply attributes_keys in He. destruct He as (k & v & Hin & ->).
      simpl. intros E. apply (Hattr k v Hin). symmetry. exact E.
    - constructor. }
  rewrite xml_to_json_members in Hd.
  destruct text as [tx|]; [|injection Hd as <-; exact Hm].
  destruct (negb (is_empty tx) && negb (is_empty (strip tx)));
    [|injection Hd as <-; exact Hm].
  destruct (negb (is_nil (members attrib children))); [|discriminate].
  injection Hd as <-. rewrite dict_get_set_other by exact Htext. exact Hm.
Qed.

(** X14: in the dictionary an element converts to, each attribute is
    found under its name after an at sign (as long as the names of the
    attributes are distinct and no child has that tag), and the text of
    the element, stripped, under the key [#text] when it is not blank. *)
Theorem X14_xml_attributes_and_text
        (tag : string) (attrib : list (string * string))
        (text : option string) (children : list element)
        (d : dict pyval) :
  _xml_to_json (Element tag attrib text children) = PDict d ->
  (forall k v,
      List.In (k, v) attrib -> NoDup (map fst attrib) ->
      (forall c, List.In c children -> tag_of c <> String "@" k) ->
      dict_get (String "@" k) d = Some (PStr v))
  /\ (forall t, text = Some t -> strip t <> EmptyString ->
                dict_get "#text" d = Some (PStr (strip t))).
Proof.
  intros Hd. rewrite xml_to_json_members in Hd. split.
  - intros k v Hin Hnd Hch.
    assert (Hm : dict_get (String "@" k) (members attrib children)
                 = Some (PStr v)).
    { unfold members.
      rewrite (@fold_add_child (String "@" k) _
                 (children_pairs_not_list children)
                 (attributes attrib) [PStr v]).
      - rewrite children_pairs.
        rewrite (@children_with_none (String "@" k) children Hch). reflexivity.
      - simpl. apply attributes_get; assumption.
      - constructor; [intros l; discriminate|constructor]. }
    destruct text as [tx|]; [|injection Hd as <-; exact Hm].
    destruct (negb (is_empty tx) && negb (is_empty (strip tx)));
      [|injection Hd as <-; exact Hm].
    destruct (negb (is_nil (members attrib children))); [|discriminate].
    injection Hd as <-. rewrite dict_get_set_other by discriminate. exact Hm.
  - intros t -> Ht.
    assert (E : negb (is_empty t) && negb (is_empty (strip t)) = true).
    { destruct t as [|c t]; [contradiction Ht; reflexivity|].
      destruct (strip (String c t)); [contradiction Ht; reflexivity|].
      reflexivity. }
    rewrite E in Hd.
    destruct (negb (is_nil (members attrib children))); [|discriminate].
    injection Hd as <-. apply dict_get_set_same.
Qed.

(** X15: an element converts to a string exactly when it has no
    attribute, no child and a text that is not blank; the string is the
    stripped text. *)
Theorem X15_xml_text_only
        (tag : string) (attrib : list (string * string))
        (text : option string) (children : list element) (s : string) :
  _xml_to_json (Element tag attrib text children) = PStr s
  <-> attrib = [] /\ children = []
      /\ exists t, text = Some t /\ strip t = s /\ s <> EmptyString.
Proof.
  rewrite xml_to_json_members. split.
  - intros H. destruct text as [t|]; [|discriminate].
    destruct (negb (is_empty t) && negb (is_empty (strip t))) eqn:E;
      [|discriminate].
    destruct (is_nil (members attrib children)) eqn:En; simpl in H;
      [|discriminate].
    injection H as <-.
    assert (Hm : members attrib children = [])
      by (destruct (members attrib children); [reflexivity|discriminate]).
    assert (Hc : children = []).
    { destruct children as [|c cs]; [reflexivity|]. exfalso.
      revert Hm. unfold members. apply fold_add_child_not_nil.
      left. discriminate. }
    subst children. unfold members in Hm. simpl in Hm.
    assert (Ha : attrib = []).
    { destruct attrib as [|kv attrib]; [reflexivity|]. exfalso.
      revert Hm. unfold attributes.
      apply (@fold_set_not_nil pyval (string * string)
               (fun kv => (String "@" (fst kv), PStr (snd kv)))).
      left. discriminate. }
    subst attrib. repeat split. exists t. repeat split.
    apply andb_true_iff in E. destruct E as [_ E]. intros E'.
    rewrite E' in E. discriminate.
  - intros (-> & -> & t & -> & <- & Hs).
    assert (E : negb (is_empty t) && negb (is_empty (strip t)) = true).
    { destruct t as [|c t]; [contradiction Hs; reflexivity|].
      destruct (strip (String c t)); [contradiction Hs; reflexivity|].
      reflexivity. }
    rewrite E. reflexivity.
Qed.

Lemma X13_children_by_tag_witness :
  dict_get "b"
    [("@id", PStr "1"); ("b", PList [PStr "x"; PStr "y"]);
     ("#text", PStr "hi")]
  = Some (PList [PStr "x"; PStr "y"]).
Proof.
  refine (@X13_children_by_tag "a" [("id", "1")] (Some " hi ")
            [Element "b" [] (Some "x") []; Element "b" [] (Some "y") []]
            [("@id", PStr "1"); ("b", PList [PStr "x"; PStr "y"]);
             ("#text", PStr "hi")]
            "b" _ _ _).
  - vm_compute; reflexivity.
  - intros k v Hin E. discriminate E.
  - discriminate.
Defined.

Lemma X14_xml_attributes_and_text_witness :
  let d := [("@id", PStr "1"); ("b", PList [PStr "x"; PStr "y"]);
            ("#text", PStr "hi")] in
  dict_get "@id" d = Some (PStr "1")
  /\ dict_get "#text" d = Some (PStr "hi").
Proof.
  assert (E : _xml_to_json
                (Element "a" [("id", "1")] (Some " hi ")
                   [Element "b" [] (Some "x") [];
                    Element "b" [] (Some "y") []])
              = PDict [("@id", PStr "1");
                       ("b", PList [PStr "x"; PStr "y"]);
                       ("#text", PStr "hi")])
    by (vm_compute; reflexivity).
  split.
  - apply (proj1 (@X14_xml_attributes_and_text _ _ _ _ _ E) "id" "1").
    + left. reflexivity.
    + repeat constructor. simpl. tauto.
    + intros c [<-|[<-|[]]]; discriminate.
  - apply (proj2 (@X14_xml_attributes_and_text _ _ _ _ _ E) " hi ").
    + reflexivity.
    + vm_compute. discriminate.
Defined.

(* ================================================================== *)
(** * X16: the argument of a shorthand read *)
(* ================================================================== *)

Section LazyRuns.

Variable fl : flags.
Variable R : Type.

(** A lazy repetition of a class of characters stops at the first place
    where what follows the repetition matches: it fails before. *)
Lemma lazy_one_first (p : ascii -> bool) (k : mstate -> option R) (x : R) :
  forall (n : nat) (st : mstate),
    lazy (Re.one p) k n st = Some x ->
    exists y rest,
      ms_rest st = y ++ rest
      /\ k (advance st y rest) = Some x
      /\ forall y1 c y2, y = y1 ++ String c y2 ->
                         k (advance st y1 (String c y2 ++ rest)) = None.
Proof.
  induction n as [|n IH]; intros st H.
  - simpl in H. exists EmptyString, (ms_rest st).
    rewrite advance_nil. repeat split; [exact H|].
    intros [|? ?] c y2 E; discriminate E.
  - cbn [lazy] in H. destruct (k st) as [x0|] eqn:Ek.
    + injection H as ->. exists EmptyString, (ms_rest st).
      rewrite advance_nil. repeat split; [exact Ek|].
      intros [|? ?] c y2 E; discriminate E.
    + unfold Re.one in H. destruct (ms_rest st) as [|c t] eqn:Er;
        [discriminate|].
      destruct (p c); [|discriminate].
      destruct (ms_pos st <? ms_pos (step st t))%nat; [|discriminate].
      apply IH in H. destruct H as (y & rest & Ey & Hk & Hnone).
      simpl in Ey. exists (String c y), rest. split; [|split].
      * simpl. rewrite Ey. reflexivity.
      * rewrite <- (advance_step st c y rest t). exact Hk.
      * intros y1 d y2 E. destruct y1 as [|e y1].
        -- simpl in E. injection E as <- <-.
           simpl. rewrite <- Ey, <- Er.
           replace (advance st EmptyString (ms_rest st)) with st
             by (symmetry; apply advance_nil).
           exact Ek.
        -- simpl in E. injection E as <- ->.
           specialize (Hnone y1 d y2 eq_refl).
           rewrite (advance_step st c y1 _ t) in Hnone. exact Hnone.
Qed.

(** A lazy repetition goes through a run of characters at which what
    follows the repetition fails, and stops where it matches. *)
Lemma lazy_one_run (p q : ascii -> bool) (x rest : string)
      (k : mstate -> option R) (res : R) :
  all_chars p x = true -> all_chars q x = true ->
  (forall st c r, ms_rest st = String c r -> q c = true -> k st = None) ->
  forall (n : nat) (st : mstate),
    ms_rest st = x ++ rest -> String.length x <= n ->
    k (advance st x rest) = Some res ->
    lazy (Re.one p) k n st = Some res.
Proof.
  intros Hp Hq Hfail. induction x as [|c x IH]; intros n st Hr Hn Hk.
  - simpl in Hr. rewrite <- Hr, advance_nil in Hk.
    destruct n as [|n]; simpl; [exact Hk|]. rewrite Hk. reflexivity.
  - simpl in Hp, Hq. apply andb_true_iff in Hp. destruct Hp as [Hpc Hp].
    apply andb_true_iff in Hq. destruct Hq as [Hqc Hq].
    destruct n as [|n]; [simpl in Hn; lia|]. simpl in Hn.
    cbn [lazy]. simpl in Hr. rewrite (Hfail st c (x ++ rest) Hr Hqc).
    unfold Re.one. rewrite Hr, Hpc.
    assert (Hlt : (ms_pos st <? ms_pos (step st (x ++ rest)))%nat = true)
      by (apply Nat.ltb_lt; simpl; lia).
    rewrite Hlt. apply IH; auto; [lia|].
    rewrite (advance_step st c). exact Hk.
Qed.

End LazyRuns.

(** What the matcher finds for a sequence: a match of the first pattern,
    after which the matcher finds the second. *)
Lemma run_seq_sound (fl : flags) (R : Type) (a b : regex) (st : mstate)
      (k : mstate -> option R) (x : R) :
  run fl (Seq a b) st k = Some x ->
  exists st1, Matches fl a st st1 /\ run fl b st1 k = Some x.
Proof.
  rewrite run_seq. intros H. apply run_sound in H.
  destruct H as (st1 & Hm & Hk). exists st1. auto.
Qed.

Lemma search_from_match_at (fl : flags) (r : regex) (s : string) (pos : nat)
      (m : rmatch) :
  search_from fl r pos s = Some m ->
  exists pre suf, s = pre ++ suf
                  /\ match_at fl r (pos + String.length pre) suf = Some m.
Proof.
  revert pos. induction s as [|c s IH]; intros pos H; simpl in H.
  - destruct (match_at fl r pos EmptyString) as [m0|] eqn:E; [|discriminate].
    injection H as ->. exists EmptyString, EmptyString. simpl.
    rewrite Nat.add_0_r. auto.
  - destruct (match_at fl r pos (String c s)) as [m0|] eqn:E.
    + injection H as ->. exists EmptyString, (String c s). simpl.
      rewrite Nat.add_0_r. auto.
    + apply IH in H. destruct H as (pre & suf & -> & Hm).
      exists (String c pre), suf. simpl.
      replace (pos + S (String.length pre)) with (S pos + String.length pre)
        by lia.
      auto.
Qed.

Section ShorthandRead.

Import Patterns.

Lemma closing_parenthesis (c : ascii) :
  chr_matches IGNORECASE_DOTALL ")" c = Ascii.eqb c ")".
Proof.
  assert (H : all_ascii (fun c => Bool.eqb (chr_matches IGNORECASE_DOTALL ")" c)
                                          (Ascii.eqb c ")")) = true)
    by (vm_compute; reflexivity).
  pose proof (all_ascii_spec _ H c) as Hc. cbv beta in Hc.
  apply Bool.eqb_prop in Hc. exact Hc.
Qed.

(** X16: the argument of a shorthand read (group 2 of the pattern of
    line 328) never holds a closing parenthesis: the argument is cut at
    the first one, also inside a string of the literal. *)
Theorem X16_shorthand_read_first_parenthesis (s : string) (m : rmatch) :
  search IGNORECASE_DOTALL mongo_find s = Some m ->
  mem_char ")" (group m 2) = false.
Proof.
  unfold search. intros H. apply search_from_match_at in H.
  destruct H as (pre & suf & _ & H). simpl in H.
  unfold match_at, mongo_find in H. cbn [cat] in H.
  apply run_seq_sound in H. destruct H as (st1 & _ & H).
  apply run_seq_sound in H. destruct H as (st2 & _ & H).
  rewrite run_seq, run_group in H.
  change (run IGNORECASE_DOTALL (StarLazy Any) st2
            (fun st' => run IGNORECASE_DOTALL (Chr ")") (capture 2 st2 st')
               (fun st => Some (RMatch (String.length pre) (ms_pos st)
                                       (ms_caps st)))))
    with (lazy (Re.one (any_matches IGNORECASE_DOTALL))
               (fun st' => run IGNORECASE_DOTALL (Chr ")") (capture 2 st2 st')
                  (fun st => Some (RMatch (String.length pre) (ms_pos st)
                                          (ms_caps st))))
               (String.length (ms_rest st2)) st2) in H.
  apply lazy_one_first in H. destruct H as (y & rest & Ey & Hk & Hnone).
  (* the group is the text the repetition went through *)
  assert (Hg : group m 2 = y).
  { unfold advance in Hk. rewrite (capture_advance 2 st2 y rest _ Ey) in Hk.
    cbn [run] in Hk. unfold Re.one in Hk. cbn [ms_rest] in Hk.
    destruct rest as [|c rest]; [discriminate|].
    destruct (chr_matches IGNORECASE_DOTALL ")" c); [|discriminate].
    injection Hk as <-. reflexivity. }
  rewrite Hg.
  (* and it holds no closing parenthesis *)
  assert (Hy : forall y1 y2, y = y1 ++ y2 -> mem_char ")" y2 = false).
  { intros y1 y2. revert y1. induction y2 as [|c y2 IH]; intros y1 E;
      [reflexivity|].
    cbn [mem_char]. rewrite (IH (y1 ++ String c EmptyString)).
    - rewrite orb_false_r. specialize (Hnone y1 c y2 E).
      unfold advance in Hnone.
      assert (Er : ms_rest st2 = y1 ++ (String c y2 ++ rest)).
      { rewrite Ey, E, app_assoc_string. reflexivity. }
      rewrite (capture_advance 2 st2 y1 _ _ Er) in Hnone.
      cbn [run] in Hnone. unfold Re.one in Hnone. cbn [ms_rest append] in Hnone.
      rewrite closing_parenthesis in Hnone.
      rewrite Ascii.eqb_sym.
      destruct (Ascii.eqb c ")"); [discriminate|reflexivity].
    - rewrite E, app_assoc_string. reflexivity. }
  exact (Hy EmptyString y eq_refl).
Qed.

End ShorthandRead.

Lemma X16_shorthand_read_first_parenthesis_witness :
  mem_char ")" (group (RMatch 0 38 [(2, q "{`a`: `(x"); (1, "users")]) 2)
  = false.
Proof.
  apply (@X16_shorthand_read_first_parenthesis
           (q "db.collection(`users`).find({`a`: `(x)`})")
           (RMatch 0 38 [(2, q "{`a`: `(x"); (1, "users")])).
  vm_compute; reflexivity.
Defined.

(* ================================================================== *)
(** * X17: the literal of a shorthand insert, update or delete *)
(* ================================================================== *)

Section GreedyRuns.

Variable R : Type.

(** A greedy repetition of a class of characters that fails has tried
    what follows after every run of characters of the class. *)
Lemma greedy_one_none (p : ascii -> bool) (k : mstate -> option R) :
  forall (n : nat) (st : mstate),
    greedy (Re.one p) k n st = None ->
    forall z rest,
      ms_rest st = z ++ rest -> String.length z <= n ->
      all_chars p z = true ->
      k (advance st z rest) = None.
Proof.
  induction n as [|n IH]; intros st H z rest E Hn Hz.
  - destruct z; [|simpl in Hn; lia]. simpl in H, E.
    rewrite <- E, advance_nil. exact H.
  - cbn [greedy] in H.
    destruct (Re.one p st _) as [x|] eqn:Eb; [discriminate|].
    destruct z as [|c z].
    + simpl in E. rewrite <- E, advance_nil. exact H.
    + simpl in E, Hz, Hn. apply andb_true_iff in Hz. destruct Hz as [Hc Hz].
      unfold Re.one at 1 in Eb. rewrite E, Hc in Eb.
      assert (Hlt : (ms_pos st <? ms_pos (step st (z ++ rest)))%nat = true)
        by (apply Nat.ltb_lt; simpl; lia).
      rewrite Hlt in Eb.
      rewrite <- (advance_step st c z rest (z ++ rest)).
      apply (IH (step st (z ++ rest)) Eb z rest); [reflexivity|lia|exact Hz].
Qed.

(** A greedy repetition stops at the last place, in the run of characters
    of the class, after which what follows the repetition matches. *)
Lemma greedy_one_last (p : ascii -> bool) (k : mstate -> option R) (x : R) :
  forall (n : nat) (st : mstate),
    greedy (Re.one p) k n st = Some x ->
    String.length (ms_rest st) <= n ->
    exists y rest,
      ms_rest st = y ++ rest
      /\ k (advance st y rest) = Some x
      /\ forall c z rest',
           rest = String c z ++ rest' -> all_chars p (String c z) = true ->
           k (advance st (y ++ String c z) rest') = None.
Proof.
  induction n as [|n IH]; intros st H Hn.
  - simpl in H. exists EmptyString, (ms_rest st). rewrite advance_nil.
    repeat split; [exact H|].
    intros c z rest' E _. rewrite E in Hn. simpl in Hn. lia.
  - cbn [greedy] in H.
    destruct (Re.one p st _) as [x0|] eqn:Eb.
    + injection H as ->. unfold Re.one at 1 in Eb.
      destruct (ms_rest st) as [|c t] eqn:Er; [discriminate|].
      destruct (p c) eqn:Ec; [|discriminate].
      destruct (ms_pos st <? ms_pos (step st t))%nat; [|discriminate].
      apply IH in Eb; [|simpl in *; lia].
      destruct Eb as (y & rest & Ey & Hk & Hlast). simpl in Ey.
      exists (String c y), rest. split; [|split].
      * simpl. rewrite Ey. reflexivity.
      * rewrite <- (advance_step st c y rest t). exact Hk.
      * intros d z rest' E Hz. specialize (Hlast d z rest' E Hz).
        rewrite (advance_step st c) in Hlast. exact Hlast.
    + exists EmptyString, (ms_rest st). rewrite advance_nil.
      repeat split; [exact H|].
      intros c z rest' E Hz. simpl. simpl in Hz.
      apply andb_true_iff in Hz. destruct Hz as [Hc Hz].
      unfold Re.one at 1 in Eb. rewrite E in Eb. cbn [append] in Eb.
      rewrite Hc in Eb.
      assert (Hlt : (ms_pos st <? ms_pos (step st (z ++ rest')))%nat = true)
        by (apply Nat.ltb_lt; simpl; lia).
      rewrite Hlt in Eb.
      rewrite <- (advance_step st c z rest' (z ++ rest')).
      refine (@greedy_one_none p k n (step st (z ++ rest')) Eb z rest'
                eq_refl _ Hz).
      rewrite E in Hn. simpl in Hn. rewrite length_app_string in Hn. lia.
Qed.

End GreedyRuns.

Section ShorthandLiteral.

Import Patterns.

Lemma any_char_dotall (s : string) :
  all_chars (any_matches IGNORECASE_DOTALL) s = true.
Proof. induction s as [|c s IH]; [reflexivity|exact IH]. Qed.

(** The end of a shorthand statement whose last argument runs to a
    closing parenthesis: the argument is followed by the last closing
    parenthesis of the text. *)
Lemma last_parenthesis (n pos : nat) (st1 : mstate) (m : rmatch) :
  run IGNORECASE_DOTALL (Seq (Group n (Star Any)) (Chr ")")) st1
      (fun st => Some (RMatch pos (ms_pos st) (ms_caps st))) = Some m ->
  exists tail,
    ms_rest st1 = group m n ++ String ")" tail /\ mem_char ")" tail = false.
Proof.
  intros H. rewrite run_seq, run_group in H.
  change (run IGNORECASE_DOTALL (Star Any) st1
            (fun st' => run IGNORECASE_DOTALL (Chr ")") (capture n st1 st')
               (fun st => Some (RMatch pos (ms_pos st) (ms_caps st)))))
    with (greedy (Re.one (any_matches IGNORECASE_DOTALL))
               (fun st' => run IGNORECASE_DOTALL (Chr ")") (capture n st1 st')
                  (fun st => Some (RMatch pos (ms_pos st) (ms_caps st))))
               (String.length (ms_rest st1)) st1) in H.
  apply greedy_one_last in H; [|lia].
  destruct H as (y & rest & Ey & Hk & Hlast).
  unfold advance in Hk. rewrite (capture_advance n st1 y rest _ Ey) in Hk.
  cbn [run] in Hk. unfold Re.one in Hk. cbn [ms_rest] in Hk.
  destruct rest as [|c tail]; [discriminate|].
  destruct (chr_matches IGNORECASE_DOTALL ")" c) eqn:Ec; [|discriminate].
  rewrite closing_parenthesis in Ec. apply Ascii.eqb_eq in Ec. subst c.
  injection Hk as <-.
  exists tail. split.
  - unfold group, group_opt. simpl. rewrite Nat.eqb_refl. exact Ey.
  - (* no closing parenthesis further on *)
    assert (Ht : forall z1 z2, tail = z1 ++ z2 -> mem_char ")" z2 = false).
    { intros z1 z2. revert z1. induction z2 as [|c z2 IH]; intros z1 E;
        [reflexivity|].
      cbn [mem_char]. rewrite (IH (z1 ++ String c EmptyString)).
      - rewrite orb_false_r.
        specialize (Hlast ")"%char z1 (String c z2)).
        unfold advance in Hlast.
        assert (Er : ms_rest st1 = (y ++ String ")" z1) ++ String c z2).
        { rewrite Ey, E, !app_assoc_string. reflexivity. }
        rewrite (capture_advance n st1 _ _ _ Er) in Hlast.
        cbn [run] in Hlast. unfold Re.one in Hlast.
        cbn [ms_rest] in Hlast. rewrite closing_parenthesis in Hlast.
        rewrite Ascii.eqb_sym.
        destruct (Ascii.eqb c ")"); [|reflexivity].
        discriminate Hlast.
        + simpl. rewrite E. reflexivity.
        + apply (any_char_dotall (String ")" z1)).
      - rewrite E, app_assoc_string. reflexivity. }
    exact (Ht EmptyString tail eq_refl).
Qed.

Ltac peel H st Hm :=
  apply run_seq_sound in H; destruct H as (st & Hm & H).

(** X17: the literal of a shorthand insert or delete (group 2) and the
    second literal of a shorthand update (group 3) run to the last
    closing parenthesis of the statement: the text of the group is
    followed by a closing parenthesis after which there is none. *)
Theorem X17_shorthand_literal_to_last_parenthesis (s : string) (m : rmatch) :
  (search IGNORECASE_DOTALL mongo_insert s = Some m ->
   exists pre tail,
     s = pre ++ group m 2 ++ String ")" tail /\ mem_char ")" tail = false)
  /\ (search IGNORECASE_DOTALL mongo_remove s = Some m ->
      exists pre tail,
        s = pre ++ group m 2 ++ String ")" tail /\ mem_char ")" tail = false)
  /\ (search IGNORECASE_DOTALL mongo_update s = Some m ->
      exists pre tail,
        s = pre ++ group m 3 ++ String ")" tail /\ mem_char ")" tail = false).
Proof.
  split; [|split]; unfold search; intros H;
    apply search_from_match_at in H; destruct H as (pre & suf & Es & H);
    simpl in H; unfold match_at in H.
  - unfold mongo_insert in H. cbn [cat] in H.
    peel H st1 H1. peel H st2 H2.
    apply last_parenthesis in H. destruct H as (tail & Et & Hno).
    destruct (Matches_suffix H1) as (h1 & E1).
    destruct (Matches_suffix H2) as (h2 & E2). simpl in E1.
    exists (pre ++ h1 ++ h2), tail. split; [|exact Hno].
    rewrite Es, E1, E2, Et, !app_assoc_string. reflexivity.
  - unfold mongo_remove in H. cbn [cat] in H.
    peel H st1 H1. peel H st2 H2.
    apply last_parenthesis in H. destruct H as (tail & Et & Hno).
    destruct (Matches_suffix H1) as (h1 & E1).
    destruct (Matches_suffix H2) as (h2 & E2). simpl in E1.
    exists (pre ++ h1 ++ h2), tail. split; [|exact Hno].
    rewrite Es, E1, E2, Et, !app_assoc_string. reflexivity.
  - unfold mongo_update in H. cbn [cat] in H.
    peel H st1 H1. peel H st2 H2. peel H st3 H3. peel H st4 H4.
    peel H st5 H5.
    apply last_parenthesis in H. destruct H as (tail & Et & Hno).
    destruct (Matches_suffix H1) as (h1 & E1).
    destruct (Matches_suffix H2) as (h2 & E2).
    destruct (Matches_suffix H3) as (h3 & E3).
    destruct (Matches_suffix H4) as (h4 & E4).
    destruct (Matches_suffix H5) as (h5 & E5). simpl in E1.
    exists (pre ++ h1 ++ h2 ++ h3 ++ h4 ++ h5), tail. split; [|exact Hno].
    rewrite Es, E1, E2, E3, E4, E5, Et, !app_assoc_string. reflexivity.
Qed.

End ShorthandLiteral.

(* ================================================================== *)
(** * X18, X19: [convert_xquery_to_mongo] *)
(* ================================================================== *)

Section XdmpFacts.

Import Xdmp.

Variable eval : string -> option pyval.

(** [needle in s], by the matcher and by comparison of texts. *)
Lemma contains_text_spec (needle s : string) :
  contains needle s = Spec.contains_text needle s.
Proof.
  unfold contains, search.
  rewrite (@found_search_from no_flags (lit needle)
             (fun t => startswith t needle)).
  - induction s as [|c s IH]; simpl; [reflexivity|]. rewrite IH. reflexivity.
  - intros pos t. apply (lit_matches needle (MState pos t [])).
Qed.

(** X18: [convert_xquery_to_mongo] calls [eval] for insert and replace
    statements only: a statement without the marker of an insert that has
    the marker of a get, or has not that of a replace, is converted to the
    same dictionary whatever [eval] does, and no exception leaves the
    function. *)
Theorem X18_eval_reached_by_insert_and_replace (xquery : string) :
  contains "xdmp:document-insert" xquery = false ->
  contains "xdmp:document-get" xquery = true
  \/ contains "xdmp:node-replace" xquery = false ->
  convert_xquery_to_mongo eval xquery
  = convert_xquery_to_mongo (fun _ => None) xquery
  /\ convert_xquery_to_mongo eval xquery <> None.
Proof.
  intros Hi Hg. unfold convert_xquery_to_mongo. rewrite Hi.
  destruct (contains "xdmp:document-get" xquery) eqn:Eg.
  - destruct (search no_flags document_get xquery);
      split; [reflexivity|discriminate|reflexivity|discriminate].
  - destruct Hg as [Hg|Hr]; [discriminate|]. rewrite Hr.
    destruct (contains "xdmp:document-delete" xquery);
      [|split; [reflexivity|discriminate]].
    destruct (search no_flags document_delete xquery);
      split; [reflexivity|discriminate|reflexivity|discriminate].
Qed.

Lemma key_char_classes (c : ascii) :
  key_char c = true ->
  any_matches no_flags c = true /\ chr_matches no_flags dq c = false.
Proof.
  intros Hc. split.
  - revert c Hc. apply ascii_implication. vm_compute; reflexivity.
  - apply negb_true_iff. revert c Hc.
    apply (ascii_implication key_char
             (fun c => negb (chr_matches no_flags dq c))).
    vm_compute; reflexivity.
Qed.

(** The pattern of a statement with a key finds the statement, with the
    key as group 1. *)
Lemma key_found (name key : string) :
  is_key key = true ->
  exists e,
    search no_flags
           (cat [lit name; Chr dq; Group 1 (PlusLazy Any); Chr dq; Chr ")"])
           (call_with_key name key)
    = Some (RMatch 0 e [(1, key)]).
Proof.
  intros Hk. unfold is_key in Hk. apply andb_true_iff in Hk.
  destruct Hk as [Hne Hk]. destruct key as [|c key]; [discriminate|].
  simpl in Hk. apply andb_true_iff in Hk. destruct Hk as [Hc Hk].
  destruct (key_char_classes c Hc) as [Hany _].
  eexists. unfold search. apply match_at_search_from.
  unfold match_at, call_with_key. cbn [cat]. rewrite run_seq.
  rewrite (@run_lit no_flags _ name
             (String dq (String c key ++ String dq ")")));
    [|reflexivity].
  rewrite run_seq.
  rewrite (@run_chr no_flags _ dq dq (String c key ++ String dq ")"));
    [|reflexivity|apply chr_matches_refl].
  rewrite run_seq, run_group. unfold PlusLazy. rewrite run_seq.
  set (stg := advance (advance (MState 0 _ []) name _) _ _).
  cbn [run]. unfold Re.one at 1.
  assert (Eg : ms_rest stg = String c (key ++ String dq ")")) by reflexivity.
  rewrite Eg, Hany.
  apply lazy_one_run with (q := fun c => negb (Ascii.eqb c dq))
                          (x := key) (rest := String dq ")").
  - eapply all_chars_impl; [|exact Hk]. intros d Hd.
    apply (key_char_classes d Hd).
  - eapply all_chars_impl; [|exact Hk]. intros d Hd.
    unfold key_char in Hd. apply andb_true_iff in Hd. apply Hd.
  - intros st d r Er Hd. unfold Re.one. cbn [capture ms_rest]. rewrite Er.
    unfold chr_matches. cbn [ignorecase no_flags andb]. rewrite orb_false_r.
    apply negb_true_iff in Hd. rewrite Hd. reflexivity.
  - reflexivity.
  - cbn [step ms_rest]. rewrite length_app_string. lia.
  - rewrite (advance_step stg c key (String dq ")")).
    unfold advance at 1.
    rewrite (@capture_advance 1 stg (String c key) (String dq ")") _ Eg).
    unfold Re.one. cbn [ms_rest]. rewrite chr_matches_refl.
    cbn [step ms_rest]. rewrite chr_matches_refl. reflexivity.
Qed.

(** A text is not in a text put between two others, when it is in none of
    the three and cannot straddle their borders. *)
Lemma startswith_before (a b w : string) (c : ascii) :
  mem_char c w = false ->
  startswith (a ++ String c b) w = true -> startswith a w = true.
Proof.
  revert w. induction a as [|e a IH]; intros w Hc H.
  - destruct w as [|d w]; [reflexivity|]. simpl in H.
    apply andb_true_iff in H. destruct H as [Hd _].
    cbn [mem_char] in Hc. apply orb_false_iff in Hc. destruct Hc as [Hc _].
    apply Ascii.eqb_eq in Hd. subst d. rewrite Ascii.eqb_refl in Hc.
    discriminate.
  - destruct w as [|d w]; [reflexivity|]. simpl in H.
    apply andb_true_iff in H. destruct H as [Hd H]. simpl. rewrite Hd.
    apply IH; [|exact H].
    cbn [mem_char] in Hc. apply orb_false_iff in Hc. apply Hc.
Qed.

Lemma contains_text_before (w key b : string) (c : ascii) :
  mem_char c w = false ->
  Spec.contains_text w key = false ->
  Spec.contains_text w (String c b) = false ->
  Spec.contains_text w (key ++ String c b) = false.
Proof.
  intros Hc. induction key as [|d key IH]; intros Hk Hb; [exact Hb|].
  cbn [Spec.contains_text] in Hk. apply orb_false_iff in Hk.
  destruct Hk as [Hs Hk].
  change (String d key ++ String c b) with (String d (key ++ String c b)).
  cbn [Spec.contains_text]. rewrite (IH Hk Hb), orb_false_r.
  destruct (startswith (String d (key ++ String c b)) w) eqn:E;
    [|reflexivity].
  change (String d (key ++ String c b)) with (String d key ++ String c b) in E.
  apply (@startswith_before (String d key) b w c Hc) in E. congruence.
Qed.

Lemma startswith_app_cases (a r w : string) :
  startswith (a ++ r) w = true ->
  startswith a w = true \/ startswith w a = true.
Proof.
  revert w. induction a as [|c a IH]; intros w H.
  - right. apply startswith_nil.
  - destruct w as [|d w]; [left; reflexivity|]. simpl in H.
    apply andb_true_iff in H. destruct H as [Hd H].
    apply Ascii.eqb_eq in Hd. subst d.
    destruct (IH w H) as [H'|H']; [left|right]; simpl;
      rewrite Ascii.eqb_refl; exact H'.
Qed.

Lemma contains_text_after (w name rest : string) :
  starts_in w name = false ->
  Spec.contains_text w (name ++ rest) = Spec.contains_text w rest.
Proof.
  induction name as [|c name IH]; intros H; [reflexivity|].
  cbn [starts_in] in H. apply orb_false_iff in H. destruct H as [H Hn].
  apply orb_false_iff in H. destruct H as [H1 H2].
  change (String c name ++ rest) with (String c (name ++ rest)).
  cbn [Spec.contains_text]. rewrite (IH Hn).
  destruct (startswith (String c (name ++ rest)) w) eqn:E; [|reflexivity].
  change (String c (name ++ rest)) with (String c name ++ rest) in E.
  apply startswith_app_cases in E. destruct E as [E|E]; congruence.
Qed.

Lemma contains_text_start (w s : string) :
  startswith s w = true -> Spec.contains_text w s = true.
Proof.
  intros H. destruct s; cbn [Spec.contains_text]; rewrite H; reflexivity.
Qed.

(** A marker is not in the statement made of a name and a key when it is
    not in the key and cannot start in the name. *)
Lemma marker_absent (marker name key : string) :
  starts_in marker name = false -> mem_char dq marker = false ->
  Spec.contains_text marker (String dq ")") = false ->
  contains marker key = false ->
  contains marker (call_with_key name key) = false.
Proof.
  intros Hn Hq Hend Hk. rewrite contains_text_spec in *.
  unfold call_with_key. rewrite (@contains_text_after marker name _ Hn).
  cbn [Spec.contains_text].
  rewrite (@contains_text_before marker key ")" dq Hq Hk Hend), orb_false_r.
  destruct marker as [|c marker]; [discriminate Hend|].
  cbn [startswith mem_char] in *. apply orb_false_iff in Hq.
  destruct Hq as [Hq _]. rewrite Ascii.eqb_sym, Hq. reflexivity.
Qed.

(** X19: a get statement with a key between double quotes is converted
    to a find by that key, and a delete statement to a delete by that
    key, provided that the key does not itself hold the marker of a
    branch tested before. *)
Theorem X19_get_and_delete_by_key (key : string) :
  is_key key = true ->
  contains "xdmp:document-insert" key = false ->
  convert_xquery_to_mongo eval (call_with_key "xdmp:document-get(" key)
  = Some (FindOne (by_id key))
  /\ (contains "xdmp:document-get" key = false ->
      contains "xdmp:node-replace" key = false ->
      convert_xquery_to_mongo eval (call_with_key "xdmp:document-delete(" key)
      = Some (DeleteOne (by_id key))).
Proof.
  intros Hk Hi. split.
  - unfold convert_xquery_to_mongo.
    rewrite (@marker_absent "xdmp:document-insert" "xdmp:document-get(" key
               eq_refl eq_refl eq_refl Hi).
    assert (Eg : contains "xdmp:document-get"
                          (call_with_key "xdmp:document-get(" key) = true).
    { rewrite contains_text_spec. apply contains_text_start. reflexivity. }
    rewrite Eg.
    destruct (@key_found "xdmp:document-get(" key Hk) as (e & E).
    change (search no_flags document_get
                   (call_with_key "xdmp:document-get(" key)
            = Some (RMatch 0 e [(1, key)])) in E.
    rewrite E. reflexivity.
  - intros Hg Hr. unfold convert_xquery_to_mongo.
    rewrite (@marker_absent "xdmp:document-insert" "xdmp:document-delete(" key
               eq_refl eq_refl eq_refl Hi).
    rewrite (@marker_absent "xdmp:document-get" "xdmp:document-delete(" key
               eq_refl eq_refl eq_refl Hg).
    rewrite (@marker_absent "xdmp:node-replace" "xdmp:document-delete(" key
               eq_refl eq_refl eq_refl Hr).
    assert (Ed : contains "xdmp:document-delete"
                          (call_with_key "xdmp:document-delete(" key) = true).
    { rewrite contains_text_spec. apply contains_text_start. reflexivity. }
    rewrite Ed.
    destruct (@key_found "xdmp:document-delete(" key Hk) as (e & E).
    change (search no_flags document_delete
                   (call_with_key "xdmp:document-delete(" key)
            = Some (RMatch 0 e [(1, key)])) in E.
    rewrite E. reflexivity.
Qed.

(** A key that holds the marker of an insert sends the statement to the
    branch of the insert, whose pattern it does not match. *)
Example get_with_the_marker_of_an_insert :
  convert_xquery_to_mongo eval
    (call_with_key "xdmp:document-get(" "xdmp:document-insert")
  = Some Unsupported.
Proof. vm_compute; reflexivity. Qed.

End XdmpFacts.

Lemma X18_eval_reached_by_insert_and_replace_witness :
  Xdmp.convert_xquery_to_mongo (fun _ => Some PNone)
    (q "xdmp:document-get(`/books/1.xml`)")
  = Xdmp.convert_xquery_to_mongo (fun _ => None)
      (q "xdmp:document-get(`/books/1.xml`)")
  /\ Xdmp.convert_xquery_to_mongo (fun _ => Some PNone)
       (q "xdmp:document-get(`/books/1.xml`)")
     <> None.
Proof.
  apply (@X18_eval_reached_by_insert_and_replace (fun _ => Some PNone)
           (q "xdmp:document-get(`/books/1.xml`)")).
  - vm_compute; reflexivity.
  - left. vm_compute; reflexivity.
Defined.

Lemma X19_get_and_delete_by_key_witness :
  Xdmp.convert_xquery_to_mongo (fun _ => None)
    (q "xdmp:document-get(`/books/1.xml`)")
  = Some (Xdmp.FindOne (Xdmp.by_id "/books/1.xml"))
  /\ Xdmp.convert_xquery_to_mongo (fun _ => None)
       (q "xdmp:document-delete(`/books/1.xml`)")
     = Some (Xdmp.DeleteOne (Xdmp.by_id "/books/1.xml")).
Proof.
  refine ((fun H => conj (proj1 H) (proj2 H _ _))
            (@X19_get_and_delete_by_key (fun _ => None) "/books/1.xml"
               _ _));
    vm_compute; reflexivity.
Defined.

(* ================================================================== *)
(** * X20, X21: the projection and the target of an update *)
(* ================================================================== *)

Lemma lit_shape (n : nat) (w : string) :
  binds n (lit w) = false /\ group_bodies n (lit w) = [].
Proof.
  induction w as [|c w IH]; [split; reflexivity|].
  destruct w as [|d w]; [split; reflexivity|].
  change (lit (String c (String d w))) with (Seq (Chr c) (lit (String d w))).
  cbn [binds group_bodies]. destruct IH as [-> ->]. split; reflexivity.
Qed.

Lemma match_at_group_text (fl : flags) (r : regex) (pos : nat) (s : string)
      (m : rmatch) (n : nat) :
  match_at fl r pos s = Some m -> binds n r = true ->
  exists body, List.In body (group_bodies n r)
               /\ all_chars (accepts fl body) (group m n) = true
               /\ min_len body <= String.length (group m n).
Proof.
  intros H Hb. apply match_at_groups in H. destruct H as (st' & Hm & ->).
  pose proof (Matches_binds Hm n (or_introl Hb)) as Hn.
  unfold group, group_opt. cbn [m_caps].
  destruct (lookup_cap n (ms_caps st')) as [t|] eqn:Et;
    [|contradiction Hn; reflexivity].
  destruct (Matches_group Hm _ Et) as [Hl|(body & a & b & Hin & Hbd & ->)];
    [discriminate|].
  exists body. split; [exact Hin|].
  destruct (Matches_consumed Hbd) as (p & E & P).
  rewrite (@consumed_text a b p E P).
  exact (@Matches_accepts fl body a b Hbd p E P).
Qed.

Lemma findall_go_sound (fl : flags) (r : regex) (s : string) :
  forall skip pos x,
    List.In x (findall_go fl r skip pos s) ->
    exists pos' s' m, match_at fl r pos' s' = Some m /\ x = group m 1.
Proof.
  induction s as [|c s IH]; intros skip pos x H.
  - destruct skip; contradiction.
  - destruct skip as [|k]; cbn [findall_go] in H; [|eapply IH; exact H].
    destruct (match_at fl r pos (String c s)) as [m|] eqn:E;
      [|eapply IH; exact H].
    destruct (m_start m <? m_end m)%nat; [|eapply IH; exact H].
    destruct H as [<-|H]; [|eapply IH; exact H].
    exists pos, (String c s), m. auto.
Qed.

Lemma referenced_field (return_clause context_var f : string) :
  List.In f (findall no_flags (Patterns.field_pattern context_var)
                     return_clause) ->
  f <> EmptyString /\ all_chars field_char f = true.
Proof.
  unfold findall. intros H. apply findall_go_sound in H.
  destruct H as (pos & s' & m & Hm & ->).
  assert (Hb : binds 1 (Patterns.field_pattern context_var) = true).
  { unfold Patterns.field_pattern. cbn [cat binds].
    rewrite (proj1 (lit_shape 1 context_var)). reflexivity. }
  destruct (@match_at_group_text _ _ _ _ _ 1 Hm Hb) as (body & Hin & Ha & Hl).
  unfold Patterns.field_pattern in Hin. cbn [cat group_bodies] in Hin.
  rewrite (proj2 (lit_shape 1 context_var)) in Hin.
  destruct Hin as [<-|[]]. split.
  - intros E. rewrite E in Hl. simpl in Hl. lia.
  - eapply all_chars_impl; [|exact Ha].
    apply ascii_implication. vm_compute; reflexivity.
Qed.

(** X20: every key of the projection that [_parse_return_clause] returns
    is [_id] with 0, or a field with 1 whose name is not empty and holds
    no slash, white space or comma. *)
Theorem X20_projection_keys
        (return_clause context_var field : string) (v : pyval) :
  List.In (field, v) (_parse_return_clause return_clause context_var) ->
  (field = "_id" /\ v = PInt 0)
  \/ (v = PInt 1 /\ field <> EmptyString
      /\ all_chars field_char field = true).
Proof.
  unfold _parse_return_clause.
  set (fields := findall no_flags (Patterns.field_pattern context_var)
                         return_clause).
  assert (Hp : forall e, List.In e (project_fields fields) ->
                         snd e = PInt 1 /\ fst e <> EmptyString
                         /\ all_chars field_char (fst e) = true).
  { unfold project_fields. intros e He.
    apply (@fold_set_entries_in pyval string (fun f => (f, PInt 1))
             (fun e => snd e = PInt 1 /\ fst e <> EmptyString
                       /\ all_chars field_char (fst e) = true)
             fields []) in He; [exact He| |intros e' []].
    intros f Hf. split; [reflexivity|].
    exact (referenced_field return_clause context_var f Hf). }
  intros H.
  destruct (negb (is_nil fields) && negb (dict_mem "_id" _)).
  - apply dict_set_entries in H. destruct H as [E|H].
    + injection E as -> ->. left. split; reflexivity.
    + right. exact (Hp _ H).
  - right. exact (Hp _ H).
Qed.

Section TargetPath.

Import Patterns.

Variables var seg tail : string.
Hypothesis Hvar : is_identifier var = true.
Hypothesis Hseg : seg <> EmptyString.
Hypothesis Hslash : mem_char "/" seg = false.
Hypothesis Htail : match tail with
                   | EmptyString => True
                   | String c _ => c = "/"%char
                   end.

Lemma target_path_found :
  exists e,
    search no_flags target_path (String "$" (var ++ String "/" (seg ++ tail)))
    = Some (RMatch 0 e [(2, seg); (1, var)]).
Proof.
  pose proof (identifier_parts _ Hvar) as [Hvne Hvw].
  eexists. unfold search. apply match_at_search_from.
  unfold match_at, target_path. cbn [cat]. rewrite run_seq.
  rewrite (@run_chr no_flags _ "$" "$" (var ++ String "/" (seg ++ tail)));
    [|reflexivity|reflexivity].
  rewrite run_seq, run_group.
  apply run_plus_one_of with (x := var) (rest := String "/" (seg ++ tail)).
  - exact Hvne.
  - eapply all_chars_impl; [|exact Hvw]. intros c Hc.
    apply (word_char_classes c Hc).
  - reflexivity.
  - reflexivity.
  - set (st0 := advance (MState 0 _ []) "$" (var ++ String "/" (seg ++ tail))).
    change (advance st0 var (String "/" (seg ++ tail)))
      with (MState (String.length var + ms_pos st0)
                   (String "/" (seg ++ tail)) (ms_caps st0)).
    rewrite (@capture_advance 1 st0 var (String "/" (seg ++ tail))
               (ms_caps st0) eq_refl).
    set (st1 := MState _ _ _).
    unfold Opt. cbn [run].
    match goal with
    | |- match ?a with Some _ => _ | None => _ end = _ =>
        assert (E : a = Some (RMatch 0
                                (String.length seg + S (ms_pos st1))
                                [(2, seg); (1, var)]));
        [|rewrite E; reflexivity]
    end.
    unfold Re.one at 1. cbn [ms_rest st1]. rewrite chr_matches_refl.
    apply run_plus_none_of with (x := seg) (rest := tail).
    + exact Hseg.
    + clear - Hslash. induction seg as [|c s IH]; [reflexivity|].
      cbn [mem_char] in Hslash. apply orb_false_iff in Hslash.
      destruct Hslash as [Hc Hs]. cbn [all_chars]. rewrite (IH Hs), andb_true_r.
      unfold set_matches.
      cbn [in_items existsb item_matches ignorecase no_flags].
      rewrite Ascii.eqb_sym, Hc. reflexivity.
    + destruct tail as [|c t]; [exact I|]. simpl in Htail. subst c.
      reflexivity.
    + reflexivity.
    + set (st2 := step st1 (seg ++ tail)).
      change (advance st2 seg tail)
        with (MState (String.length seg + ms_pos st2) tail (ms_caps st2)).
      rewrite (@capture_advance 2 st2 seg tail (ms_caps st2) eq_refl).
      reflexivity.
Qed.

Lemma target_path_field (m : rmatch) :
  search no_flags target_path (String "$" (var ++ String "/" (seg ++ tail)))
  = Some m ->
  group m 1 = var /\ field_path_of m = Some seg.
Proof.
  destruct target_path_found as (e & ->). intros E. injection E as <-.
  split; [reflexivity|].
  unfold field_path_of, group_opt. cbn [m_caps lookup_cap Nat.eqb].
  destruct seg as [|c s]; [contradiction Hseg; reflexivity|].
  cbn [is_empty negb]. rewrite replace_char_absent by exact Hslash.
  reflexivity.
Qed.

End TargetPath.

Section UpdateField.

Import Patterns.

(** X21: a hierarchical update whose target path has a segment after the
    variable sets the field of that first segment, whatever segments
    follow it: of a nested path [$u/a/b] the pattern of lines 180 and 234
    keeps [a]. *)
Theorem X21_update_sets_first_segment
        (s var seg tail : string) (m : rmatch) (op : operation) :
  search IGNORECASE_DOTALL mongo_update s = None ->
  search IGNORECASE_DOTALL replace_node s = Some m
  \/ (search IGNORECASE_DOTALL replace_node s = None
      /\ search IGNORECASE_DOTALL update_value s = Some m) ->
  strip (group m 1) = String "$" (var ++ String "/" (seg ++ tail)) ->
  is_identifier var = true -> seg <> EmptyString ->
  mem_char "/" seg = false ->
  tail = EmptyString \/ startswith tail "/" = true ->
  _parse_update s = ok op ->
  exists collection filter v,
    op = UpdateMany collection filter (PDict [("$set", PDict [(seg, v)])]).
Proof.
  intros Hm Hform Htarget Hvar Hseg Hslash Htail H.
  assert (Ht : match tail with
               | EmptyString => True
               | String c _ => c = "/"%char
               end).
  { destruct tail as [|c t]; [exact I|]. destruct Htail as [E|E];
      [discriminate|]. cbn [startswith] in E. apply andb_true_iff in E.
    destruct E as [E _]. apply Ascii.eqb_eq in E. symmetry. exact E. }
  destruct (@target_path_found var seg tail Hvar Hseg Hslash Ht) as (e & Ef).
  pose proof (@target_path_field var seg tail Hvar Hseg Hslash Ht _ Ef)
    as [_ Hfield].
  unfold _parse_update in H. rewrite Hm in H.
  destruct Hform as [Hr|[Hr Hu]].
  - rewrite Hr, Htarget in H. unfold collection_path_query in H.
    destruct (search no_flags in_collection s); [|discriminate].
    rewrite Ef, Hfield in H.
    destruct (query_of _ _); simpl in H; [discriminate|].
    injection H as <-. do 3 eexists. reflexivity.
  - rewrite Hr, Hu, Htarget in H. unfold collection_path_query in H.
    destruct (search no_flags in_collection s); [|discriminate].
    rewrite Ef, Hfield in H.
    destruct (query_of _ _); simpl in H; [discriminate|].
    injection H as <-. do 3 eexists. reflexivity.
Qed.

(** The city of the address is the target; the address is replaced. *)
Example update_of_a_nested_target :
  _parse_update
    (q "replace node $u/address/city with {`zip`: 1} in collection(`users`)")
  = ok (UpdateMany "users" (PDict [])
          (PDict [("$set", PDict [("address", PDict [("zip", PInt 1)])])])).
Proof. vm_compute; reflexivity. Qed.

End UpdateField.

Lemma X20_projection_keys_witness :
  ("name" = "_id" /\ PInt 1 = PInt 0)
  \/ (PInt 1 = PInt 1 /\ "name" <> EmptyString
      /\ all_chars field_char "name" = true).
Proof.
  apply (@X20_projection_keys "$u/name, $u/age" "u" "name" (PInt 1)).
  vm_compute. left. reflexivity.
Defined.

Lemma X21_update_sets_first_segment_witness :
  exists collection filter v,
    UpdateMany "users" (PDict [])
      (PDict [("$set", PDict [("address", PDict [("zip", PInt 1)])])])
    = UpdateMany collection filter
        (PDict [("$set", PDict [("address", v)])]).
Proof.
  refine (@X21_update_sets_first_segment
            (q ("replace node $u/address/city with {`zip`: 1} "
                ++ "in collection(`users`)"))
            "u" "address" "/city"
            (RMatch 0 58 [(2, q "{`zip`: 1} "); (1, "$u/address/city")])
            _ _ _ _ _ _ _ _ _).
  - vm_compute; reflexivity.
  - left. vm_compute; reflexivity.
  - vm_compute; reflexivity.
  - reflexivity.
  - discriminate.
  - reflexivity.
  - right. reflexivity.
  - vm_compute; reflexivity.
Defined.

(* ================================================================== *)
(** * X22 to X24: what a text must hold to be translated *)
(* ================================================================== *)

Lemma any_char_mem (c : ascii) (s : string) :
  any_char (Ascii.eqb c) s = mem_char c s.
Proof.
  induction s as [|d s IH]; [reflexivity|]. cbn [any_char mem_char].
  rewrite IH. reflexivity.
Qed.

Section Absent.

Variable p : ascii -> bool.

Lemma any_char_lstrip_by (f : ascii -> bool) (s : string) :
  any_char p s = false -> any_char p (lstrip_by f s) = false.
Proof.
  induction s as [|c s IH]; [reflexivity|]. cbn [lstrip_by].
  intros H. destruct (f c); [|exact H].
  cbn [any_char] in H. apply orb_false_iff in H. apply IH, H.
Qed.

Lemma any_char_rstrip_by (f : ascii -> bool) (s : string) :
  any_char p s = false -> any_char p (rstrip_by f s) = false.
Proof.
  induction s as [|c s IH]; [reflexivity|]. cbn [rstrip_by any_char].
  intros H. apply orb_false_iff in H. destruct H as [Hc Hs].
  destruct (is_empty (rstrip_by f s) && f c); [reflexivity|].
  cbn [any_char]. rewrite Hc, (IH Hs). reflexivity.
Qed.

Lemma any_char_strip_by (f : ascii -> bool) (s : string) :
  any_char p s = false -> any_char p (strip_by f s) = false.
Proof.
  intros H. unfold strip_by. apply any_char_rstrip_by, any_char_lstrip_by, H.
Qed.

Variable fl : flags.
Variable r : regex.
Hypothesis Hneeds : needs fl p r = true.

Lemma match_at_needs (pos : nat) (s : string) :
  any_char p s = false -> match_at fl r pos s = None.
Proof.
  intros H. destruct (match_at fl r pos s) as [m|] eqn:E; [|reflexivity].
  apply match_at_groups in E. destruct E as (st' & Hm & _).
  pose proof (Matches_needs p Hm Hneeds) as Hp. simpl in Hp. congruence.
Qed.

(** A substitution leaves a text alone that holds no character of a kind
    the pattern needs. *)
Lemma sub_needs (repl s : string) :
  any_char p s = false -> sub fl r repl s = s.
Proof.
  unfold sub. generalize 0 at 2. induction s as [|c s IH]; intros pos H;
    [reflexivity|].
  cbn [sub_go]. rewrite (@match_at_needs pos _ H).
  cbn [any_char] in H. apply orb_false_iff in H. destruct H as [_ H].
  rewrite (IH (S pos) H). reflexivity.
Qed.

End Absent.

Section NoVariable.

Import Patterns.

(** X22: a condition fragment that holds no dollar sign is refused:
    [_parse_single_condition] raises the error of an unsupported
    condition, with the fragment as line 409 has stripped it. *)
Theorem X22_condition_without_variable (condition context_var : string) :
  mem_char "$" condition = false ->
  _parse_single_condition condition context_var
  = raise ("Unsupported condition: " ++ strip_chars "()" condition).
Proof.
  intros H. unfold _parse_single_condition, search_or.
  assert (Hc : any_char (Ascii.eqb "$") (strip_chars "()" condition) = false).
  { apply any_char_strip_by. rewrite any_char_mem. exact H. }
  repeat match goal with
         | |- context [search no_flags ?r (strip_chars "()" condition)] =>
             rewrite (@search_needs no_flags (Ascii.eqb "$") r
                        (strip_chars "()" condition))
               by (exact Hc || (vm_compute; reflexivity))
         end.
  reflexivity.
Qed.

End NoVariable.

Lemma X22_condition_without_variable_witness :
  _parse_single_condition "age > 18" "u"
  = raise "Unsupported condition: age > 18".
Proof.
  apply (@X22_condition_without_variable "age > 18" "u"). reflexivity.
Defined.

Section NoQuote.

Import Patterns.

Variable fs : string -> option element.

Lemma quote_absent (s : string) :
  mem_char dq s = false -> mem_char sq s = false ->
  any_char is_quote s = false.
Proof.
  induction s as [|c s IH]; [reflexivity|]. cbn [mem_char any_char].
  intros Hd Hs. apply orb_false_iff in Hd. apply orb_false_iff in Hs.
  destruct Hd as [Hd Hd']. destruct Hs as [Hs Hs'].
  rewrite (IH Hd' Hs'). unfold is_quote.
  rewrite (Ascii.eqb_sym c dq), Hd, (Ascii.eqb_sym c sq), Hs. reflexivity.
Qed.

(** X23: a statement that holds neither a double nor a single quote is
    never translated: every form of every operation names its collection
    between quotes. *)
Theorem X23_statement_without_quote (s : string) (vm : var_mappings) :
  mem_char dq s = false -> mem_char sq s = false ->
  exists e, fst (parse_xquery fs s vm) = inl e.
Proof.
  intros Hd Hs.
  assert (Hq : any_char is_quote (strip s) = false).
  { apply any_char_strip_by, quote_absent; assumption. }
  unfold parse_xquery. generalize dependent (strip s). intros x Hq.
  destruct (insert_cue x).
  { unfold pure, _parse_insert. cbn [fst].
    rewrite (@search_needs IGNORECASE_DOTALL is_quote mongo_insert x)
      by (exact Hq || (vm_compute; reflexivity)).
    rewrite (@search_needs IGNORECASE_DOTALL is_quote xquery_insert x)
      by (exact Hq || (vm_compute; reflexivity)).
    eexists. reflexivity. }
  destruct (update_cue x).
  { unfold pure, _parse_update, collection_path_query. cbn [fst].
    rewrite (@search_needs IGNORECASE_DOTALL is_quote mongo_update x)
      by (exact Hq || (vm_compute; reflexivity)).
    rewrite (@search_needs no_flags is_quote in_collection x)
      by (exact Hq || (vm_compute; reflexivity)).
    destruct (search IGNORECASE_DOTALL replace_node x);
      [eexists; reflexivity|].
    destruct (search IGNORECASE_DOTALL update_value x);
      eexists; reflexivity. }
  destruct (delete_cue x).
  { unfold pure, _parse_delete, collection_path_query. cbn [fst].
    rewrite (@search_needs IGNORECASE_DOTALL is_quote mongo_remove x)
      by (exact Hq || (vm_compute; reflexivity)).
    rewrite (@search_needs no_flags is_quote in_collection x)
      by (exact Hq || (vm_compute; reflexivity)).
    destruct (search IGNORECASE_DOTALL delete_node x);
      eexists; reflexivity. }
  destruct (read_cue x).
  { unfold _parse_read.
    rewrite (@search_needs IGNORECASE_DOTALL is_quote mongo_find x)
      by (exact Hq || (vm_compute; reflexivity)).
    rewrite (@search_needs IGNORECASE_DOTALL is_quote for_in_collection x)
      by (exact Hq || (vm_compute; reflexivity)).
    eexists. reflexivity. }
  eexists. reflexivity.
Qed.

End NoQuote.

Lemma X23_statement_without_quote_witness :
  exists e,
    fst (parse_xquery (fun _ => None) "for $u in collection(users)" [])
    = inl e.
Proof.
  apply (@X23_statement_without_quote (fun _ => None)
           "for $u in collection(users)" []);
    reflexivity.
Defined.

Section NoComma.

Import Patterns.

Variable fs : string -> option element.

Lemma clean_up_without_comma (s : string) :
  mem_char "," s = false -> clean_braces s = s /\ clean_brackets s = s.
Proof.
  intros H. rewrite <- any_char_mem in H.
  unfold clean_braces, clean_brackets.
  split; apply (@sub_needs (Ascii.eqb ",")); try exact H;
    vm_compute; reflexivity.
Qed.

(** X24: when the literal of a shorthand insert holds no comma, the
    clean-up of lines 48 and 49 changes nothing: the document is what
    [json.loads] reads in the stripped literal, and the statement fails
    exactly when [json.loads] refuses it. *)
Theorem X24_shorthand_insert_without_comma (s : string) (m : rmatch) :
  search IGNORECASE_DOTALL mongo_insert s = Some m ->
  mem_char "," (group m 2) = false ->
  _parse_insert fs s
  = match Json.loads (strip (group m 2)) with
    | Some doc => ok (InsertOne (group m 1) doc)
    | None => raise "Could not parse insert document JSON"
    end.
Proof.
  intros Hm Hc. unfold _parse_insert. rewrite Hm.
  assert (H : mem_char "," (strip (group m 2)) = false).
  { rewrite <- any_char_mem. apply any_char_strip_by. rewrite any_char_mem.
    exact Hc. }
  destruct (clean_up_without_comma _ H) as [E1 E2].
  rewrite E1, E2. reflexivity.
Qed.

End NoComma.

Lemma X24_shorthand_insert_without_comma_witness :
  _parse_insert (fun _ => None) (q "db.collection(`c`).insert({`a`: 1})")
  = ok (InsertOne "c" (PDict [("a", PInt 1)])).
Proof.
  refine (@X24_shorthand_insert_without_comma (fun _ => None)
            (q "db.collection(`c`).insert({`a`: 1})")
            (RMatch 0 35 [(2, q "{`a`: 1}"); (1, "c")]) _ _);
    vm_compute; reflexivity.
Defined.

(* ================================================================== *)
(** * X25: the direction of a sort key *)
(* ================================================================== *)

Lemma chr_matches_ignorecase (d c : ascii) :
  chr_matches IGNORECASE d c = Ascii.eqb (lower_char c) (lower_char d).
Proof.
  unfold chr_matches. cbn [ignorecase IGNORECASE andb].
  destruct (Ascii.eqb_spec c d) as [->|_]; [|reflexivity].
  rewrite Ascii.eqb_refl. reflexivity.
Qed.

(** Without regard to case, a word is matched by the texts that are the
    word when put in lower case. *)
Lemma after_word_lower (w0 s rest : string) :
  after_word IGNORECASE w0 s = Some rest
  <-> exists w, s = w ++ rest /\ lower w = lower w0.
Proof.
  revert s. induction w0 as [|d w0 IH]; intros s.
  - cbn [after_word lower]. split.
    + intros H. injection H as <-. exists EmptyString. split; reflexivity.
    + intros (w & -> & Hw). destruct w; [reflexivity|discriminate].
  - destruct s as [|c s]; cbn [after_word lower].
    + split; [discriminate|]. intros (w & E & Hw).
      destruct w; discriminate.
    + rewrite chr_matches_ignorecase.
      destruct (Ascii.eqb_spec (lower_char c) (lower_char d)) as [Ec|Ec].
      * rewrite IH. split.
        -- intros (w & -> & Hw). exists (String c w). cbn [lower append].
           rewrite Hw, Ec. split; reflexivity.
        -- intros (w & E & Hw). destruct w as [|c' w]; [discriminate|].
           cbn [lower append] in *. injection E as <- ->.
           injection Hw as _ Hw. exists w. split; [reflexivity|exact Hw].
      * split; [discriminate|]. intros (w & E & Hw).
        destruct w as [|c' w]; [discriminate|].
        cbn [lower append] in *. injection E as <- ->.
        injection Hw as Hc _. contradiction.
Qed.

Section Literal.

Variable fl : flags.

Lemma chr_sound (d : ascii) (st st' : mstate) :
  Matches fl (Chr d) st st' ->
  exists c, ms_rest st = String c (ms_rest st') /\ chr_matches fl d c = true.
Proof.
  intros H. inversion H; subst. eexists. split; [eassumption|assumption].
Qed.

(** A match of a literal consumes the word, character by character. *)
Lemma lit_sound (w : string) (st st' : mstate) :
  Matches fl (lit w) st st' ->
  after_word fl w (ms_rest st) = Some (ms_rest st').
Proof.
  revert st. induction w as [|d w IH]; intros st H.
  - inversion H; subst. reflexivity.
  - destruct w as [|d' w].
    + apply chr_sound in H. destruct H as (c & E & Hc).
      rewrite E. cbn [after_word]. rewrite Hc. reflexivity.
    + change (lit (String d (String d' w)))
        with (Seq (Chr d) (lit (String d' w))) in H.
      inversion H as [| | | | |r1 r2 s0 s1 s2 H1 H2| | | | | | | | | | |];
        subst.
      apply chr_sound in H1. destruct H1 as (c & E & Hc).
      apply IH in H2. rewrite E.
      change (after_word fl (String d (String d' w)) (String c (ms_rest s1)))
        with (if chr_matches fl d c
              then after_word fl (String d' w) (ms_rest s1) else None).
      rewrite Hc. exact H2.
Qed.

Lemma lit_complete (w : string) (st : mstate) (rest : string) :
  after_word fl w (ms_rest st) = Some rest ->
  exists st', Matches fl (lit w) st st' /\ ms_rest st' = rest.
Proof.
  revert st. induction w as [|d w IH]; intros st H.
  - cbn [after_word] in H. injection H as <-. exists st.
    split; [constructor|reflexivity].
  - destruct (ms_rest st) as [|c s] eqn:E; [discriminate|].
    cbn [after_word] in H.
    destruct (chr_matches fl d c) eqn:Hc; [|discriminate].
    pose proof (MChr fl d st E Hc) as H1.
    destruct w as [|d' w].
    + cbn [after_word] in H. injection H as <-.
      exists (step st s). split; [exact H1|reflexivity].
    + destruct (IH (step st s) H) as (st' & H2 & Hr).
      exists st'. split; [|exact Hr].
      change (lit (String d (String d' w)))
        with (Seq (Chr d) (lit (String d' w))).
      econstructor; eassumption.
Qed.

Variable r : regex.
Variable here : string -> Prop.
Hypothesis Hhere :
  forall pos s,
    (exists st', Matches fl r (MState pos s []) st') <-> here s.

(** A pattern is found in a text when it matches at the start of one of
    its suffixes. *)
Lemma found_search_from_iff (s : string) (pos : nat) :
  found (search_from fl r pos s) = true
  <-> exists pre suf, s = pre ++ suf /\ here suf.
Proof.
  revert pos. induction s as [|c s IH]; intros pos; cbn [search_from].
  - destruct (match_at fl r pos EmptyString) as [m|] eqn:E.
    + split; [|reflexivity]. intros _. exists EmptyString, EmptyString.
      split; [reflexivity|]. apply (Hhere pos).
      apply match_at_sound in E. exact E.
    + split; [discriminate|]. intros (pre & suf & Es & Hs).
      destruct pre; [|discriminate]. cbn [append] in Es. subst suf.
      apply (Hhere pos) in Hs. destruct Hs as (st' & Hm).
      apply match_at_complete in Hm. destruct Hm as (m & Em). congruence.
  - destruct (match_at fl r pos (String c s)) as [m|] eqn:E.
    + split; [|reflexivity]. intros _. exists EmptyString, (String c s).
      split; [reflexivity|]. apply (Hhere pos).
      apply match_at_sound in E. exact E.
    + rewrite IH. split.
      * intros (pre & suf & -> & Hs). exists (String c pre), suf.
        split; [reflexivity|exact Hs].
      * intros (pre & suf & Es & Hs). destruct pre as [|c' pre].
        -- cbn [append] in Es. subst suf.
           apply (Hhere pos) in Hs. destruct Hs as (st' & Hm).
           apply match_at_complete in Hm. destruct Hm as (m & Em). congruence.
        -- cbn [append] in Es. injection Es as <- ->.
           exists pre, suf. split; [reflexivity|exact Hs].
Qed.

End Literal.

Section Direction.

Import Patterns.

Lemma descending_here (pos : nat) (s : string) :
  (exists st', Matches IGNORECASE descending_end (MState pos s []) st')
  <-> exists w tail,
        s = w ++ tail /\ lower w = "descending" /\ line_end tail.
Proof.
  unfold descending_end. split.
  - intros (st' & H).
    inversion H as [| | | | |r1 r2 s0 s1 s2 H1 H2| | | | | | | | | | |];
      subst.
    apply (@lit_sound IGNORECASE "descending") in H1.
    apply after_word_lower in H1.
    destruct H1 as (w & E & Hw). exists w, (ms_rest s1).
    split; [exact E|split; [exact Hw|]].
    inversion H2; subst; [left|right]; assumption.
  - intros (w & tail & -> & Hw & Ht).
    assert (Ha : after_word IGNORECASE "descending"
                   (ms_rest (MState pos (w ++ tail) [])) = Some tail).
    { apply after_word_lower. exists w. split; [reflexivity|exact Hw]. }
    apply lit_complete in Ha. destruct Ha as (st1 & H1 & Hr).
    exists st1. econstructor; [exact H1|].
    destruct Ht as [->| ->]; [apply MEolEnd|apply MEolNewline]; exact Hr.
Qed.

(** The direction of a part of the clause (lines 589 to 595). *)
Lemma order_part_direction (context_var part : string) :
  (snd (order_part context_var part) = PInt (-1)
   <-> exists pre w tail,
         part = pre ++ w ++ tail /\ lower w = "descending"
         /\ line_end tail)
  /\ (snd (order_part context_var part) <> PInt (-1) ->
      snd (order_part context_var part) = PInt 1).
Proof.
  pose proof (@found_search_from_iff IGNORECASE descending_end _
                descending_here part 0) as Hf.
  unfold order_part, search.
  destruct (found (search_from IGNORECASE descending_end 0 part));
    cbn [snd].
  - split.
    + split; [intros _|reflexivity].
      destruct (proj1 Hf eq_refl)
        as (pre & suf & -> & w & tail & -> & Hw & Ht).
      exists pre, w, tail. auto.
    + intros H. contradiction H. reflexivity.
  - split; [|intros _; reflexivity]. split; [discriminate|].
    intros (pre & w & tail & -> & Hw & Ht).
    assert (H : false = true); [|discriminate].
    apply Hf. exists pre, (w ++ tail). split; [reflexivity|].
    exists w, tail. auto.
Qed.

(** A text without a character that the separator needs is one piece. *)
Lemma split_needs (fl : flags) (r : regex) (p : ascii -> bool) (s : string) :
  needs fl p r = true -> any_char p s = false -> split fl r s = [s].
Proof.
  intros Hn. unfold split.
  assert (H : forall s piece pos,
             any_char p s = false ->
             split_go fl r 0 pos piece s = [rev_acc piece s]).
  { clear s. induction s as [|c s IH]; intros piece pos Hs.
    - reflexivity.
    - cbn [split_go]. rewrite (@match_at_needs p fl r Hn pos _ Hs).
      cbn [any_char] in Hs. apply orb_false_iff in Hs.
      rewrite (IH _ _ (proj2 Hs)). reflexivity. }
  intros Hs. rewrite (H s EmptyString 0 Hs). reflexivity.
Qed.

(** X25: an order-by clause without comma gives one sort key, and the key
    is sorted downward exactly when the clause ends with the word
    descending, in any case of the letters, or with that word and a line
    feed; no white space is required before the word.  Every other key
    is sorted upward. *)
Theorem X25_sort_direction (context_var clause : string) :
  mem_char "," clause = false ->
  exists field direction,
    _parse_order_by clause context_var = [(field, direction)]
    /\ (direction = PInt (-1)
        <-> exists pre w tail,
              clause = pre ++ w ++ tail /\ lower w = "descending"
              /\ (tail = EmptyString \/ tail = String newline EmptyString))
    /\ (direction <> PInt (-1) -> direction = PInt 1).
Proof.
  intros H. rewrite <- any_char_mem in H.
  exists (fst (order_part context_var clause)),
         (snd (order_part context_var clause)).
  split; [|exact (order_part_direction context_var clause)].
  unfold _parse_order_by.
  rewrite (@split_needs no_flags comma_spaces (Ascii.eqb ",") clause)
    by (exact H || (vm_compute; reflexivity)).
  reflexivity.
Qed.

(** A field whose name ends like the keyword is sorted downward; the
    keyword is taken off the key only after white space; an abbreviation
    of the keyword is part of the key. *)
Example a_field_named_like_the_keyword :
  _parse_order_by "$u/isdescending" "u" = [("isdescending", PInt (-1))]
  /\ _parse_order_by "$u/name descending" "u" = [("name", PInt (-1))]
  /\ _parse_order_by "$u/name DESC" "u" = [("name DESC", PInt 1)].
Proof. repeat split; vm_compute; reflexivity. Qed.

End Direction.

Lemma X25_sort_direction_witness :
  exists field direction,
    _parse_order_by "$u/isdescending" "u" = [(field, direction)]
    /\ (direction = PInt (-1)
        <-> exists pre w tail,
              "$u/isdescending" = pre ++ w ++ tail /\ lower w = "descending"
              /\ (tail = EmptyString \/ tail = String newline EmptyString))
    /\ (direction <> PInt (-1) -> direction = PInt 1).
Proof.
  apply (@X25_sort_direction "u" "$u/isdescending"). reflexivity.
Defined.

(* ================================================================== *)
(** * C9: the Value Resolver and the string form of its values *)
(* ================================================================== *)









Section FloatLiteral.

Import Patterns.








End FloatLiteral.




Lemma zeros_digits (n : nat) : all_chars is_digit (Spec.zeros n) = true.
Proof. induction n as [|n IH]; [reflexivity|exact IH]. Qed.






(** The string forms of some floats: trailing zeros go; the literal of
    fifty-five digits after the point stands for the same float as [0.1];
    the odd integer above [2 ^ 53] is not a float, the even one below it
    is the nearest; a number below [0.0001], or from [10 ^ 16] upwards,
    is written with an exponent; a number beyond the range of binary64 is
    infinite. *)
Example float_string_forms :
  Spec.py_str (PFloat "1.50") = Some "1.5"
  /\ Spec.py_str (PFloat "007.0") = Some "7.0"
  /\ Spec.py_str (PFloat "0.0") = Some "0.0"
  /\ Spec.py_str
       (PFloat "0.1000000000000000055511151231257827021181583404541015625")
     = Some "0.1"
  /\ Spec.py_str (PFloat "0.30000000000000004") = Some "0.30000000000000004"
  /\ Spec.py_str (PFloat "9007199254740993.0") = Some "9007199254740992.0"
  /\ Spec.py_str (PFloat "0.0001") = Some "0.0001"
  /\ Spec.py_str (PFloat "0.00009999") = Some "9.999e-05"
  /\ Spec.py_str (PFloat "0.00001") = Some "1e-05"
  /\ Spec.py_str (PFloat "9999999999999998.0") = Some "9999999999999998.0"
  /\ Spec.py_str (PFloat "10000000000000000.0") = Some "1e+16"
  /\ Spec.py_str (PFloat "123456789012345678901234.5")
     = Some "1.2345678901234569e+23"
  /\ Spec.py_str (PFloat ("0." ++ Spec.zeros 323 ++ "5")) = Some "5e-324"
  /\ Spec.py_str (PFloat ("0." ++ Spec.zeros 323 ++ "2")) = Some "0.0"
  /\ Spec.py_str (PFloat ("1" ++ Spec.zeros 308 ++ ".0")) = Some "1e+308"
  /\ Spec.py_str (PFloat ("2" ++ Spec.zeros 308 ++ ".0")) = Some "inf".
Proof. repeat split; vm_compute; reflexivity. Qed.



